(** * WanderGenie backend: the prompt merger and the reply-recovery pipeline

    A shallow embedding of the algorithmic core of [main.py]:
    [build_location_fallback], [generate_google_maps_link],
    [build_master_prompt], [extract_json_from_model_output], [fix_json] and the
    extraction and validation block of [generate_itinerary].

    Conventions.
    - A Python [str] is a list of Unicode code points ([N]).
    - Python exceptions are values of [exn]; code that may raise lives in the
      error monad [Py].
    - A value produced by [json.loads] is a [json] tree; a Python [dict] is an
      association list in insertion order. *)

From Stdlib Require Import Ascii String DecimalString.
From Stdlib Require Import List NArith ZArith Bool Lia.
From Stdlib Require Import Permutation Sorted SpecFloat.
Import ListNotations.

Set Warnings "-register-all".

Local Open Scope N_scope.
Local Open Scope list_scope.

(** ** Python strings *)

Module PyStr.

Definition char := N.
Definition str := list char.

(** [u s] is the Python string with the characters of the literal [s]. *)
Definition u (s : string) : str := map N_of_ascii (list_ascii_of_string s).

(** [js s] is [u s] with every apostrophe read as a double quote; it is used
    to write JSON text in examples. *)
Definition js (s : string) : str :=
  map (fun c => if c =? 39 then 34 else c) (u s).

Definition nl : str := [10].

Definition eqc (a b : char) : bool := a =? b.

Fixpoint eqs (a b : str) : bool :=
  match a, b with
  | [], [] => true
  | x :: a', y :: b' => eqc x y && eqs a' b'
  | _, _ => false
  end.

(** [str.isspace] on one code point, which is also the class [\s] of [re] on
    [str] patterns. *)
Definition isspace (c : char) : bool :=
  ((9 <=? c) && (c <=? 13)) || ((28 <=? c) && (c <=? 32))
  || (c =? 133) || (c =? 160) || (c =? 5760)
  || ((8192 <=? c) && (c <=? 8202))
  || (c =? 8232) || (c =? 8233) || (c =? 8239) || (c =? 8287) || (c =? 12288).

Fixpoint lstrip (s : str) : str :=
  match s with
  | c :: s' => if isspace c then lstrip s' else s
  | [] => []
  end.

Definition rstrip (s : str) : str := rev (lstrip (rev s)).

(** [s.strip()] *)
Definition strip (s : str) : str := rstrip (lstrip s).

(** [s.startswith(p)] *)
Fixpoint startswith (s p : str) {struct p} : bool :=
  match p, s with
  | [], _ => true
  | x :: p', c :: s' => eqc c x && startswith s' p'
  | _ :: _, [] => false
  end.

(** [s.endswith(p)] *)
Definition endswith (s p : str) : bool := startswith (rev s) (rev p).

(** [s.find(c)] for a one-character needle: the least index, or [-1]. *)
Fixpoint find_from (c : char) (s : str) (i : Z) : Z :=
  match s with
  | [] => (-1)%Z
  | x :: s' => if eqc x c then i else find_from c s' (i + 1)%Z
  end.

Definition find (s : str) (c : char) : Z := find_from c s 0%Z.

(** [p in s] for strings: [p] occurs in [s] as a substring. *)
Fixpoint contains (s p : str) : bool :=
  startswith s p ||
  match s with
  | [] => false
  | _ :: s' => contains s' p
  end.

(** Slices as the source takes them: [s[a:]] and [s[a:b]] with bounds that
    are not negative, [s[:-n]] with a positive [n]. *)
Definition slice_from (s : str) (a : Z) : str := skipn (Z.to_nat a) s.

Definition slice (s : str) (a b : Z) : str :=
  firstn (Z.to_nat (b - a)) (skipn (Z.to_nat a) s).

Definition drop_last (s : str) (n : nat) : str := firstn (length s - n) s.

(** [sep.join(l)] *)
Fixpoint join (sep : str) (l : list str) : str :=
  match l with
  | [] => []
  | [x] => x
  | x :: l' => x ++ sep ++ join sep l'
  end.

(** [s.replace(old, new)]: the occurrences of a non-empty [old] are taken
    left to right and do not overlap; an empty [old] matches before every
    character and at the end.  The fuel is the length of the text, which is
    enough: see [replace_go_fuel]. *)
Fixpoint replace_go (fuel : nat) (old new s : str) : str :=
  match fuel with
  | O => s
  | S fuel' =>
    match s with
    | [] => []
    | c :: s' =>
      if startswith s old
      then new ++ replace_go fuel' old new (skipn (length old) s)
      else c :: replace_go fuel' old new s'
    end
  end.

Definition replace (s old new : str) : str :=
  match old with
  | [] => new ++ flat_map (fun c => c :: new) s
  | _ :: _ => replace_go (length s) old new s
  end.

(** [str(n)] for an [int]. *)
Definition str_of_int (n : Z) : str := u (NilZero.string_of_int (Z.to_int n)).

End PyStr.
Import PyStr.

(** ** Exceptions *)

Inductive exn : Type :=
| ValueError (msg : str)
| RuntimeError (msg : str)
| KeyError (key : str)
| TypeError
| IndexError
| AttributeError
| UnicodeEncodeError.

Inductive Py (A : Type) : Type :=
| Ok (a : A)
| Raise (e : exn).
Arguments Ok {A} a.
Arguments Raise {A} e.

Definition bind {A B : Type} (m : Py A) (k : A -> Py B) : Py B :=
  match m with
  | Ok a => k a
  | Raise e => Raise e
  end.

Notation "x <- m ;; k" := (bind m (fun x => k))
  (at level 61, m at next level, right associativity).

(** [try: body except Exception: handler] *)
Definition try_except {A : Type} (body : Py A) (handler : exn -> Py A) : Py A :=
  match body with
  | Ok a => Ok a
  | Raise e => handler e
  end.

Fixpoint mapM {A B : Type} (f : A -> Py B) (l : list A) : Py (list B) :=
  match l with
  | [] => Ok []
  | a :: l' => b <- f a ;; bs <- mapM f l' ;; Ok (b :: bs)
  end.

(** ** The Structured-Text Locator: [extract_json_from_model_output] *)

Module Locator.

Definition lbrace : char := 123.
Definition rbrace : char := 125.
Definition lbracket : char := 91.
Definition rbracket : char := 93.

(** [c in '{['] and [c in '}]'] for a one-character [c]. *)
Definition is_open (c : char) : bool := eqc c lbrace || eqc c lbracket.
Definition is_close (c : char) : bool := eqc c rbrace || eqc c rbracket.

(** The body of [for marker in [...]]: one marker, front then back. *)
Definition strip_marker (cleaned marker : str) : str :=
  let cleaned :=
    if startswith cleaned marker
    then strip (slice_from cleaned (Z.of_nat (length marker)))
    else cleaned in
  if endswith cleaned marker
  then strip (drop_last cleaned (length marker))
  else cleaned.

Definition markers : list str := [u "```json"; u "```"].

(** The scan [for i, c in enumerate(cleaned[start_idx:])]: [stack] has its
    top at the head; the result is [end_idx], [-1] when the loop ends without
    [break]. *)
Fixpoint scan (start_idx : Z) (stack : list char) (i : Z) (s : str) : Z :=
  match s with
  | [] => (-1)%Z
  | c :: s' =>
    if is_open c then scan start_idx (c :: stack) (i + 1)%Z s'
    else if is_close c then
      match stack with
      | [] => scan start_idx stack (i + 1)%Z s'
      | _ :: [] => (start_idx + i)%Z
      | _ :: rest => scan start_idx rest (i + 1)%Z s'
      end
    else scan start_idx stack (i + 1)%Z s'
  end.

Definition clean (raw : str) : str :=
  fold_left strip_marker markers (strip raw).

Definition start_index (cleaned : str) : Z :=
  Z.max (find cleaned lbrace) (find cleaned lbracket).

Definition extract_json_from_model_output (raw : str) : str :=
  match raw with
  | [] => []
  | _ :: _ =>
    let cleaned := clean raw in
    let start_idx := start_index cleaned in
    if (start_idx =? -1)%Z then cleaned
    else
      let end_idx := scan start_idx [] 0%Z (slice_from cleaned start_idx) in
      if negb (end_idx =? -1)%Z
      then slice cleaned start_idx (end_idx + 1)%Z
      else slice_from cleaned start_idx
  end.

End Locator.

(** ** [urllib.parse.quote_plus] and [generate_google_maps_link] *)

Module Url.

(** [str.encode('utf-8', 'strict')]: a surrogate cannot be encoded.  Code
    points above 0x10FFFF do not occur in a Python string and are refused
    here as well. *)
Definition utf8_char (c : char) : Py (list N) :=
  if c <? 128 then Ok [c]
  else if c <? 2048 then
    Ok [N.lor 192 (N.shiftr c 6); N.lor 128 (N.land c 63)]
  else if c <? 65536 then
    if (55296 <=? c) && (c <=? 57343) then Raise UnicodeEncodeError
    else Ok [N.lor 224 (N.shiftr c 12);
             N.lor 128 (N.land (N.shiftr c 6) 63);
             N.lor 128 (N.land c 63)]
  else if c <? 1114112 then
    Ok [N.lor 240 (N.shiftr c 18);
        N.lor 128 (N.land (N.shiftr c 12) 63);
        N.lor 128 (N.land (N.shiftr c 6) 63);
        N.lor 128 (N.land c 63)]
  else Raise UnicodeEncodeError.

Definition utf8 (s : str) : Py (list N) :=
  bs <- mapM utf8_char s ;; Ok (concat bs).

(** [_ALWAYS_SAFE]: ASCII letters, digits and [_.-~]. *)
Definition always_safe (b : N) : bool :=
  ((65 <=? b) && (b <=? 90)) || ((97 <=? b) && (b <=? 122))
  || ((48 <=? b) && (b <=? 57))
  || (b =? 95) || (b =? 46) || (b =? 45) || (b =? 126).

Definition hex_digit (d : N) : char :=
  if d <? 10 then 48 + d else 55 + d.

(** The quoter of [quote_from_bytes]: [chr(b)] for a safe byte, else
    ['%{:02X}'.format(b)]. *)
Definition quoter (safe : list N) (b : N) : str :=
  if always_safe b || existsb (N.eqb b) safe then [b]
  else [37; hex_digit (N.shiftr b 4); hex_digit (N.land b 15)].

(** [quote(string, safe)] on a [str]. *)
Definition quote (s : str) (safe : list N) : Py str :=
  match s with
  | [] => Ok []
  | _ :: _ => bs <- utf8 s ;; Ok (concat (map (quoter safe) bs))
  end.

(** [quote_plus(string)] on a [str]. *)
Definition quote_plus (s : str) : Py str :=
  if negb (contains s [32]) then quote s []
  else q <- quote s [32] ;; Ok (replace q [32] [43]).

Definition maps_search : str :=
  u "https://www.google.com/maps/search/?api=1&query=".

Definition maps_prefix : str := u "https://www.google.com/maps/".

End Url.

(** ** Values of [json.loads] and the dynamic operations used on them *)

Module Json.

Inductive json : Type :=
| JNull
| JBool (b : bool)
| JInt (n : Z)
| JFloat (f : spec_float)
| JStr (s : str)
| JArr (items : list json)
| JObj (fields : list (str * json)).

Definition dict := list (str * json).

Fixpoint lookup (k : str) (d : dict) : option json :=
  match d with
  | [] => None
  | (k', v) :: d' => if eqs k' k then Some v else lookup k d'
  end.

(** [d[k] = v]: an existing key keeps its place, a new key goes last. *)
Fixpoint assign (k : str) (v : json) (d : dict) : dict :=
  match d with
  | [] => [(k, v)]
  | (k', v') :: d' =>
    if eqs k' k then (k', v) :: d' else (k', v') :: assign k v d'
  end.

(** [x == k] for a string [k]. *)
Definition eq_str (k : str) (x : json) : bool :=
  match x with
  | JStr s => eqs s k
  | _ => false
  end.

(** [k in x] *)
Definition py_in (k : str) (x : json) : Py bool :=
  match x with
  | JObj d => Ok (match lookup k d with Some _ => true | None => false end)
  | JArr l => Ok (existsb (eq_str k) l)
  | JStr s => Ok (contains s k)
  | _ => Raise TypeError
  end.

(** [x[k]] *)
Definition getitem (x : json) (k : str) : Py json :=
  match x with
  | JObj d => match lookup k d with Some v => Ok v | None => Raise (KeyError k) end
  | _ => Raise TypeError
  end.

(** [x[k] = v] *)
Definition setitem (x : json) (k : str) (v : json) : Py json :=
  match x with
  | JObj d => Ok (JObj (assign k v d))
  | _ => Raise TypeError
  end.

Definition isinstance_list (x : json) : bool :=
  match x with
  | JArr _ => true
  | _ => false
  end.

(** Truth value of [x], as tested by [not x]. *)
Definition truthy (x : json) : bool :=
  match x with
  | JNull => false
  | JBool b => b
  | JInt n => negb (n =? 0)%Z
  | JFloat (S754_zero _) => false
  | JFloat _ => true
  | JStr s => match s with [] => false | _ => true end
  | JArr l => match l with [] => false | _ => true end
  | JObj d => match d with [] => false | _ => true end
  end.

(** The items of [for a in x]. *)
Definition py_iter (x : json) : Py (list json) :=
  match x with
  | JArr l => Ok l
  | JObj d => Ok (map (fun kv => JStr (fst kv)) d)
  | JStr s => Ok (map (fun c => JStr [c]) s)
  | _ => Raise TypeError
  end.

(** [x.startswith(p)] *)
Definition py_startswith (x : json) (p : str) : Py bool :=
  match x with
  | JStr s => Ok (startswith s p)
  | _ => Raise AttributeError
  end.

End Json.
Import Json.

(** [generate_google_maps_link(place_name)]; [quote_plus] raises [TypeError]
    on anything that is neither [str] nor [bytes]. *)
Definition generate_google_maps_link (place_name : json) : Py str :=
  match place_name with
  | JStr s => encoded_name <- Url.quote_plus s ;; Ok (Url.maps_search ++ encoded_name)
  | _ => Raise TypeError
  end.

(** ** The Result Normalizer: the validation block of [generate_itinerary] *)

Module Normalizer.

Definition k_days : str := u "days".
Definition k_day : str := u "day".
Definition k_activities : str := u "activities".
Definition k_map_link : str := u "map_link".
Definition k_title : str := u "title".

Definition missing_days : exn := ValueError (u "Response missing 'days' array").
Definition days_not_array : exn := ValueError (u "'days' should be an array").
Definition missing_day_number : exn :=
  ValueError (u "Each day must have a 'day' number").

(** [activity['map_link'] = generate_google_maps_link(activity['title'])] *)
Definition synthesize (activity : json) : Py json :=
  title <- getitem activity k_title ;;
  link <- generate_google_maps_link title ;;
  setitem activity k_map_link (JStr link).

(** The body of [for activity in day['activities']]. *)
Definition fix_activity (activity : json) : Py json :=
  present <- py_in k_map_link activity ;;
  absent_or_empty <-
    (if negb present then Ok true
     else v <- getitem activity k_map_link ;; Ok (negb (truthy v))) ;;
  if absent_or_empty then synthesize activity
  else
    v <- getitem activity k_map_link ;;
    good <- py_startswith v Url.maps_prefix ;;
    if negb good then synthesize activity else Ok activity.

(** The body of [for day in data['days']].  The activities are updated in
    place, so the list held by the day afterwards holds the updated ones. *)
Definition fix_day (day : json) : Py json :=
  has_activities <- py_in k_activities day ;;
  day <- (if negb has_activities then setitem day k_activities (JArr [])
          else Ok day) ;;
  has_day <- py_in k_day day ;;
  if negb has_day then Raise missing_day_number
  else
    acts <- getitem day k_activities ;;
    items <- py_iter acts ;;
    items' <- mapM fix_activity items ;;
    match acts with
    | JArr _ => setitem day k_activities (JArr items')
    | _ => Ok day
    end.

(** From [if 'days' not in data] to [return data]. *)
Definition normalize (data : json) : Py json :=
  has_days <- py_in k_days data ;;
  data <- (if negb has_days
           then if isinstance_list data then Ok (JObj [(k_days, data)])
                else Raise missing_days
           else Ok data) ;;
  days <- getitem data k_days ;;
  if negb (isinstance_list days) then Raise days_not_array
  else
    items <- py_iter days ;;
    items' <- mapM fix_day items ;;
    setitem data k_days (JArr items').

(** How the route function leaves the block: it returns the normalized
    value, or raises an [HTTPException]. *)
Inductive response : Type :=
| Returned (body : json)
| HTTPException (status_code : Z) (detail : str).

Definition parse_failure : response :=
  HTTPException 500
    (u "We couldn't process the AI response. Please try again with different parameters.").

(** The validation block under its [except Exception] handler, which turns
    every exception into the same status 500. *)
Definition respond (data : json) : response :=
  match normalize data with
  | Ok d => Returned d
  | Raise _ => parse_failure
  end.

End Normalizer.

(** ** The Template Merger: [build_master_prompt] and its helpers *)

Module Prompt.

(** [ItineraryRequest]; an [Optional] field is an [option] whose [None] is an
    explicit null. *)
Record ItineraryRequest : Type := {
  from_location : str;
  specific_places : option str;
  categories : option (list str);
  days : Z;
  currency : str;
  budget : option str;
  intent : option (list str);
  group : option str;
  stay : option str;
  notes : option str
}.

(** A stored prompt part.  [text] is [None] when the document has no such
    key, which [p.get] with its default reads as the empty string. *)
Record part : Type := {
  part_id : Z;
  title : str;
  text : option str
}.

Definition comma_space : str := u ", ".

(** [x or ''], the empty string for [None]. *)
Definition or_empty (x : option str) : str :=
  match x with
  | Some s => s
  | None => []
  end.

(** [', '.join(l) if l else ''] *)
Definition join_or_empty (l : option (list str)) : str :=
  match l with
  | Some (x :: l') => join comma_space (x :: l')
  | _ => []
  end.

(** [str(x)] for an optional string. *)
Definition str_of_optional (x : option str) : str :=
  match x with
  | Some s => s
  | None => u "None"
  end.

Definition build_location_fallback
    (specific_places : option str) (categories : option (list str)) : str :=
  let sp := strip (or_empty specific_places) in
  match sp with
  | _ :: _ => sp
  | [] =>
    match categories with
    | Some (x :: l') => join comma_space (x :: l')
    | _ => []
    end
  end.

(** The [replacements] dictionary, in insertion order. *)
Definition replacements (user : ItineraryRequest) : list (str * str) :=
  let location_input :=
    build_location_fallback (specific_places user) (categories user) in
  [ (u "from_location", from_location user);
    (u "specific_location", location_input);
    (u "categories", join_or_empty (categories user));
    (u "days", str_of_int (days user));
    (u "currency", currency user);
    (u "budget", str_of_optional (budget user));
    (u "intent", join_or_empty (intent user));
    (u "group", or_empty (group user));
    (u "stay", or_empty (stay user));
    (u "notes", or_empty (notes user));
    (u "trip_type",
       match intent user with
       | Some (x :: _) => x
       | _ => u "general"
       end) ].

(** [prompts_col.find(...).sort('part_id', 1)]: ascending by [part_id]; parts
    with equal identifiers keep their stored order. *)
Fixpoint insert_part (p : part) (l : list part) : list part :=
  match l with
  | [] => [p]
  | q :: l' =>
    if (part_id p <=? part_id q)%Z then p :: l else q :: insert_part p l'
  end.

Definition get_prompt_parts (prompts_col : list part) : list part :=
  fold_right insert_part [] prompts_col.

Definition placeholder (k : str) : str := u "{" ++ k ++ u "}".

(** The [except] branch: for every [k, v] of [replacements.items()], in
    order, [txt = txt.replace('{' + k + '}', v)]. *)
Definition replace_all (txt : str) (repl : list (str * str)) : str :=
  fold_left (fun txt kv => replace txt (placeholder (fst kv)) (snd kv)) repl txt.

Definition no_parts : exn :=
  RuntimeError (u "No prompt parts found in DB. Seed the 4 prompt parts first.").

Definition blank_line : str := nl ++ nl.

Section Merger.

(** [txt.format] with the replacements as keyword arguments is the built-in
    formatter; the merger is verified for whatever it returns or raises. *)
Variable format : str -> list (str * str) -> Py str.

(** The [try]/[except] of the loop body. *)
Definition render (txt : str) (repl : list (str * str)) : Py str :=
  try_except (format txt repl) (fun _ => Ok (replace_all txt repl)).

Definition render_part (repl : list (str * str)) (p : part) : Py str :=
  txt <- render (or_empty (text p)) repl ;;
  Ok (strip txt).

Definition build_master_prompt
    (prompts_col : list part) (user : ItineraryRequest) : Py str :=
  let parts := get_prompt_parts prompts_col in
  match parts with
  | [] => Raise no_parts
  | _ :: _ =>
    merged_texts <- mapM (render_part (replacements user)) parts ;;
    Ok (join blank_line merged_texts)
  end.

End Merger.

(** A formatter for templates whose replacement fields are plain names:
    doubled braces are escapes, a field is looked up among the keyword
    arguments, an empty or numeric field asks for a positional argument that
    is not there.  Conversions, format specifications, attributes and indices
    are not covered by this instance. *)
Definition isdigit (c : char) : bool := (48 <=? c) && (c <=? 57).

Definition lookup_kw (k : str) (kw : list (str * str)) : Py str :=
  match List.find (fun kv => eqs (fst kv) k) kw with
  | Some kv => Ok (snd kv)
  | None => if forallb isdigit k then Raise IndexError else Raise (KeyError k)
  end.

Fixpoint format_go (kw : list (str * str)) (field : option str) (s : str)
  : Py str :=
  match s with
  | [] =>
    match field with
    | None => Ok []
    | Some _ => Raise (ValueError (u "expected '}' before end of string"))
    end
  | c :: s' =>
    match field with
    | Some acc =>
      if eqc c 125 then
        v <- lookup_kw (rev acc) kw ;;
        rest <- format_go kw None s' ;;
        Ok (v ++ rest)
      else if eqc c 123 then
        Raise (ValueError (u "unexpected '{' in field name"))
      else format_go kw (Some (c :: acc)) s'
    | None =>
      if eqc c 123 then
        match s' with
        | d :: s'' =>
          if eqc d 123 then rest <- format_go kw None s'' ;; Ok (123 :: rest)
          else format_go kw (Some []) s'
        | [] => Raise (ValueError (u "Single '{' encountered in format string"))
        end
      else if eqc c 125 then
        match s' with
        | d :: s'' =>
          if eqc d 125 then rest <- format_go kw None s'' ;; Ok (125 :: rest)
          else Raise (ValueError (u "Single '}' encountered in format string"))
        | [] => Raise (ValueError (u "Single '}' encountered in format string"))
        end
      else rest <- format_go kw None s' ;; Ok (c :: rest)
    end
  end.

Definition format_plain (txt : str) (kw : list (str * str)) : Py str :=
  format_go kw None txt.

End Prompt.

(** ** Regular-expression matching, as far as the patterns of the source go *)

Module Re.

(** The longest prefix of [s] whose characters satisfy [p], and the rest: a
    greedy starred character class. *)
Fixpoint span (p : char -> bool) (s : str) : str * str :=
  match s with
  | c :: s' =>
    if p c then let (a, b) := span p s' in (c :: a, b) else ([], s)
  | [] => ([], [])
  end.

(** [[a-zA-Z_]] and [[a-zA-Z0-9_]] *)
Definition ident_start (c : char) : bool :=
  ((65 <=? c) && (c <=? 90)) || ((97 <=? c) && (c <=? 122)) || (c =? 95).

Definition ident_char (c : char) : bool :=
  ident_start c || ((48 <=? c) && (c <=? 57)).

Definition comma : char := 44.
Definition colon : char := 58.
Definition dquote : char := 34.

(** A match of the bare-key pattern at the head of [s]: an opening brace or a
    comma and white space (group 1), a letter or underscore and then letters,
    digits and underscores (group 2), white space and a colon (group 3).  The
    result is the three groups and the text after the match.  Each starred class is
    followed by a character outside it, so the greedy choice is the only
    one. *)
Definition match_key (s : str) : option (str * str * str * str) :=
  match s with
  | c :: s1 =>
    if eqc c Locator.lbrace || eqc c comma then
      let (ws1, s2) := span isspace s1 in
      match s2 with
      | d :: s3 =>
        if ident_start d then
          let (name, s4) := span ident_char s3 in
          let (ws2, s5) := span isspace s4 in
          match s5 with
          | e :: s6 =>
            if eqc e colon
            then Some (c :: ws1, d :: name, ws2 ++ [e], s6)
            else None
          | [] => None
          end
        else None
      | [] => None
      end
    else None
  | [] => None
  end.

(** A match of [,\s*([}\]])] at the head of [s]: group 1 and the rest. *)
Definition match_trailing (s : str) : option (char * str) :=
  match s with
  | c :: s1 =>
    if eqc c comma then
      let (_, s2) := span isspace s1 in
      match s2 with
      | d :: s3 => if Locator.is_close d then Some (d, s3) else None
      | [] => None
      end
    else None
  | [] => None
  end.

(** [re.sub] with the first pattern and its replacement function: the
    matches are found left to right and do not overlap.  The fuel is the
    length of the text, which is enough: see [sub_key_fuel]. *)
Fixpoint sub_key (fuel : nat) (s : str) : str :=
  match fuel with
  | O => s
  | S fuel' =>
    match s with
    | [] => []
    | c :: s' =>
      match match_key s with
      | Some (g1, g2, g3, rest) =>
        g1 ++ [dquote] ++ g2 ++ [dquote] ++ g3 ++ sub_key fuel' rest
      | None => c :: sub_key fuel' s'
      end
    end
  end.

(** [re.sub] with the second pattern and the replacement [\1]; the fuel is
    enough by [sub_trailing_fuel]. *)
Fixpoint sub_trailing (fuel : nat) (s : str) : str :=
  match fuel with
  | O => s
  | S fuel' =>
    match s with
    | [] => []
    | c :: s' =>
      match match_trailing s with
      | Some (g1, rest) => g1 :: sub_trailing fuel' rest
      | None => c :: sub_trailing fuel' s'
      end
    end
  end.

(** The longest prefix of [s] that ends with a closing brace: greedy [.*]
    followed by [\}], with [re.DOTALL]. *)
Fixpoint dotstar_rbrace (s : str) : option str :=
  match s with
  | [] => None
  | c :: s' =>
    match dotstar_rbrace s' with
    | Some m => Some (c :: m)
    | None => if eqc c Locator.rbrace then Some [c] else None
    end
  end.

(** [re.search(r'\{.*\}', s, re.DOTALL)]: group 0 of the leftmost match. *)
Fixpoint search_object (s : str) : option str :=
  match s with
  | [] => None
  | c :: s' =>
    if eqc c Locator.lbrace then
      match dotstar_rbrace s' with
      | Some m => Some (c :: m)
      | None => search_object s'
      end
    else search_object s'
  end.

(** [\}\s*\]] at the head of [s]. *)
Definition match_array_end (s : str) : option str :=
  match s with
  | c :: s1 =>
    if eqc c Locator.rbrace then
      let (ws, s2) := span isspace s1 in
      match s2 with
      | d :: _ => if eqc d Locator.rbracket then Some (c :: ws ++ [d]) else None
      | [] => None
      end
    else None
  | [] => None
  end.

(** The longest prefix of [s] matching [.*\}\s*\]]. *)
Fixpoint dotstar_array_end (s : str) : option str :=
  match s with
  | [] => None
  | c :: s' =>
    match dotstar_array_end s' with
    | Some m => Some (c :: m)
    | None => match_array_end s
    end
  end.

(** [\[\s*\{.*\}\s*\]] at the head of [s]. *)
Definition match_array (s : str) : option str :=
  match s with
  | c :: s1 =>
    if eqc c Locator.lbracket then
      let (ws, s2) := span isspace s1 in
      match s2 with
      | d :: s3 =>
        if eqc d Locator.lbrace then
          match dotstar_array_end s3 with
          | Some m => Some (c :: ws ++ d :: m)
          | None => None
          end
        else None
      | [] => None
      end
    else None
  | [] => None
  end.

(** [re.search(r'(\[\s*\{.*\}\s*\])', s, re.DOTALL)]: group 1 of the
    leftmost match. *)
Fixpoint search_array (s : str) : option str :=
  match s with
  | [] => None
  | _ :: s' =>
    match match_array s with
    | Some m => Some m
    | None => search_array s'
    end
  end.

End Re.

(** ** The Malformed-Syntax Repair: [fix_json] *)

Definition fix_json (json_str : str) : str :=
  let fixed := Re.sub_key (length json_str) json_str in
  Re.sub_trailing (length fixed) fixed.

(** ** The extraction block of [generate_itinerary] *)

Module Selection.

Definition starts_with_brace (json_text : str) : bool :=
  startswith (strip json_text) [Locator.lbrace].

(** From [json_text = extract_json_from_model_output(raw)] to the text that
    is handed to [json.loads]. *)
Definition candidate_text (raw : str) : str :=
  let json_text := Locator.extract_json_from_model_output raw in
  let json_text :=
    if negb (starts_with_brace json_text) then
      match Re.search_object raw with
      | Some m => m
      | None => json_text
      end
    else json_text in
  let json_text :=
    if negb (starts_with_brace json_text) then
      match Re.search_array raw with
      | Some m => js "{'days': " ++ m ++ u "}"
      | None => json_text
      end
    else json_text in
  json_text.

End Selection.

(** ** Specification-side definitions and the inputs of the examples *)

Module Examples.

Import Prompt.

(** A fenced reply wrapped in prose. *)
Definition fenced_reply : str :=
  u "here is json ```json" ++ nl ++ js "{'a':[1,{'b':2}]}" ++ nl
    ++ u "```" ++ nl ++ u "thanks".

(** A reply cut off in the middle of an object. *)
Definition truncated_reply : str := js "{'a': [1, 2".

(** A request whose optional scalars are explicit nulls. *)
Definition null_request : ItineraryRequest := {|
  from_location := u "Paris";
  specific_places := None;
  categories := Some [u "art"; u "food"];
  days := 3;
  currency := u "EUR";
  budget := None;
  intent := None;
  group := None;
  stay := None;
  notes := None
|}.

Definition parts_312 : list part := [
  {| part_id := 3; title := u "refine"; text := Some (u " third for {from_location} ") |};
  {| part_id := 1; title := u "core"; text := Some (u "first: {days} days") |};
  {| part_id := 2; title := u "tips"; text := Some (u "second {{literal}}") |} ].

(** A template with a stray brace and an unknown placeholder. *)
Definition stray_template : str := u "Plan {days} days, keep {this} and { that".

Definition plain_template : str := u "no { known } placeholder {here}".

(** A template with one closing brace too many, and a request whose origin
    ends in an opening brace and the name of a later key. *)
Definition cascade_template : str := u "From {from_location}} in {days} days".

Definition cascade_request : ItineraryRequest := {|
  from_location := u "{days";
  specific_places := None;
  categories := None;
  days := 3;
  currency := u "EUR";
  budget := Some (u "low");
  intent := None;
  group := None;
  stay := None;
  notes := None
|}.

End Examples.

(** A name without braces. *)
Definition is_brace (c : char) : bool :=
  eqc c Locator.lbrace || eqc c Locator.rbrace.

Definition brace_free (s : str) : bool := forallb (fun c => negb (is_brace c)) s.

(** The keys of the replacements have no braces and differ from [name]. *)
Definition unmatched (name : str) (repl : list (str * str)) : bool :=
  forallb (fun kv => brace_free (fst kv) && negb (eqs (fst kv) name)) repl.

(** The value stored under [k] in the replacements. *)
Definition value_of (k : str) (repl : list (str * str)) : option str :=
  option_map snd (List.find (fun kv => eqs (fst kv) k) repl).

(** What [render] yields, as a total function of what the formatter does. *)
Definition rendered (format : str -> list (str * str) -> Py str)
    (txt : str) (repl : list (str * str)) : str :=
  match format txt repl with
  | Ok s => s
  | Raise _ => Prompt.replace_all txt repl
  end.

Definition by_part_id (p q : Prompt.part) : Prop :=
  (Prompt.part_id p <= Prompt.part_id q)%Z.

(** An activity carries a non-empty map link that starts with the canonical
    prefix. *)
Definition well_linked (activity : json) : Prop :=
  exists link,
    getitem activity Normalizer.k_map_link = Ok (JStr link)
    /\ link <> [] /\ startswith link Url.maps_prefix = true.

(** The map link of an activity is missing, empty, or does not begin with
    the canonical prefix. *)
Definition needs_link (fields : dict) : bool :=
  match lookup Normalizer.k_map_link fields with
  | None => true
  | Some v =>
    negb (truthy v)
    || negb (match v with JStr s => startswith s Url.maps_prefix | _ => false end)
  end.

(** The map link of an activity, when there is one, is a string or a value
    that counts as false. *)
Definition map_link_typed (fields : dict) : bool :=
  match lookup Normalizer.k_map_link fields with
  | None => true
  | Some (JStr _) => true
  | Some v => negb (truthy v)
  end.

(** A string that UTF-8 can encode: code points of the Unicode range that
    are not surrogates. *)
Definition encodable (s : str) : bool :=
  forallb (fun c => (c <? 55296) || ((57343 <? c) && (c <? 1114112))) s.

(** The days of a day plan are well linked when every item its activities
    yield is. *)
Definition day_well_linked (day : json) : Prop :=
  exists acts items,
    getitem day Normalizer.k_activities = Ok acts
    /\ py_iter acts = Ok items
    /\ Forall well_linked items.

(** The dictionary of a day once a missing list of activities is put in. *)
Definition with_activities (d : dict) : dict :=
  match lookup Normalizer.k_activities d with
  | Some _ => d
  | None => assign Normalizer.k_activities (JArr []) d
  end.

Module Itineraries.

Import Normalizer.

Definition eiffel : json := JObj [(k_title, JStr (u "Eiffel Tower"))].

Definition eiffel_linked : json :=
  JObj [(k_title, JStr (u "Eiffel Tower"));
        (k_map_link,
         JStr (u "https://www.google.com/maps/search/?api=1&query=Eiffel+Tower"))].

Definition louvre : json :=
  JObj [(k_title, JStr (u "Louvre"));
        (k_map_link, JStr (u "https://www.google.com/maps/place/Louvre"))].

(** One day with a linked and an unlinked activity, one day without
    activities. *)
Definition two_days : json :=
  JObj [(k_days,
         JArr [JObj [(k_day, JInt 1); (k_activities, JArr [eiffel; louvre])];
               JObj [(k_day, JInt 2)]])].


Definition days_is_text : json := JObj [(k_days, JStr (u "soon"))].



End Itineraries.

Module Replies.

(** An object followed by prose that holds a closing brace. *)
Definition object_then_brace : str := js "{'a':[1,2]} trailing } x".

(** A top-level array of objects. *)
Definition array_of_days : str := js "[{'day':1}]".

(** A top-level array of numbers. *)
Definition array_of_numbers : str := u "[1, 2]".

End Replies.

(** ** JSON text

    The texts that [json.loads] accepts, as syntax trees that keep the white
    space: RFC 8259 values, and the constants NaN, Infinity and -Infinity.
    [print] gives the text of a tree; a valid JSON text is the print of a
    well-formed tree. *)

Module JsonText.

Definition json_ws (c : char) : bool :=
  (c =? 32) || (c =? 9) || (c =? 10) || (c =? 13).

Definition digit (c : char) : bool := (48 <=? c) && (c <=? 57).

Definition hexdigit (c : char) : bool :=
  digit c || ((65 <=? c) && (c <=? 70)) || ((97 <=? c) && (c <=? 102)).

(** One or more digits; the rest of the text. *)
Definition digits1 (s : str) : option str :=
  match Re.span digit s with
  | ([], _) => None
  | (_, r) => Some r
  end.

Definition number_exp (s : str) : bool :=
  match s with
  | [] => true
  | e :: r =>
    ((e =? 101) || (e =? 69))
    && match digits1 (match r with
                      | c :: r' => if (c =? 43) || (c =? 45) then r' else r
                      | [] => r
                      end) with
       | Some [] => true
       | _ => false
       end
  end.

Definition number_frac (s : str) : bool :=
  match s with
  | c :: r =>
    if c =? 46
    then match digits1 r with Some r' => number_exp r' | None => false end
    else number_exp s
  | [] => true
  end.

Definition number_int (s : str) : bool :=
  match s with
  | d :: r =>
    if d =? 48 then number_frac r
    else if digit d then number_frac (snd (Re.span digit r))
    else false
  | [] => false
  end.

Definition number_shape (s : str) : bool :=
  match s with
  | c :: r => if c =? 45 then number_int r else number_int s
  | [] => false
  end.

Definition number_char (c : char) : bool :=
  digit c || (c =? 45) || (c =? 43) || (c =? 46) || (c =? 101) || (c =? 69).

(** A number: its shape, and (implied by the shape) its alphabet. *)
Definition is_number (s : str) : bool :=
  forallb number_char s && number_shape s.

Definition literals : list str :=
  [u "true"; u "false"; u "null"; u "NaN"; u "Infinity"; u "-Infinity"].

Definition wf_token (tok : str) : bool :=
  existsb (eqs tok) literals || is_number tok.

(** The inside of a string literal: plain characters, two-character escapes
    and four-digit code-point escapes. *)
Fixpoint wf_body (s : str) : bool :=
  match s with
  | [] => true
  | c :: r =>
    if c =? 92 then
      match r with
      | e :: r' =>
        if existsb (N.eqb e) [34; 92; 47; 98; 102; 110; 114; 116]
        then wf_body r'
        else if e =? 117 then
          match r' with
          | h1 :: h2 :: h3 :: h4 :: r'' =>
            hexdigit h1 && hexdigit h2 && hexdigit h3 && hexdigit h4
            && wf_body r''
          | _ => false
          end
        else false
      | [] => false
      end
    else negb (c =? 34) && (32 <=? c) && wf_body r
  end.

Inductive cst : Type :=
| CLit (tok : str)
| CStr (body : str)
| CEmptyArr (ws : str)
| CArr (w1 : str) (v : cst) (w2 : str) (more : items)
| CEmptyObj (ws : str)
| CObj (w1 key w2 w3 : str) (v : cst) (w4 : str) (more : members)
with items : Type :=
| INil
| ICons (w1 : str) (v : cst) (w2 : str) (more : items)
with members : Type :=
| MNil
| MCons (w1 key w2 w3 : str) (v : cst) (w4 : str) (more : members).

Scheme cst_mind := Induction for cst Sort Prop
  with items_mind := Induction for items Sort Prop
  with members_mind := Induction for members Sort Prop.
Combined Scheme cst_mutind from cst_mind, items_mind, members_mind.

Definition quoted (body : str) : str := Re.dquote :: body ++ [Re.dquote].

Fixpoint print (t : cst) : str :=
  match t with
  | CLit tok => tok
  | CStr body => quoted body
  | CEmptyArr ws => Locator.lbracket :: ws ++ [Locator.rbracket]
  | CArr w1 v w2 more =>
    Locator.lbracket :: w1 ++ print v ++ w2 ++ print_items more
      ++ [Locator.rbracket]
  | CEmptyObj ws => Locator.lbrace :: ws ++ [Locator.rbrace]
  | CObj w1 key w2 w3 v w4 more =>
    Locator.lbrace :: w1 ++ quoted key ++ w2 ++ Re.colon :: w3 ++ print v ++ w4
      ++ print_members more ++ [Locator.rbrace]
  end
with print_items (l : items) : str :=
  match l with
  | INil => []
  | ICons w1 v w2 more => Re.comma :: w1 ++ print v ++ w2 ++ print_items more
  end
with print_members (m : members) : str :=
  match m with
  | MNil => []
  | MCons w1 key w2 w3 v w4 more =>
    Re.comma :: w1 ++ quoted key ++ w2 ++ Re.colon :: w3 ++ print v ++ w4
      ++ print_members more
  end.

Definition wf_ws (w : str) : bool := forallb json_ws w.

Fixpoint wf (t : cst) : bool :=
  match t with
  | CLit tok => wf_token tok
  | CStr body => wf_body body
  | CEmptyArr ws => wf_ws ws
  | CArr w1 v w2 more => wf_ws w1 && wf v && wf_ws w2 && wf_items more
  | CEmptyObj ws => wf_ws ws
  | CObj w1 key w2 w3 v w4 more =>
    wf_ws w1 && wf_body key && wf_ws w2 && wf_ws w3 && wf v && wf_ws w4
    && wf_members more
  end
with wf_items (l : items) : bool :=
  match l with
  | INil => true
  | ICons w1 v w2 more => wf_ws w1 && wf v && wf_ws w2 && wf_items more
  end
with wf_members (m : members) : bool :=
  match m with
  | MNil => true
  | MCons w1 key w2 w3 v w4 more =>
    wf_ws w1 && wf_body key && wf_ws w2 && wf_ws w3 && wf v && wf_ws w4
    && wf_members more
  end.

(** A character at which no match can start. *)
Definition plain (c : char) : bool :=
  negb (eqc c Locator.lbrace || eqc c Re.comma).

(** A greedy class [p] cannot go on into [s]. *)
Definition stops (p : char -> bool) (s : str) : bool :=
  match s with
  | [] => true
  | x :: _ => negb (p x)
  end.

(** What follows an item of an array: a comma or the closing bracket. *)
Definition closes (s : str) : bool :=
  match s with
  | c :: _ => eqc c Re.comma || eqc c Locator.rbracket
  | [] => false
  end.

(** Neither pattern of [fix_json] matches at the head of [s]. *)
Definition no_match (s : str) : bool :=
  match Re.match_key s, Re.match_trailing s with
  | None, None => true
  | _, _ => false
  end.

(** No match starts inside [t] when [rest] follows it. *)
Fixpoint pattern_free_before (rest t : str) : bool :=
  match t with
  | [] => true
  | _ :: t' => no_match (t ++ rest) && pattern_free_before rest t'
  end.

(** The text [s] contains neither pattern. *)
Definition pattern_free (s : str) : bool := pattern_free_before [] s.

(** No string literal of the tree, key or value, contains a pattern. *)
Fixpoint quiet_strings (t : cst) : bool :=
  match t with
  | CLit _ => true
  | CStr body => pattern_free body
  | CEmptyArr _ => true
  | CArr _ v _ more => quiet_strings v && quiet_items more
  | CEmptyObj _ => true
  | CObj _ key _ _ v _ more =>
    pattern_free key && quiet_strings v && quiet_members more
  end
with quiet_items (l : items) : bool :=
  match l with
  | INil => true
  | ICons _ v _ more => quiet_strings v && quiet_items more
  end
with quiet_members (m : members) : bool :=
  match m with
  | MNil => true
  | MCons _ key _ _ v _ more =>
    pattern_free key && quiet_strings v && quiet_members more
  end.

(** A document: a value between white space. *)
Record document : Type := {
  lead : str;
  value : cst;
  trail : str
}.

Definition print_document (d : document) : str :=
  lead d ++ print (value d) ++ trail d.

Definition wf_document (d : document) : bool :=
  wf_ws (lead d) && wf (value d) && wf_ws (trail d).

(** An object whose string value holds a comma, a word and a colon. *)
Definition note_document : document := {|
  lead := [];
  value := CObj [] (u "a") [] (u " ") (CStr (u "x, note: see map")) [] MNil;
  trail := []
|}.

(** The days of an itinerary, spread over lines. *)
Definition days_document : document := {|
  lead := u " ";
  value :=
    CObj nl (u "days") [] (u " ")
      (CArr [] (CObj [] (u "day") [] (u " ") (CLit (u "1")) []
                  (MCons (u " ") (u "ok") [] (u " ") (CLit (u "true")) (u " ")
                     (MCons (u " ") (u "at") [] (u " ") (CStr (u "10:00, noon")) [] MNil)))
            []
            (ICons (u " ") (CLit (u "null")) []
               (ICons (u " ") (CLit (u "-1.5e3")) (u " ") INil)))
      nl MNil;
  trail := nl
|}.

End JsonText.

(** ** Further specification-side definitions *)

(** [a] occurs in [b] as one contiguous piece. *)
Definition infix (a b : str) : Prop := exists pre post, b = pre ++ a ++ post.

(** The numbers of opening and of closing delimiters in a text. *)
Definition opens (s : str) : nat := length (filter Locator.is_open s).
Definition closes (s : str) : nat := length (filter Locator.is_close s).

(** Two characters are of the same kind for the scan of the locator. *)
Definition same_kind (a b : char) : Prop :=
  Locator.is_open a = Locator.is_open b
  /\ Locator.is_close a = Locator.is_close b.

(** The encoding of one code point by [quote_plus]: a plus sign for a space,
    else the quoted bytes of its UTF-8 form. *)
Definition quote_plus_char (c : char) : Py str :=
  if c =? 32 then Ok [43]
  else bs <- Url.utf8_char c ;; Ok (concat (map (Url.quoter []) bs)).

(** Characters that stand for themselves in a query string, the plus sign
    and the percent sign. *)
Definition url_safe (c : char) : bool :=
  Url.always_safe c || (c =? 43) || (c =? 37).

(** [s.replace(a, b)] for one-character [a] and [b], character by
    character. *)
Definition subst_char (a b : char) (s : str) : str :=
  map (fun c => if eqc c a then b else c) s.

(** The replies that the normalizer accepts, read off its checks. *)
Module Accept.

Import Normalizer.

(** An activity is an object; its link, if there is one, is a string or
    counts as false; and when a link has to be made, the title is a string
    that can be encoded. *)
Definition activity (a : json) : bool :=
  match a with
  | JObj fields =>
    map_link_typed fields
    && (if needs_link fields
        then match lookup k_title fields with
             | Some (JStr title) => encodable title
             | _ => false
             end
        else true)
  | _ => false
  end.

(** The activities of a day are a list of accepted activities, or an empty
    object or string, over which the loop does not run. *)
Definition activities (acts : json) : bool :=
  match acts with
  | JArr l => forallb activity l
  | JObj [] => true
  | JStr [] => true
  | _ => false
  end.

(** A day is an object with a [day]; its activities, if there are any, are
    accepted. *)
Definition day (x : json) : bool :=
  match x with
  | JObj fields =>
    match lookup k_day fields with
    | Some _ =>
      match lookup k_activities fields with
      | Some acts => activities acts
      | None => true
      end
    | None => false
    end
  | _ => false
  end.

(** The reply is an array of accepted days, or an object whose [days] is
    one. *)
Definition reply (data : json) : bool :=
  match data with
  | JArr l => forallb day l
  | JObj fields =>
    match lookup k_days fields with
    | Some (JArr l) => forallb day l
    | _ => false
    end
  | _ => false
  end.

End Accept.

(** Every field of the object [a] but [k] has the same value in [b]. *)
Definition fields_kept (k : str) (a b : json) : Prop :=
  exists d d',
    a = JObj d /\ b = JObj d'
    /\ forall k', eqs k k' = false -> lookup k' d' = lookup k' d.

(** The list of activities of a day; empty when there is none. *)
Definition activities_of (day : json) : list json :=
  match day with
  | JObj d =>
    match lookup Normalizer.k_activities d with
    | Some (JArr l) => l
    | _ => []
    end
  | _ => []
  end.

(** The list of days of a reply. *)
Definition days_of (data : json) : list json :=
  match data with
  | JArr l => l
  | JObj d =>
    match lookup Normalizer.k_days d with
    | Some (JArr l) => l
    | _ => []
    end
  | _ => []
  end.

(** The characters that [fix_json] may add or drop: double quotes, commas
    and white space.  [kept c] holds for every other character. *)
Definition kept (c : char) : bool :=
  negb (eqc c Re.dquote || eqc c Re.comma || isspace c).

(** A bare key: a letter or underscore, then letters, digits and
    underscores. *)
Definition identifier (name : str) : bool :=
  match name with
  | h :: t => Re.ident_start h && forallb Re.ident_char t
  | [] => false
  end.

(** White space only. *)
Definition blank (w : str) : bool := forallb isspace w.

(** No white space at either end. *)
Definition tight (s : str) : bool :=
  JsonText.stops isspace s && JsonText.stops isspace (rev s).

Definition backquote : char := 96.

Definition no_backquote (s : str) : bool :=
  forallb (fun c => negb (eqc c backquote)) s.

(** A reply that is [core] between white space, bare or inside a code fence
    with or without the [json] tag. *)
Inductive framed (core : str) : str -> Prop :=
| framed_bare (w1 w2 : str) :
    blank w1 = true -> blank w2 = true -> framed core (w1 ++ core ++ w2)
| framed_json (w1 w2 : str) :
    blank w1 = true -> blank w2 = true ->
    framed core (u "```json" ++ w1 ++ core ++ w2 ++ u "```")
| framed_plain (w1 w2 : str) :
    w1 <> [] -> blank w1 = true -> blank w2 = true ->
    framed core (u "```" ++ w1 ++ core ++ w2 ++ u "```").

(** No brace and no bracket. *)
Definition inert (s : str) : bool :=
  forallb (fun c => negb (Locator.is_open c || Locator.is_close c)) s.

(** The scan of the locator, inside at least one open delimiter, runs
    over [s] and comes out at the depth it went in with. *)
Definition passes (s : str) : Prop :=
  forall (k : Z) (stack : list char) (i : Z) (rest : str),
    stack <> [] ->
    Locator.scan k stack i (s ++ rest)
    = Locator.scan k stack (i + Z.of_nat (length s))%Z rest.

Module JsonShape.

Import JsonText.

(** The only braces and brackets of the text of the tree are those of its
    objects and arrays: tokens, strings, keys and white space have none. *)
Fixpoint flat (t : cst) : bool :=
  match t with
  | CLit tok => inert tok
  | CStr body => inert body
  | CEmptyArr ws => inert ws
  | CArr w1 v w2 more => inert w1 && flat v && inert w2 && flat_items more
  | CEmptyObj ws => inert ws
  | CObj w1 key w2 w3 v w4 more =>
    inert w1 && inert key && inert w2 && inert w3 && flat v && inert w4
    && flat_members more
  end
with flat_items (l : items) : bool :=
  match l with
  | INil => true
  | ICons w1 v w2 more => inert w1 && flat v && inert w2 && flat_items more
  end
with flat_members (m : members) : bool :=
  match m with
  | MNil => true
  | MCons w1 key w2 w3 v w4 more =>
    inert w1 && inert key && inert w2 && inert w3 && flat v && inert w4
    && flat_members more
  end.

Definition is_object (t : cst) : bool :=
  match t with
  | CEmptyObj _ | CObj _ _ _ _ _ _ _ => true
  | _ => false
  end.

Definition is_array (t : cst) : bool :=
  match t with
  | CEmptyArr _ | CArr _ _ _ _ => true
  | _ => false
  end.

End JsonShape.

(** The opening delimiter of the other kind of container. *)
Definition other_opener (v : JsonText.cst) : char :=
  if JsonShape.is_object v then Locator.lbracket else Locator.lbrace.

(** The example itinerary after normalization: the activity without a
    link has got one, the one with a map link has kept it, and the day
    without activities has an empty list. *)
Module Normalized.

Import Normalizer.

Definition two_days_linked : json :=
  JObj [(k_days,
         JArr [JObj [(k_day, JInt 1);
                     (k_activities,
                      JArr [Itineraries.eiffel_linked; Itineraries.louvre])];
               JObj [(k_day, JInt 2); (k_activities, JArr [])]])].

End Normalized.

(** * Verification *)

Local Open Scope nat_scope.

(** ** Strings *)

Lemma eqc_eq (a b : char) : eqc a b = true <-> a = b.
Proof. unfold eqc. apply N.eqb_eq. Qed.

Lemma eqc_refl (a : char) : eqc a a = true.
Proof. apply eqc_eq. reflexivity. Qed.

Lemma eqs_eq (a b : str) : eqs a b = true <-> a = b.
Proof.
  revert b. induction a as [|x a IH]; intros [|y b]; simpl;
    try (split; [discriminate | discriminate]); try tauto.
  rewrite andb_true_iff, eqc_eq, IH. split.
  - intros [-> ->]. reflexivity.
  - intros H. injection H as -> ->. auto.
Qed.

Lemma eqs_refl (k : str) : eqs k k = true.
Proof. apply eqs_eq. reflexivity. Qed.

Lemma startswith_app (s p : str) :
  startswith s p = true -> s = p ++ skipn (length p) s.
Proof.
  revert s. induction p as [|x p IH]; intros s H; simpl in *.
  - reflexivity.
  - destruct s as [|c s]; [discriminate|].
    apply andb_true_iff in H. destruct H as [Hc Hs].
    apply eqc_eq in Hc. subst c. simpl. f_equal. apply IH, Hs.
Qed.

Lemma startswith_prefix (p r : str) : startswith (p ++ r) p = true.
Proof.
  induction p as [|x p IH]; simpl; [reflexivity|].
  rewrite eqc_refl, IH. reflexivity.
Qed.

Lemma contains_head (s p : str) :
  contains s p = false -> startswith s p = false.
Proof.
  destruct s; simpl; intros H; apply orb_false_iff in H; tauto.
Qed.

Lemma contains_tail (c : char) (s p : str) :
  contains (c :: s) p = false -> contains s p = false.
Proof. simpl. intros H. apply orb_false_iff in H. tauto. Qed.

(** ** [str.replace] *)

Lemma replace_go_absent (old new : str) (fuel : nat) (s : str) :
  contains s old = false -> replace_go fuel old new s = s.
Proof.
  revert s. induction fuel as [|fuel IH]; intros s H; simpl; [reflexivity|].
  destruct s as [|c s]; [reflexivity|].
  rewrite (contains_head _ _ H). f_equal. apply IH.
  exact (contains_tail _ _ _ H).
Qed.

Lemma replace_absent (s old new : str) :
  contains s old = false -> replace s old new = s.
Proof.
  intros H. unfold replace. destruct old; [destruct s; discriminate|].
  apply replace_go_absent, H.
Qed.

Lemma join_cons (sep x : str) (l : list str) :
  l <> [] -> join sep (x :: l) = x ++ sep ++ join sep l.
Proof. destruct l; [congruence | reflexivity]. Qed.

Lemma join_cons_head (sep : str) (c : char) (x : str) (l : list str) :
  join sep ((c :: x) :: l) = c :: join sep (x :: l).
Proof. destruct l; reflexivity. Qed.

(** Replacing cuts the text at the occurrences of [old] and glues the same
    pieces back with [new]: nothing but the occurrences is touched. *)
Lemma replace_go_segments (old new : str) (fuel : nat) (s : str) :
  old <> [] -> length s <= fuel ->
  exists segs, segs <> [] /\ s = join old segs
               /\ replace_go fuel old new s = join new segs.
Proof.
  intros Hold. revert s.
  induction fuel as [|fuel IH]; intros s Hlen.
  - destruct s; [|simpl in Hlen; lia].
    exists [[]]. repeat split; congruence.
  - destruct s as [|c s'].
    + exists [[]]. repeat split; congruence.
    + simpl replace_go. destruct (startswith (c :: s') old) eqn:Hsw.
      * pose proof (startswith_app _ _ Hsw) as Hs.
        destruct (IH (skipn (length old) (c :: s'))) as (segs & Hne & H1 & H2).
        { destruct old as [|o old']; [congruence|].
          simpl. rewrite length_skipn. simpl in Hlen. lia. }
        exists ([] :: segs). split; [congruence|].
        rewrite !join_cons by assumption. simpl. split.
        -- rewrite <- H1. exact Hs.
        -- rewrite H2. reflexivity.
      * destruct (IH s') as (segs & Hne & H1 & H2); [simpl in Hlen; lia|].
        destruct segs as [|x segs]; [congruence|].
        exists ((c :: x) :: segs). split; [congruence|].
        rewrite !join_cons_head. split; congruence.
Qed.

Lemma replace_segments (s old new : str) :
  old <> [] ->
  exists segs, segs <> [] /\ s = join old segs /\ replace s old new = join new segs.
Proof.
  intros Hold. unfold replace. destruct old as [|o old']; [congruence|].
  apply replace_go_segments; [congruence | lia].
Qed.

(** The fuel of [replace] never runs out: any fuel that covers the length
    of the text gives the same result. *)
Lemma replace_go_fuel (old new : str) (n m : nat) (s : str) :
  old <> [] -> length s <= n -> length s <= m ->
  replace_go n old new s = replace_go m old new s.
Proof.
  intros Hold. revert m s.
  induction n as [|n IH]; intros m s Hn Hm.
  - destruct s; [|simpl in Hn; lia]. destruct m; reflexivity.
  - destruct s as [|c s']; [destruct m; reflexivity|].
    destruct m as [|m]; [simpl in Hm; lia|]. simpl.
    destruct (startswith (c :: s') old).
    + f_equal. destruct old as [|o old']; [congruence|].
      apply IH; simpl; rewrite length_skipn; simpl in *; lia.
    + f_equal. apply IH; simpl in *; lia.
Qed.

(** ** Placeholders that survive a replacement

    [{name}] and [{key}] with brace-free, different [name] and [key]: an
    occurrence of the first shares no character with an occurrence of the
    second, so replacing the second leaves the first in the text. *)

Section Braced.

Import Prompt.

Local Arguments eqc : simpl never.

Lemma placeholder_cons (k : str) : placeholder k = 123%N :: k ++ [125%N].
Proof. reflexivity. Qed.

Lemma brace_free_cons (c : char) (s : str) :
  brace_free (c :: s) = true ->
  eqc c 123%N = false /\ eqc c 125%N = false /\ brace_free s = true.
Proof.
  unfold brace_free, is_brace. simpl. intros H.
  apply andb_true_iff in H. destruct H as [Hc Hs].
  apply negb_true_iff, orb_false_iff in Hc. tauto.
Qed.

Lemma brace_free_no_open (s : str) :
  brace_free s = true ->
  forallb (fun c => negb (eqc c 123%N)) (s ++ [125%N]) = true.
Proof.
  induction s as [|c s IH]; intros H; [reflexivity|].
  destruct (brace_free_cons _ _ H) as (Ho & _ & Hs).
  simpl. rewrite Ho. simpl. apply IH, Hs.
Qed.

(** Two braced names at the same place are the same name. *)
Lemma braced_same_start (k name rest : str) :
  brace_free k = true -> brace_free name = true ->
  startswith (k ++ 125%N :: rest) (name ++ [125%N]) = true -> k = name.
Proof.
  revert name. induction k as [|a k IH]; intros [|f name] Hk Hn H.
  - reflexivity.
  - simpl in H. apply andb_true_iff in H. destruct H as [H _].
    apply eqc_eq in H. subst f.
    destruct (brace_free_cons _ _ Hn) as (_ & Hc & _).
    rewrite eqc_refl in Hc. discriminate.
  - simpl in H. apply andb_true_iff in H. destruct H as [H _].
    destruct (brace_free_cons _ _ Hk) as (_ & Hc & _).
    rewrite H in Hc. discriminate.
  - simpl in H. apply andb_true_iff in H. destruct H as [Ha H].
    apply eqc_eq in Ha. subst f.
    destruct (brace_free_cons _ _ Hk) as (_ & _ & Hk').
    destruct (brace_free_cons _ _ Hn) as (_ & _ & Hn').
    f_equal. exact (IH name Hk' Hn' H).
Qed.

Lemma contains_cons (c : char) (s p : str) :
  contains (c :: s) p = startswith (c :: s) p || contains s p.
Proof. reflexivity. Qed.

Lemma contains_app_r (a b p : str) :
  contains b p = true -> contains (a ++ b) p = true.
Proof.
  intros H. induction a as [|x a IH]; [exact H|].
  cbn [app]. rewrite contains_cons, IH. apply orb_true_r.
Qed.

Lemma startswith_open (x : char) (s p : str) :
  eqc x 123%N = false -> startswith (x :: s) (123%N :: p) = false.
Proof. intros H. simpl. rewrite H. reflexivity. Qed.

(** A text that opens with a brace does not start at a character that is
    not an opening brace. *)
Lemma contains_skip (t rest p : str) :
  forallb (fun c => negb (eqc c 123%N)) t = true ->
  contains (t ++ rest) (123%N :: p) = contains rest (123%N :: p).
Proof.
  induction t as [|x t IH]; intros H; [reflexivity|].
  cbn [forallb] in H. apply andb_true_iff in H. destruct H as [Hx Ht].
  apply negb_true_iff in Hx.
  cbn [app]. rewrite contains_cons, (startswith_open _ _ _ Hx). simpl.
  apply IH, Ht.
Qed.

Lemma replace_go_skip (k new t rest : str) (n : nat) :
  forallb (fun c => negb (eqc c 123%N)) t = true ->
  length (t ++ rest) <= n ->
  exists m, length rest <= m
            /\ replace_go n (placeholder k) new (t ++ rest)
               = t ++ replace_go m (placeholder k) new rest.
Proof.
  revert n. induction t as [|x t IH]; intros n H Hn.
  - exists n. split; [exact Hn | reflexivity].
  - cbn [forallb] in H. apply andb_true_iff in H. destruct H as [Hx Ht].
    apply negb_true_iff in Hx.
    destruct n as [|n]; [simpl in Hn; lia|].
    destruct (IH n Ht) as (m & Hm & E); [simpl in Hn; lia|].
    exists m. split; [exact Hm|].
    cbn [app replace_go]. rewrite placeholder_cons at 1.
    rewrite (startswith_open _ _ _ Hx), E. reflexivity.
Qed.

Lemma replace_go_keeps (k name new : str) (n : nat) (s : str) :
  brace_free k = true -> brace_free name = true -> k <> name ->
  length s <= n ->
  contains s (placeholder name) = true ->
  contains (replace_go n (placeholder k) new s) (placeholder name) = true.
Proof.
  intros Hk Hname Hne. revert s.
  induction n as [|n IH]; intros s Hn Hc.
  - destruct s; [discriminate | simpl in Hn; lia].
  - destruct s as [|c s']; [discriminate|].
    cbn [replace_go].
    destruct (startswith (c :: s') (placeholder k)) eqn:Hsk.
    + apply contains_app_r.
      pose proof (startswith_app _ _ Hsk) as Hs.
      set (rest := skipn (length (placeholder k)) (c :: s')) in *.
      apply IH.
      * subst rest. rewrite length_skipn. simpl in *. lia.
      * rewrite Hs, (placeholder_cons k) in Hc. cbn [app] in Hc.
        rewrite contains_cons in Hc.
        apply orb_true_iff in Hc. destruct Hc as [Hc|Hc].
        -- exfalso. apply Hne. rewrite placeholder_cons in Hc.
           cbn [startswith] in Hc. rewrite eqc_refl in Hc. simpl in Hc.
           rewrite <- app_assoc in Hc. cbn [app] in Hc.
           exact (braced_same_start _ _ _ Hk Hname Hc).
        -- rewrite (placeholder_cons name) in Hc |- *.
           rewrite contains_skip in Hc by (apply (brace_free_no_open _ Hk)).
           exact Hc.
    + rewrite contains_cons in Hc.
      destruct (contains s' (placeholder name)) eqn:Hc'.
      * rewrite contains_cons, IH;
          [apply orb_true_r | simpl in Hn; lia | exact Hc'].
      * rewrite orb_false_r in Hc.
        pose proof (startswith_app _ _ Hc) as Hs.
        remember (skipn (length (placeholder name)) (c :: s')) as rest
          eqn:Hrest.
        clear Hrest. rewrite (placeholder_cons name) in Hs. cbn [app] in Hs.
        injection Hs as -> ->.
        destruct (replace_go_skip k new (name ++ [125%N]) rest n
                    (brace_free_no_open _ Hname)) as (m & _ & E).
        { simpl in Hn. lia. }
        rewrite E, contains_cons.
        change (123%N :: (name ++ [125%N]) ++ replace_go m (placeholder k) new rest)
          with (placeholder name ++ replace_go m (placeholder k) new rest).
        rewrite startswith_prefix. reflexivity.
Qed.

Lemma replace_keeps (k name new s : str) :
  brace_free k = true -> brace_free name = true -> k <> name ->
  contains s (placeholder name) = true ->
  contains (replace s (placeholder k) new) (placeholder name) = true.
Proof.
  intros Hk Hname Hne Hc.
  change (replace s (placeholder k) new)
    with (replace_go (length s) (placeholder k) new s).
  apply (replace_go_keeps k name new (length s) s Hk Hname Hne (le_n _) Hc).
Qed.

(** The same through all the replacements of the fallback. *)
Lemma replace_all_keeps (name : str) (repl : list (str * str)) (txt : str) :
  brace_free name = true -> unmatched name repl = true ->
  contains txt (placeholder name) = true ->
  contains (replace_all txt repl) (placeholder name) = true.
Proof.
  intros Hname. unfold replace_all, unmatched. revert txt.
  induction repl as [|[k v] repl IH]; intros txt Hu Hc; [exact Hc|].
  cbn [forallb fold_left fst snd] in *.
  apply andb_true_iff in Hu. destruct Hu as [Hk Hu].
  apply andb_true_iff in Hk. destruct Hk as [Hk Hne].
  apply IH; [exact Hu|]. apply replace_keeps; try assumption.
  intros ->. rewrite eqs_refl in Hne. discriminate.
Qed.

End Braced.

(** ** The Placeholder Substitution Engine *)

Section Substitution.

Import Prompt.

Variable format : str -> list (str * str) -> Py str.

Lemma render_rendered (txt : str) (repl : list (str * str)) :
  render format txt repl = Ok (rendered format txt repl).
Proof.
  unfold render, rendered, try_except.
  destruct (format txt repl); reflexivity.
Qed.

Lemma placeholder_nonempty (k : str) : placeholder k <> [].
Proof. unfold placeholder. simpl. discriminate. Qed.

Lemma replace_all_absent (txt : str) (repl : list (str * str)) :
  forallb (fun kv => negb (contains txt (placeholder (fst kv)))) repl = true ->
  replace_all txt repl = txt.
Proof.
  unfold replace_all. induction repl as [|[k v] repl IH]; intros H.
  - reflexivity.
  - cbn [forallb fold_left fst snd] in *.
    apply andb_true_iff in H. destruct H as [Hk Hrest].
    apply negb_true_iff in Hk. rewrite (replace_absent _ _ _ Hk).
    apply IH, Hrest.
Qed.

(** C7, as amended.  The substitution engine always returns a string:
    whatever the formatter does, [render] does not raise; when the formatter
    raises, the result is the literal replacement of [{key}] by its value for
    every key in mapping order, each applied to the text left by the one
    before; each such replacement only swaps occurrences of the literal
    [{key}] and carries the text between them over unchanged; a template in
    which no [{key}] occurs comes out verbatim; and a placeholder [{name}]
    whose name is no key stays in the output (names and keys without
    braces). *)
Theorem render_never_raises (txt : str) (repl : list (str * str)) :
  (exists s, render format txt repl = Ok s)
  /\ (forall e, format txt repl = Raise e ->
        render format txt repl
        = Ok (fold_left (fun t kv => replace t (u "{" ++ fst kv ++ u "}") (snd kv))
                        repl txt))
  /\ (forall s k v, exists segs,
        segs <> [] /\ s = join (u "{" ++ k ++ u "}") segs
        /\ replace s (u "{" ++ k ++ u "}") v = join v segs)
  /\ (forallb (fun kv => negb (contains txt (u "{" ++ fst kv ++ u "}"))) repl = true ->
        forall e, format txt repl = Raise e -> render format txt repl = Ok txt)
  /\ (forall name e,
        brace_free name = true -> unmatched name repl = true ->
        contains txt (u "{" ++ name ++ u "}") = true ->
        format txt repl = Raise e ->
        exists out, render format txt repl = Ok out
                    /\ contains out (u "{" ++ name ++ u "}") = true).
Proof.
  split; [|split; [|split; [|split]]].
  - eexists. apply render_rendered.
  - intros e He. rewrite render_rendered. unfold rendered. rewrite He.
    reflexivity.
  - intros s k v. apply replace_segments. apply placeholder_nonempty.
  - intros Habs e He. rewrite render_rendered. unfold rendered. rewrite He.
    f_equal. apply replace_all_absent. exact Habs.
  - intros name e Hname Hu Hc He. exists (replace_all txt repl). split.
    + rewrite render_rendered. unfold rendered. rewrite He. reflexivity.
    + exact (replace_all_keeps name repl txt Hname Hu Hc).
Qed.

End Substitution.

(** C7, as stated, fails for a stray brace: the closing brace after the
    first placeholder of the template closes no placeholder of a key, the
    formatter fails, and the brace is gone from the output, used up together
    with the value put in for the first key as the placeholder of a later
    key. *)
Lemma render_uses_up_stray_brace :
  Examples.cascade_template
  = u "From {from_location}" ++ u "}" ++ u " in {days} days"
  /\ forallb (fun kv => negb (endswith (u "From {from_location}}")
                                       (Prompt.placeholder (fst kv))))
             (Prompt.replacements Examples.cascade_request) = true
  /\ Prompt.format_plain Examples.cascade_template
       (Prompt.replacements Examples.cascade_request)
     = Raise (ValueError (u "Single '}' encountered in format string"))
  /\ Prompt.render Prompt.format_plain Examples.cascade_template
       (Prompt.replacements Examples.cascade_request)
     = Ok (u "From 3 in 3 days")
  /\ contains (u "From 3 in 3 days") (u "}") = false.
Proof. repeat split; vm_compute; reflexivity. Qed.

(** The engine on a template with an unknown placeholder and a stray brace:
    the formatter fails, the known key is replaced, the rest stays. *)
Lemma render_never_raises_witness :
  Prompt.format_plain Examples.stray_template
      (Prompt.replacements Examples.null_request)
    = Raise (KeyError (u "this"))
  /\ Prompt.render Prompt.format_plain Examples.stray_template
       (Prompt.replacements Examples.null_request)
     = Ok (u "Plan 3 days, keep {this} and { that")
  /\ Prompt.render Prompt.format_plain Examples.plain_template
       (Prompt.replacements Examples.null_request)
     = Ok Examples.plain_template
  /\ exists out,
       Prompt.render Prompt.format_plain Examples.stray_template
         (Prompt.replacements Examples.null_request) = Ok out
       /\ contains out (u "{this}") = true.
Proof.
  pose proof (render_never_raises Prompt.format_plain Examples.stray_template
                (Prompt.replacements Examples.null_request))
    as (_ & H2 & _ & _ & H5).
  pose proof (render_never_raises Prompt.format_plain Examples.plain_template
                (Prompt.replacements Examples.null_request))
    as (_ & _ & _ & H4 & _).
  split; [vm_compute; reflexivity|]. split; [|split].
  - rewrite (H2 (KeyError (u "this")));
      vm_compute; reflexivity.
  - apply (H4 eq_refl (KeyError (u " known "))). vm_compute. reflexivity.
  - apply (H5 (u "this") (KeyError (u "this")) eq_refl eq_refl eq_refl).
    vm_compute. reflexivity.
Defined.

(** ** The Template Merger *)

Section Merger_facts.

Import Prompt.

Lemma insert_part_perm (p : part) (l : list part) :
  Permutation (p :: l) (insert_part p l).
Proof.
  induction l as [|q l IH]; simpl.
  - apply Permutation_refl.
  - destruct (part_id p <=? part_id q)%Z.
    + apply Permutation_refl.
    + eapply perm_trans; [apply perm_swap|]. apply perm_skip, IH.
Qed.

Lemma get_prompt_parts_perm (col : list part) :
  Permutation col (get_prompt_parts col).
Proof.
  induction col as [|p col IH]; simpl.
  - apply perm_nil.
  - eapply perm_trans; [apply perm_skip, IH|]. apply insert_part_perm.
Qed.

Lemma insert_part_hd (p q : part) (l : list part) :
  by_part_id q p -> HdRel by_part_id q l -> HdRel by_part_id q (insert_part p l).
Proof.
  intros Hqp Hq. destruct l as [|r l]; simpl.
  - constructor. exact Hqp.
  - destruct (part_id p <=? part_id r)%Z; constructor.
    + exact Hqp.
    + inversion Hq. assumption.
Qed.

Lemma insert_part_sorted (p : part) (l : list part) :
  Sorted by_part_id l -> Sorted by_part_id (insert_part p l).
Proof.
  induction l as [|q l IH]; intros Hs; simpl.
  - repeat constructor.
  - destruct (part_id p <=? part_id q)%Z eqn:Hle.
    + constructor; [exact Hs|]. constructor. unfold by_part_id. lia.
    + inversion Hs as [|? ? Hs' Hhd]; subst. constructor.
      * apply IH, Hs'.
      * apply insert_part_hd; [unfold by_part_id; lia | exact Hhd].
Qed.

Lemma get_prompt_parts_sorted (col : list part) :
  StronglySorted by_part_id (get_prompt_parts col).
Proof.
  apply Sorted_StronglySorted.
  - intros a b c Hab Hbc. unfold by_part_id in *. lia.
  - induction col as [|p col IH]; simpl.
    + constructor.
    + apply insert_part_sorted, IH.
Qed.

Lemma mapM_total {A B : Type} (f : A -> Py B) (g : A -> B) (l : list A) :
  (forall a, f a = Ok (g a)) -> mapM f l = Ok (map g l).
Proof.
  intros H. induction l as [|a l IH]; simpl; [reflexivity|].
  rewrite H, IH. reflexivity.
Qed.

Variable format : str -> list (str * str) -> Py str.

(** C8. For a non-empty collection the merger returns the rendered and
    stripped fragments, taken in ascending order of their ordinal (a sorted
    rearrangement of the collection) and joined by one blank line; parts
    stored with ordinals 3, 1, 2 are used in the order 1, 2, 3; for an empty
    collection it raises the no-parts error. *)
Theorem merger_sorts_renders_and_joins
    (prompts_col : list part) (user : ItineraryRequest) :
  (prompts_col <> [] ->
   exists parts,
     Permutation prompts_col parts
     /\ StronglySorted by_part_id parts
     /\ build_master_prompt format prompts_col user
        = Ok (join (nl ++ nl)
                (map (fun p => strip (rendered format (or_empty (text p))
                                        (replacements user)))
                     parts)))
  /\ build_master_prompt format [] user = Raise no_parts
  /\ map part_id (get_prompt_parts Examples.parts_312) = [1; 2; 3]%Z.
Proof.
  split; [|split; reflexivity].
  intros Hne. exists (get_prompt_parts prompts_col).
  split; [apply get_prompt_parts_perm|].
  split; [apply get_prompt_parts_sorted|].
  unfold build_master_prompt.
  destruct (get_prompt_parts prompts_col) as [|p parts] eqn:Hparts.
  - pose proof (get_prompt_parts_perm prompts_col) as Hp. rewrite Hparts in Hp.
    apply Permutation_sym, Permutation_nil in Hp. contradiction.
  - erewrite mapM_total; [reflexivity|].
    intros q. unfold render_part. rewrite render_rendered. reflexivity.
Qed.

End Merger_facts.

(** The merger on three parts stored as 3, 1, 2. *)
Lemma merger_sorts_renders_and_joins_witness :
  Examples.parts_312 <> []
  /\ exists parts,
       Permutation Examples.parts_312 parts
       /\ StronglySorted by_part_id parts
       /\ Prompt.build_master_prompt Prompt.format_plain Examples.parts_312
            Examples.null_request
          = Ok (join (nl ++ nl)
                  (map (fun p => strip (rendered Prompt.format_plain
                                          (Prompt.or_empty (Prompt.text p))
                                          (Prompt.replacements Examples.null_request)))
                       parts)).
Proof.
  assert (Hne : Examples.parts_312 <> []) by discriminate.
  split; [exact Hne|].
  exact (proj1 (merger_sorts_renders_and_joins Prompt.format_plain
                  Examples.parts_312 Examples.null_request) Hne).
Defined.

Example merger_312 :
  Prompt.build_master_prompt Prompt.format_plain Examples.parts_312
    Examples.null_request
  = Ok (u "first: 3 days" ++ nl ++ nl ++ u "second {literal}" ++ nl ++ nl
          ++ u "third for Paris").
Proof. vm_compute. reflexivity. Qed.

(** ** The Structured-Text Locator *)

Section Locator_facts.

Import Locator.

Lemma find_from_lower (c : char) (s : str) (i : Z) :
  (0 <= i)%Z -> (find_from c s i = -1 \/ i <= find_from c s i)%Z.
Proof.
  revert i. induction s as [|x s IH]; intros i Hi; simpl.
  - left. reflexivity.
  - destruct (eqc x c); [right; lia|].
    destruct (IH (i + 1)%Z) as [H|H]; [lia | left; exact H | right; lia].
Qed.

Lemma find_absent (c : char) (s : str) (i : Z) :
  (0 <= i)%Z -> find_from c s i = (-1)%Z -> forallb (fun x => negb (eqc x c)) s = true.
Proof.
  revert i. induction s as [|x s IH]; intros i Hi H; simpl in *.
  - reflexivity.
  - destruct (eqc x c); [lia|]. simpl. apply (IH (i + 1)%Z); [lia | exact H].
Qed.

(** The start index is the later of the two first occurrences. *)
Lemma start_index_none (cleaned : str) :
  start_index cleaned = (-1)%Z ->
  forallb (fun x => negb (is_open x)) cleaned = true.
Proof.
  unfold start_index, find. intros H.
  destruct (find_from_lower lbrace cleaned 0) as [H1|H1]; [lia| |lia].
  destruct (find_from_lower lbracket cleaned 0) as [H2|H2]; [lia| |lia].
  pose proof (find_absent _ _ 0 (Z.le_refl 0) H1) as A.
  pose proof (find_absent _ _ 0 (Z.le_refl 0) H2) as B.
  clear - A B. induction cleaned as [|x s IH]; simpl in *; [reflexivity|].
  apply andb_true_iff in A. apply andb_true_iff in B.
  destruct A as [A1 A2], B as [B1 B2]. unfold is_open.
  rewrite negb_orb, A1, B1. simpl. apply IH; assumption.
Qed.

(** Text without an opening delimiter comes back as cleaned. *)
Lemma extract_no_delimiter (raw : str) :
  raw <> [] -> start_index (clean raw) = (-1)%Z ->
  extract_json_from_model_output raw = clean raw.
Proof.
  intros Hraw H. unfold extract_json_from_model_output.
  destruct raw; [congruence|]. cbv zeta. rewrite H. reflexivity.
Qed.

(** When the scan never closes the first delimiter the rest of the text is
    returned, from the start index on. *)
Lemma extract_unclosed (raw : str) :
  raw <> [] -> start_index (clean raw) <> (-1)%Z ->
  scan (start_index (clean raw)) [] 0
       (slice_from (clean raw) (start_index (clean raw))) = (-1)%Z ->
  extract_json_from_model_output raw
  = slice_from (clean raw) (start_index (clean raw)).
Proof.
  intros Hraw Hs Hscan. unfold extract_json_from_model_output.
  destruct raw; [congruence|]. cbv zeta.
  apply Z.eqb_neq in Hs. rewrite Hs, Hscan. reflexivity.
Qed.

End Locator_facts.

(** C1. On the fenced reply of the specification the locator does not return
    the object: both delimiters occur, the start index is the later of their
    first occurrences (the bracket), and the result is the inner array. *)
Theorem locator_fenced_reply_starts_at_later_delimiter :
  Locator.extract_json_from_model_output Examples.fenced_reply
  = js "[1,{'b':2}]"
  /\ Locator.extract_json_from_model_output Examples.fenced_reply
     <> js "{'a':[1,{'b':2}]}"
  /\ find (Locator.clean Examples.fenced_reply) Locator.lbrace = 21%Z
  /\ find (Locator.clean Examples.fenced_reply) Locator.lbracket = 26%Z
  /\ Locator.start_index (Locator.clean Examples.fenced_reply) = 26%Z.
Proof.
  repeat split; try (vm_compute; reflexivity).
  vm_compute. discriminate.
Qed.

(** C4. On the truncated reply of the specification the scan never closes
    the first delimiter and the tail from the start index is returned, but
    the start index is the bracket, so the opening of the object is lost. *)
Theorem locator_truncated_reply_loses_object_start :
  Locator.extract_json_from_model_output Examples.truncated_reply = u "[1, 2"
  /\ Locator.extract_json_from_model_output Examples.truncated_reply
     <> Examples.truncated_reply
  /\ Locator.start_index (Locator.clean Examples.truncated_reply) = 6%Z
  /\ Locator.scan 6 [] 0 (slice_from (Locator.clean Examples.truncated_reply) 6)
     = (-1)%Z.
Proof.
  repeat split; try (vm_compute; reflexivity).
  vm_compute. discriminate.
Qed.

(** C9. An explicitly null budget is rendered by [str] as the text None,
    while a null group, stay or notes is rendered as the empty string. *)
Theorem null_budget_is_rendered_as_None :
  value_of (u "budget") (Prompt.replacements Examples.null_request)
  = Some (u "None")
  /\ value_of (u "group") (Prompt.replacements Examples.null_request) = Some []
  /\ value_of (u "stay") (Prompt.replacements Examples.null_request) = Some []
  /\ value_of (u "notes") (Prompt.replacements Examples.null_request) = Some [].
Proof. repeat split; vm_compute; reflexivity. Qed.

(** ** Dictionaries *)

Lemma lookup_assign_same (k : str) (v : json) (d : dict) :
  lookup k (assign k v d) = Some v.
Proof.
  induction d as [|[k' v'] d IH]; simpl.
  - rewrite eqs_refl. reflexivity.
  - destruct (eqs k' k) eqn:E; simpl; rewrite E; [reflexivity | exact IH].
Qed.

Lemma lookup_assign_other (k k2 : str) (v : json) (d : dict) :
  eqs k2 k = false -> lookup k (assign k2 v d) = lookup k d.
Proof.
  intros Hne. induction d as [|[k' v'] d IH]; simpl.
  - rewrite Hne. reflexivity.
  - destruct (eqs k' k2) eqn:E; simpl.
    + apply eqs_eq in E. subst k'. rewrite Hne. reflexivity.
    + rewrite IH. reflexivity.
Qed.

Lemma assign_assign (k : str) (v w : json) (d : dict) :
  assign k w (assign k v d) = assign k w d.
Proof.
  induction d as [|[k' v'] d IH]; simpl.
  - rewrite eqs_refl. reflexivity.
  - destruct (eqs k' k) eqn:E; simpl; rewrite E; [reflexivity|].
    rewrite IH. reflexivity.
Qed.

(** ** The error monad *)

Lemma mapM_ok_each {A B : Type} (f : A -> Py B) (l : list A) (l' : list B) :
  mapM f l = Ok l' -> Forall2 (fun a b => f a = Ok b) l l'.
Proof.
  revert l'. induction l as [|a l IH]; intros l' H; simpl in H.
  - injection H as <-. constructor.
  - destruct (f a) as [b|e] eqn:Hf; simpl in H; [|discriminate].
    destruct (mapM f l) as [bs|e] eqn:Hm; simpl in H; [|discriminate].
    injection H as <-. constructor; [exact Hf | apply IH; reflexivity].
Qed.

Lemma mapM_ok_results {A B : Type} (f : A -> Py B) (P : B -> Prop)
    (l : list A) (l' : list B) :
  (forall a b, f a = Ok b -> P b) -> mapM f l = Ok l' -> Forall P l'.
Proof.
  intros HP H. apply mapM_ok_each in H.
  induction H; constructor; eauto.
Qed.

Lemma mapM_ok_inputs {A B : Type} (f : A -> Py B) (l : list A) (l' : list B) :
  mapM f l = Ok l' -> Forall (fun a => exists b, f a = Ok b) l.
Proof.
  intros H. apply mapM_ok_each in H.
  induction H; constructor; eauto.
Qed.


(** ** The Result Normalizer *)

Section Normalizer_facts.

Import Normalizer.

Local Arguments startswith : simpl never.
Local Arguments contains : simpl never.

Lemma maps_search_prefix (enc : str) :
  startswith (Url.maps_search ++ enc) Url.maps_prefix = true.
Proof. vm_compute. reflexivity. Qed.

Lemma maps_search_nonempty (enc : str) : Url.maps_search ++ enc <> [].
Proof. vm_compute. discriminate. Qed.

Lemma mapM_all_ok {A B : Type} (f : A -> Py B) (l : list A) :
  Forall (fun a => exists b, f a = Ok b) l -> exists l', mapM f l = Ok l'.
Proof.
  induction 1 as [|a l [b Hb] _ [l' Hl']]; simpl.
  - eauto.
  - rewrite Hb, Hl'. simpl. eauto.
Qed.

Lemma utf8_char_ok (c : char) :
  ((c <? 55296) || ((57343 <? c) && (c <? 1114112)))%N = true ->
  exists bs, Url.utf8_char c = Ok bs.
Proof.
  intros H. unfold Url.utf8_char.
  repeat (match goal with
          | |- context [N.ltb ?a ?b] => destruct (N.ltb_spec a b)
          | |- context [N.leb ?a ?b] => destruct (N.leb_spec a b)
          | H : context [N.ltb ?a ?b] |- _ => destruct (N.ltb_spec a b)
          end; simpl in *; try discriminate; try lia);
    eauto.
Qed.

(** Every encodable string can be percent-encoded. *)
Lemma quote_plus_ok (s : str) :
  encodable s = true -> exists enc, Url.quote_plus s = Ok enc.
Proof.
  intros H.
  assert (Hu : exists bs, Url.utf8 s = Ok bs).
  { unfold Url.utf8.
    destruct (mapM_all_ok Url.utf8_char s) as [l' Hl'].
    - unfold encodable in H. rewrite forallb_forall in H.
      apply Forall_forall. intros c Hc. apply utf8_char_ok, H, Hc.
    - rewrite Hl'. simpl. eauto. }
  destruct Hu as [bs Hbs].
  assert (Hq : forall safe, exists q, Url.quote s safe = Ok q).
  { intros safe. unfold Url.quote. destruct s; [eauto|].
    rewrite Hbs. simpl. eauto. }
  unfold Url.quote_plus. destruct (negb (contains s [32%N])).
  - apply Hq.
  - destruct (Hq [32%N]) as [q ->]. simpl. eauto.
Qed.

(** What [synthesize] does on a dictionary. *)
Lemma synthesize_ok (d : dict) (out : json) :
  synthesize (JObj d) = Ok out ->
  exists title enc,
    lookup k_title d = Some (JStr title)
    /\ Url.quote_plus title = Ok enc
    /\ out = JObj (assign k_map_link (JStr (Url.maps_search ++ enc)) d).
Proof.
  unfold synthesize. simpl.
  destruct (lookup k_title d) as [t|]; simpl; [|discriminate].
  destruct t; simpl; try discriminate.
  destruct (Url.quote_plus s) as [enc|e] eqn:Hq; simpl; [|discriminate].
  intros H. injection H as <-. exists s, enc. repeat split. exact Hq.
Qed.

(** Only a dictionary gets through [fix_activity]. *)
Lemma fix_activity_ok (activity out : json) :
  fix_activity activity = Ok out ->
  exists d,
    activity = JObj d
    /\ ((needs_link d = true
         /\ exists title enc,
              lookup k_title d = Some (JStr title)
              /\ Url.quote_plus title = Ok enc
              /\ out = JObj (assign k_map_link (JStr (Url.maps_search ++ enc)) d))
        \/ (needs_link d = false /\ out = activity
            /\ exists link, lookup k_map_link d = Some (JStr link)
                            /\ link <> []
                            /\ startswith link Url.maps_prefix = true)).
Proof.
  unfold fix_activity.
  destruct activity as [| | | | s | l | d]; simpl; try discriminate.
  - destruct (contains s k_map_link); simpl; discriminate.
  - destruct (existsb (eq_str k_map_link) l); simpl; discriminate.
  - intros H. exists d. split; [reflexivity|]. unfold needs_link.
    destruct (lookup k_map_link d) as [v|] eqn:Hv; simpl in H.
    + destruct (truthy v) eqn:Ht; simpl in H.
      * destruct v as [| | | | s | |]; simpl in H; try discriminate.
        destruct (startswith s Url.maps_prefix) eqn:Hs; simpl in H.
        -- right. injection H as <-. repeat split.
           exists s. repeat split; try assumption.
           destruct s; [discriminate | discriminate].
        -- left. split; [reflexivity|]. apply synthesize_ok. exact H.
      * left. split; [reflexivity|]. apply synthesize_ok. exact H.
    + left. split; [reflexivity|]. apply synthesize_ok. exact H.
Qed.

(** An activity with a typed link and an encodable title gets through. *)
Lemma fix_activity_total (d : dict) (title : str) :
  map_link_typed d = true ->
  lookup k_title d = Some (JStr title) -> encodable title = true ->
  exists out, fix_activity (JObj d) = Ok out.
Proof.
  intros Ht Htitle Henc. destruct (quote_plus_ok _ Henc) as [enc Hq].
  assert (Hs : exists out, synthesize (JObj d) = Ok out).
  { unfold synthesize. simpl. rewrite Htitle. simpl. rewrite Hq. simpl. eauto. }
  unfold fix_activity, map_link_typed in *. simpl.
  destruct (lookup k_map_link d) as [v|]; simpl; [|exact Hs].
  destruct v as [| b | n | f | s | l | o]; simpl in *;
    try exact Hs;
    try (rewrite negb_true_iff in Ht; rewrite Ht; simpl; exact Hs).
  destruct s as [|c s]; simpl; [exact Hs|].
  destruct (startswith (c :: s) Url.maps_prefix); simpl; [eauto | exact Hs].
Qed.

Lemma fix_activity_well_linked (activity out : json) :
  fix_activity activity = Ok out -> well_linked out.
Proof.
  intros H. destruct (fix_activity_ok _ _ H) as (d & -> & [(_ & t & enc & _ & _ & ->)|(_ & -> & link & Hl & Hne & Hs)]).
  - exists (Url.maps_search ++ enc). simpl. rewrite lookup_assign_same.
    split; [reflexivity|].
    split; [apply maps_search_nonempty | apply maps_search_prefix].
  - exists link. simpl. rewrite Hl. split; [reflexivity|]. split; assumption.
Qed.

Lemma fix_activity_not_text (s : str) (out : json) :
  fix_activity (JStr s) <> Ok out.
Proof.
  intros H. destruct (fix_activity_ok _ _ H) as (d & Hd & _). discriminate.
Qed.

Lemma fix_day_obj (d : dict) :
  fix_day (JObj d) =
  match lookup k_day (with_activities d) with
  | None => Raise missing_day_number
  | Some _ =>
    match lookup k_activities (with_activities d) with
    | Some acts =>
      items <- py_iter acts ;;
      items' <- mapM fix_activity items ;;
      match acts with
      | JArr _ => Ok (JObj (assign k_activities (JArr items') (with_activities d)))
      | _ => Ok (JObj (with_activities d))
      end
    | None => Raise (KeyError k_activities)
    end
  end.
Proof.
  unfold fix_day, with_activities. simpl.
  destruct (lookup k_activities d) as [a|] eqn:Ha; simpl.
  - destruct (lookup k_day d); simpl; [|reflexivity].
    rewrite Ha. simpl. reflexivity.
  - destruct (lookup k_day (assign k_activities (JArr []) d)); simpl;
      [|reflexivity].
    destruct (lookup k_activities (assign k_activities (JArr []) d));
      reflexivity.
Qed.

Lemma fix_day_only_obj (day out : json) :
  fix_day day = Ok out -> exists d, day = JObj d.
Proof.
  unfold fix_day.
  destruct day as [| | | | s | l | d]; simpl; try discriminate.
  - destruct (contains s k_activities); simpl; [|discriminate].
    destruct (contains s k_day); simpl; discriminate.
  - destruct (existsb (eq_str k_activities) l); simpl; [|discriminate].
    destruct (existsb (eq_str k_day) l); simpl; discriminate.
  - eauto.
Qed.

Lemma lookup_day_with_activities (d : dict) :
  lookup k_day (with_activities d) = lookup k_day d.
Proof.
  unfold with_activities. destruct (lookup k_activities d); [reflexivity|].
  apply lookup_assign_other. vm_compute. reflexivity.
Qed.

Lemma fix_day_ok (day out : json) :
  fix_day day = Ok out ->
  day_well_linked out
  /\ exists d v, day = JObj d /\ lookup k_day d = Some v.
Proof.
  intros H. destruct (fix_day_only_obj _ _ H) as [d ->].
  rewrite fix_day_obj in H. rewrite lookup_day_with_activities in H.
  destruct (lookup k_day d) as [v|] eqn:Hday; [|discriminate].
  split; [|eauto].
  destruct (lookup k_activities (with_activities d)) as [acts|] eqn:Ha;
    [|discriminate].
  destruct (py_iter acts) as [items|] eqn:Hi; simpl in H; [|discriminate].
  destruct (mapM fix_activity items) as [items'|] eqn:Hm; simpl in H;
    [|discriminate].
  destruct acts as [| | | | s | l | o]; simpl in Hi; try discriminate;
    injection Hi as <-; injection H as <-.
  - exists (JStr s), (map (fun c => JStr [c]) s). simpl. rewrite Ha.
    split; [reflexivity|]. split; [reflexivity|].
    apply mapM_ok_inputs in Hm. rewrite Forall_forall in *.
    intros a Hin. destruct (Hm a Hin) as [b Hb].
    apply in_map_iff in Hin. destruct Hin as (c & <- & _).
    exfalso. exact (fix_activity_not_text _ _ Hb).
  - exists (JArr items'), items'. simpl. rewrite lookup_assign_same.
    split; [reflexivity|]. split; [reflexivity|].
    eapply mapM_ok_results; [|exact Hm]. apply fix_activity_well_linked.
  - exists (JObj o), (map (fun kv => JStr (fst kv)) o). simpl. rewrite Ha.
    split; [reflexivity|]. split; [reflexivity|].
    apply mapM_ok_inputs in Hm. rewrite Forall_forall in *.
    intros a Hin. destruct (Hm a Hin) as [b Hb].
    apply in_map_iff in Hin. destruct Hin as (kv & <- & _).
    exfalso. exact (fix_activity_not_text _ _ Hb).
Qed.

(** [normalize], with the dynamic checks resolved, by the kind of value. *)
Lemma normalize_obj (d : dict) :
  normalize (JObj d) =
  match lookup k_days d with
  | None => Raise missing_days
  | Some (JArr l) =>
    items' <- mapM fix_day l ;; Ok (JObj (assign k_days (JArr items') d))
  | Some _ => Raise days_not_array
  end.
Proof.
  unfold normalize. simpl.
  destruct (lookup k_days d) as [v|] eqn:Hv; simpl; [|reflexivity].
  rewrite Hv. simpl. destruct v; reflexivity.
Qed.

Lemma normalize_arr (l : list json) :
  normalize (JArr l) =
  if existsb (eq_str k_days) l then Raise TypeError
  else normalize (JObj [(k_days, JArr l)]).
Proof.
  unfold normalize. simpl.
  destruct (existsb (eq_str k_days) l); reflexivity.
Qed.

Lemma normalize_scalar (data : json) :
  (forall l, data <> JArr l) -> (forall d, data <> JObj d) ->
  exists e, normalize data = Raise e.
Proof.
  intros Hl Hd. unfold normalize.
  destruct data as [| | | | s | l | d]; simpl; eauto.
  - destruct (contains s k_days); simpl; eauto.
  - exfalso. exact (Hl l eq_refl).
  - exfalso. exact (Hd d eq_refl).
Qed.

Lemma normalize_wrapped (l : list json) :
  normalize (JObj [(k_days, JArr l)]) =
  items' <- mapM fix_day l ;; Ok (JObj [(k_days, JArr items')]).
Proof. rewrite normalize_obj. reflexivity. Qed.


Lemma existsb_eq_str (k : str) (l : list json) :
  existsb (eq_str k) l = true -> In (JStr k) l.
Proof.
  intros H. apply existsb_exists in H. destruct H as (x & Hin & Hx).
  destruct x; simpl in Hx; try discriminate.
  apply eqs_eq in Hx. subst. exact Hin.
Qed.

(** A successful run starts from an array or from an object whose [days] is
    an array, and ends with an object whose [days] holds the fixed days. *)
Lemma normalize_ok (data out : json) :
  normalize data = Ok out ->
  exists l l',
    (data = JArr l \/ exists d, data = JObj d /\ lookup k_days d = Some (JArr l))
    /\ mapM fix_day l = Ok l'
    /\ getitem out k_days = Ok (JArr l').
Proof.
  intros H. destruct data as [| | | | s | l | d];
    try (match type of H with
         | normalize ?x = _ =>
           destruct (normalize_scalar x) as [e He];
           [discriminate | discriminate | rewrite He in H; discriminate]
         end).
  - rewrite normalize_arr in H.
    destruct (existsb (eq_str k_days) l); [discriminate|].
    rewrite normalize_wrapped in H.
    destruct (mapM fix_day l) as [l'|] eqn:Hm; simpl in H; [|discriminate].
    injection H as <-. exists l, l'. split; [left; reflexivity|].
    split; [exact Hm | reflexivity].
  - rewrite normalize_obj in H.
    destruct (lookup k_days d) as [v|] eqn:Hv; [|discriminate].
    destruct v as [| | | | | l |]; try discriminate.
    destruct (mapM fix_day l) as [l'|] eqn:Hm; simpl in H; [|discriminate].
    injection H as <-. exists l, l'. split; [right; eauto|].
    split; [exact Hm|]. simpl. rewrite lookup_assign_same. reflexivity.
Qed.





End Normalizer_facts.



(** ** The extraction block *)

Section Extraction_facts.

Import Locator Re Selection.

Lemma span_app (p : char -> bool) (s : str) :
  s = fst (span p s) ++ snd (span p s).
Proof.
  induction s as [|c s IH]; simpl; [reflexivity|].
  destruct (p c); [|reflexivity].
  destruct (span p s) as [a b]. simpl in *. f_equal. exact IH.
Qed.

Lemma lstrip_keeps_last (a : str) (c : char) :
  isspace c = false -> exists a', lstrip (a ++ [c]) = a' ++ [c].
Proof.
  intros Hc. induction a as [|x a IH]; simpl.
  - rewrite Hc. exists []. reflexivity.
  - destruct (isspace x); [exact IH|]. exists (x :: a). reflexivity.
Qed.

Lemma strip_keeps_head (c : char) (s : str) :
  isspace c = false -> exists s', strip (c :: s) = c :: s'.
Proof.
  intros Hc. unfold strip, rstrip. simpl lstrip. rewrite Hc. simpl rev.
  destruct (lstrip_keeps_last (rev s) c Hc) as [a' Ha]. rewrite Ha.
  rewrite rev_app_distr. simpl. eauto.
Qed.

Lemma starts_with_brace_cons (s : str) :
  starts_with_brace (lbrace :: s) = true.
Proof.
  unfold starts_with_brace.
  destruct (strip_keeps_head lbrace s eq_refl) as [s' ->]. reflexivity.
Qed.

Lemma forallb_absent_mid (c : char) (a b : str) :
  forallb (fun x => negb (eqc x c)) (a ++ c :: b) = true -> False.
Proof.
  rewrite forallb_app. simpl. rewrite eqc_refl. simpl.
  rewrite andb_false_r. discriminate.
Qed.

(** The greedy tail: everything up to the last closing brace. *)
Lemma dotstar_rbrace_none (s : str) :
  dotstar_rbrace s = None -> forallb (fun x => negb (eqc x rbrace)) s = true.
Proof.
  induction s as [|c s IH]; simpl; [reflexivity|].
  destruct (dotstar_rbrace s); [discriminate|].
  destruct (eqc c rbrace); [discriminate|]. intros _. simpl. apply IH.
  reflexivity.
Qed.

Lemma dotstar_rbrace_some (s m : str) :
  dotstar_rbrace s = Some m ->
  exists body post,
    s = body ++ rbrace :: post /\ m = body ++ [rbrace]
    /\ forallb (fun x => negb (eqc x rbrace)) post = true.
Proof.
  revert m. induction s as [|c s IH]; intros m; simpl; [discriminate|].
  destruct (dotstar_rbrace s) as [m'|] eqn:Hd.
  - intros H. injection H as <-.
    destruct (IH m' eq_refl) as (body & post & -> & -> & Hp).
    exists (c :: body), post. repeat split. exact Hp.
  - destruct (eqc c rbrace) eqn:Hc; [|discriminate].
    intros H. injection H as <-. apply eqc_eq in Hc. subst c.
    exists [], s. repeat split. apply dotstar_rbrace_none, Hd.
Qed.

Lemma search_object_none_tail (c : char) (s : str) :
  search_object (c :: s) = None -> search_object s = None.
Proof.
  simpl. destruct (eqc c lbrace); [|tauto].
  destruct (dotstar_rbrace s); [discriminate | tauto].
Qed.

Lemma search_object_none (s a b : str) :
  search_object s = None -> s = a ++ lbrace :: b -> dotstar_rbrace b = None.
Proof.
  revert s. induction a as [|x a IH]; intros s H ->; simpl in *.
  - destruct (dotstar_rbrace b); [discriminate | reflexivity].
  - apply (IH (a ++ lbrace :: b)); [|reflexivity].
    exact (search_object_none_tail x _ H).
Qed.

(** The leftmost match starts at the first opening brace of the text and
    ends at its last closing brace. *)
Lemma search_object_some (s m : str) :
  search_object s = Some m ->
  exists pre body post,
    s = pre ++ lbrace :: body ++ rbrace :: post
    /\ m = lbrace :: body ++ [rbrace]
    /\ forallb (fun x => negb (eqc x lbrace)) pre = true
    /\ forallb (fun x => negb (eqc x rbrace)) post = true.
Proof.
  induction s as [|c s IH]; simpl; [discriminate|].
  destruct (eqc c lbrace) eqn:Hc.
  - apply eqc_eq in Hc. subst c.
    destruct (dotstar_rbrace s) as [m'|] eqn:Hd.
    + intros H. injection H as <-.
      destruct (dotstar_rbrace_some _ _ Hd) as (body & post & -> & -> & Hp).
      exists [], body, post. repeat split. exact Hp.
    + intros H. exfalso.
      destruct (IH H) as (pre & body & post & -> & _ & _ & _).
      pose proof (dotstar_rbrace_none _ Hd) as Hn.
      change (pre ++ lbrace :: body ++ rbrace :: post)
        with (pre ++ (lbrace :: body) ++ rbrace :: post) in Hn.
      rewrite app_assoc in Hn. exact (forallb_absent_mid _ _ _ Hn).
  - intros H. destruct (IH H) as (pre & body & post & -> & -> & Hpre & Hpost).
    exists (c :: pre), body, post. repeat split; [|exact Hpost].
    simpl. rewrite Hc, Hpre. reflexivity.
Qed.

Lemma dotstar_array_end_has_rbrace (s m : str) :
  dotstar_array_end s = Some m -> dotstar_rbrace s <> None.
Proof.
  revert m. induction s as [|c s IH]; intros m; simpl; [discriminate|].
  destruct (dotstar_array_end s) as [m'|].
  - intros _. specialize (IH m' eq_refl).
    destruct (dotstar_rbrace s); [discriminate | congruence].
  - destruct (eqc c rbrace); [|discriminate]. intros _.
    destruct (dotstar_rbrace s); discriminate.
Qed.

Lemma match_array_shape (s m : str) :
  match_array s = Some m ->
  exists a b m', s = a ++ lbrace :: b /\ dotstar_array_end b = Some m'.
Proof.
  unfold match_array. destruct s as [|c s1]; [discriminate|].
  destruct (eqc c lbracket); [|discriminate].
  pose proof (span_app isspace s1) as Hs.
  destruct (span isspace s1) as [ws s2]. simpl in Hs.
  destruct s2 as [|d s3]; [discriminate|].
  destruct (eqc d lbrace) eqn:Hd; [|discriminate].
  apply eqc_eq in Hd. subst d.
  destruct (dotstar_array_end s3) as [m'|] eqn:Hm; [|discriminate].
  intros _. exists (c :: ws), s3, m'. split; [|exact Hm].
  simpl. f_equal. exact Hs.
Qed.

Lemma search_array_shape (s m : str) :
  search_array s = Some m ->
  exists a b m', s = a ++ lbrace :: b /\ dotstar_array_end b = Some m'.
Proof.
  induction s as [|c s IH]; [discriminate|].
  cbn [search_array]. destruct (match_array (c :: s)) as [m0|] eqn:Hm.
  - intros _. exact (match_array_shape _ _ Hm).
  - intros H. destruct (IH H) as (a & b & m' & -> & Hb).
    exists (c :: a), b, m'. split; [reflexivity | exact Hb].
Qed.

(** The array pattern contains the object pattern: where the second search
    of the source finds nothing, the third finds nothing either. *)
Lemma search_array_needs_object (s : str) :
  search_object s = None -> search_array s = None.
Proof.
  intros Ho. destruct (search_array s) as [m|] eqn:Ha; [|reflexivity].
  destruct (search_array_shape _ _ Ha) as (a & b & m' & Hs & Hb).
  exfalso. apply (dotstar_array_end_has_rbrace _ _ Hb).
  exact (search_object_none _ _ _ Ho Hs).
Qed.

(** C10. When the output of the locator starts with a brace it is handed to
    the parser as it is.  When it does not, the raw text is searched from its
    first opening brace to its last closing brace and a match replaces the
    output of the locator, so the text handed to the parser can differ from
    the output of the locator.  The wrapping of an array of objects under
    [days] is written in the code but never happens: the search for the
    array runs only when the search for an object has found nothing, and any
    text with such an array has an object match, so the text handed to the
    parser does not depend on the array search at all.  On the reply that is
    the array of one day, the array pattern matches the whole reply, but the
    locator starts at the brace, which is the later delimiter, and the text
    handed to the parser is the day object and not the array under [days];
    the value of that text has no [days] and the endpoint answers with the
    parse failure. *)
Theorem candidate_text_secondary_extraction :
  (forall raw,
     starts_with_brace (extract_json_from_model_output raw) = true ->
     candidate_text raw = extract_json_from_model_output raw)
  /\ (forall raw m,
        starts_with_brace (extract_json_from_model_output raw) = false ->
        search_object raw = Some m ->
        candidate_text raw = m
        /\ exists pre body post,
             raw = pre ++ lbrace :: body ++ rbrace :: post
             /\ m = lbrace :: body ++ [rbrace]
             /\ forallb (fun x => negb (eqc x lbrace)) pre = true
             /\ forallb (fun x => negb (eqc x rbrace)) post = true)
  /\ (forall raw,
        starts_with_brace (extract_json_from_model_output raw) = false ->
        search_object raw = None ->
        candidate_text raw
        = match search_array raw with
          | Some a => js "{'days': " ++ a ++ u "}"
          | None => extract_json_from_model_output raw
          end
        /\ search_array raw = None)
  /\ candidate_text Replies.object_then_brace
     <> extract_json_from_model_output Replies.object_then_brace
  /\ (forall raw,
        candidate_text raw
        = if starts_with_brace (extract_json_from_model_output raw)
          then extract_json_from_model_output raw
          else match search_object raw with
               | Some m => m
               | None => extract_json_from_model_output raw
               end)
  /\ search_array Replies.array_of_days = Some Replies.array_of_days
  /\ extract_json_from_model_output Replies.array_of_days = js "{'day':1}"
  /\ candidate_text Replies.array_of_days = js "{'day':1}"
  /\ candidate_text Replies.array_of_days
     <> js "{'days': " ++ Replies.array_of_days ++ u "}"
  /\ Normalizer.normalize (JObj [(Normalizer.k_day, JInt 1)])
     = Raise Normalizer.missing_days
  /\ Normalizer.respond (JObj [(Normalizer.k_day, JInt 1)])
     = Normalizer.parse_failure.
Proof.
  assert (Hkept : forall raw,
             starts_with_brace (extract_json_from_model_output raw) = true ->
             candidate_text raw = extract_json_from_model_output raw).
  { intros raw H. unfold candidate_text. cbv zeta. rewrite H. simpl.
    rewrite H. reflexivity. }
  assert (Hobj : forall raw m,
             starts_with_brace (extract_json_from_model_output raw) = false ->
             search_object raw = Some m -> candidate_text raw = m).
  { intros raw m H Hm. unfold candidate_text. cbv zeta. rewrite H, Hm. simpl.
    destruct (search_object_some _ _ Hm) as (pre & body & post & _ & -> & _).
    rewrite starts_with_brace_cons. reflexivity. }
  assert (Hnone : forall raw,
             starts_with_brace (extract_json_from_model_output raw) = false ->
             search_object raw = None ->
             candidate_text raw
             = match search_array raw with
               | Some a => js "{'days': " ++ a ++ u "}"
               | None => extract_json_from_model_output raw
               end).
  { intros raw H Hm. unfold candidate_text. cbv zeta. rewrite H, Hm. simpl.
    rewrite H. reflexivity. }
  split; [exact Hkept|].
  split; [intros raw m H Hm; split;
          [exact (Hobj raw m H Hm) | exact (search_object_some _ _ Hm)]|].
  split; [intros raw H Hm; split;
          [exact (Hnone raw H Hm) | exact (search_array_needs_object _ Hm)]|].
  split; [vm_compute; discriminate|].
  split.
  { intros raw.
    destruct (starts_with_brace (extract_json_from_model_output raw)) eqn:H.
    - exact (Hkept raw H).
    - destruct (search_object raw) as [m|] eqn:Hm.
      + exact (Hobj raw m H Hm).
      + rewrite (Hnone raw H Hm), (search_array_needs_object _ Hm).
        reflexivity. }
  repeat split; try (vm_compute; reflexivity).
  vm_compute. discriminate.
Qed.

End Extraction_facts.

Lemma candidate_text_secondary_extraction_witness :
  Selection.candidate_text Replies.array_of_days = js "{'day':1}"
  /\ Selection.candidate_text Replies.object_then_brace
     = js "{'a':[1,2]} trailing }"
  /\ Selection.candidate_text Replies.array_of_numbers = u "[1, 2]".
Proof.
  destruct candidate_text_secondary_extraction as (H1 & H2 & H3 & _).
  split; [|split].
  - rewrite (H1 Replies.array_of_days); vm_compute; reflexivity.
  - apply (H2 Replies.object_then_brace); vm_compute; reflexivity.
  - rewrite (proj1 (H3 Replies.array_of_numbers eq_refl eq_refl)).
    vm_compute. reflexivity.
Defined.

(** ** The Malformed-Syntax Repair *)

Section Repair_facts.

Import Locator Re JsonText.

(** Character classes are decided by comparing code points. *)
Ltac classes :=
  unfold json_ws, plain, digit, number_char, isspace, ident_char, ident_start,
    is_close, is_open, eqc, lbrace, rbrace, lbracket, rbracket, comma, colon,
    dquote in *;
  repeat (match goal with
          | H : context [N.eqb ?a ?b] |- _ => destruct (N.eqb_spec a b)
          | H : context [N.leb ?a ?b] |- _ => destruct (N.leb_spec a b)
          | |- context [N.eqb ?a ?b] => destruct (N.eqb_spec a b)
          | |- context [N.leb ?a ?b] => destruct (N.leb_spec a b)
          end; try subst; simpl in *; try discriminate; try lia);
  try reflexivity.

Lemma ws_space (c : char) : json_ws c = true -> isspace c = true.
Proof. intros H. classes. Qed.

Lemma ws_plain (c : char) : json_ws c = true -> plain c = true.
Proof. intros H. classes. Qed.

Lemma ws_not_ident (c : char) : json_ws c = true -> ident_char c = false.
Proof. intros H. classes. Qed.

Lemma number_char_plain (c : char) : number_char c = true -> plain c = true.
Proof. intros H. classes. Qed.

Lemma ident_start_not_space (c : char) : ident_start c = true -> isspace c = false.
Proof. intros H. classes. Qed.

Lemma ident_start_not_close (c : char) : ident_start c = true -> is_close c = false.
Proof. intros H. classes. Qed.

Lemma digit_head (c : char) :
  digit c = true ->
  isspace c = false /\ is_close c = false /\ ident_start c = false.
Proof. intros H. repeat split; classes. Qed.

Lemma closes_stops (s : str) :
  closes s = true ->
  stops isspace s = true /\ stops ident_char s = true
  /\ match s with c :: _ => eqc c colon = false | [] => True end.
Proof.
  destruct s as [|c s]; simpl; [discriminate|]. intros H.
  repeat split; classes.
Qed.

(** A greedy class takes exactly [a] when [a] is in the class and what
    follows is not. *)
Lemma span_exact (p : char -> bool) (a b : str) :
  forallb p a = true -> stops p b = true -> span p (a ++ b) = (a, b).
Proof.
  intros Ha Hb. induction a as [|x a IH]; simpl in *.
  - destruct b as [|y b]; [reflexivity|]. simpl in Hb |- *.
    apply negb_true_iff in Hb. rewrite Hb. reflexivity.
  - apply andb_true_iff in Ha. destruct Ha as [Hx Ha].
    rewrite Hx, (IH Ha). reflexivity.
Qed.

(** A character outside the class ends the greedy run wherever it is put. *)
Lemma span_stop (p : char -> bool) (a : str) (x : char) (r : str) :
  p x = false ->
  span p (a ++ x :: r) = (fst (span p a), snd (span p a) ++ x :: r).
Proof.
  intros Hx. induction a as [|y a IH]; simpl.
  - rewrite Hx. reflexivity.
  - destruct (p y); [|reflexivity].
    rewrite IH. destruct (span p a). reflexivity.
Qed.

Lemma ws_all_space (w : str) : wf_ws w = true -> forallb isspace w = true.
Proof.
  unfold wf_ws. induction w as [|c w IH]; simpl; [reflexivity|].
  intros H. apply andb_true_iff in H. destruct H as [Hc Hw].
  rewrite (ws_space _ Hc), (IH Hw). reflexivity.
Qed.

Lemma ws_all_plain (w : str) : wf_ws w = true -> forallb plain w = true.
Proof.
  unfold wf_ws. induction w as [|c w IH]; simpl; [reflexivity|].
  intros H. apply andb_true_iff in H. destruct H as [Hc Hw].
  rewrite (ws_plain _ Hc), (IH Hw). reflexivity.
Qed.

Lemma ws_stops_ident (w s : str) :
  wf_ws w = true -> stops ident_char s = true -> stops ident_char (w ++ s) = true.
Proof.
  intros Hw Hs. destruct w as [|c w]; [exact Hs|]. simpl in *.
  apply andb_true_iff in Hw. destruct Hw as [Hc _].
  rewrite (ws_not_ident _ Hc). reflexivity.
Qed.

(** *** The fuel of the substitutions *)

Lemma span_length (p : char -> bool) (s : str) :
  length s = length (fst (span p s)) + length (snd (span p s)).
Proof. rewrite (span_app p s) at 1. apply length_app. Qed.

Lemma match_key_shorter (s g1 g2 g3 rest : str) :
  match_key s = Some (g1, g2, g3, rest) -> length rest < length s.
Proof.
  unfold match_key. destruct s as [|c s1]; [discriminate|].
  destruct (eqc c lbrace || eqc c comma); [|discriminate].
  pose proof (span_length isspace s1) as L1.
  destruct (span isspace s1) as [ws1 s2]. simpl in L1.
  destruct s2 as [|d s3]; [discriminate|].
  destruct (ident_start d); [|discriminate].
  pose proof (span_length ident_char s3) as L2.
  destruct (span ident_char s3) as [name s4]. simpl in L2.
  pose proof (span_length isspace s4) as L3.
  destruct (span isspace s4) as [ws2 s5]. simpl in L3.
  destruct s5 as [|e s6]; [discriminate|].
  destruct (eqc e colon); [|discriminate].
  intros H. injection H as _ _ _ <-. simpl in *. lia.
Qed.

Lemma match_trailing_shorter (s : str) (g1 : char) (rest : str) :
  match_trailing s = Some (g1, rest) -> length rest < length s.
Proof.
  unfold match_trailing. destruct s as [|c s1]; [discriminate|].
  destruct (eqc c comma); [|discriminate].
  pose proof (span_length isspace s1) as L1.
  destruct (span isspace s1) as [ws1 s2]. simpl in L1.
  destruct s2 as [|d s3]; [discriminate|].
  destruct (is_close d); [|discriminate].
  intros H. injection H as _ <-. simpl in *. lia.
Qed.

(** Any fuel that covers the length of the text gives the same result. *)
Lemma sub_key_fuel (n m : nat) (s : str) :
  length s <= n -> length s <= m -> sub_key n s = sub_key m s.
Proof.
  revert m s. induction n as [|n IH]; intros m s Hn Hm.
  - destruct s; [|simpl in Hn; lia]. destruct m; reflexivity.
  - destruct s as [|c s']; [destruct m; reflexivity|].
    destruct m as [|m]; [simpl in Hm; lia|]. cbn [sub_key].
    destruct (match_key (c :: s')) as [[[[g1 g2] g3] rest]|] eqn:Hk.
    + apply match_key_shorter in Hk. simpl in *.
      do 5 f_equal. apply IH; lia.
    + f_equal. apply IH; simpl in *; lia.
Qed.

Lemma sub_trailing_fuel (n m : nat) (s : str) :
  length s <= n -> length s <= m -> sub_trailing n s = sub_trailing m s.
Proof.
  revert m s. induction n as [|n IH]; intros m s Hn Hm.
  - destruct s; [|simpl in Hn; lia]. destruct m; reflexivity.
  - destruct s as [|c s']; [destruct m; reflexivity|].
    destruct m as [|m]; [simpl in Hm; lia|]. cbn [sub_trailing].
    destruct (match_trailing (c :: s')) as [[g1 rest]|] eqn:Hk.
    + apply match_trailing_shorter in Hk. simpl in *.
      f_equal. apply IH; lia.
    + f_equal. apply IH; simpl in *; lia.
Qed.

(** *** Where no match can start *)

Lemma no_match_plain (c : char) (s : str) :
  plain c = true -> no_match (c :: s) = true.
Proof.
  unfold plain, no_match, match_key, match_trailing. intros H.
  apply negb_true_iff, orb_false_iff in H. destruct H as [H1 H2].
  rewrite H1, H2. reflexivity.
Qed.

(** After a comma and white space, a character that neither starts a name
    nor closes a bracket. *)
Lemma no_match_comma_then (w : str) (h : char) (r : str) :
  wf_ws w = true -> isspace h = false -> ident_start h = false ->
  is_close h = false ->
  no_match (comma :: w ++ h :: r) = true.
Proof.
  intros Hw Hs Hi Hc. unfold no_match, match_key, match_trailing.
  rewrite eqc_refl, orb_true_r.
  rewrite (span_exact isspace w (h :: r) (ws_all_space _ Hw))
    by (simpl; rewrite Hs; reflexivity).
  rewrite Hi, Hc. reflexivity.
Qed.

(** After an opening brace and white space, a character that does not start
    a name. *)
Lemma no_match_brace_then (w : str) (h : char) (r : str) :
  wf_ws w = true -> isspace h = false -> ident_start h = false ->
  no_match (lbrace :: w ++ h :: r) = true.
Proof.
  intros Hw Hs Hi. unfold no_match, match_key, match_trailing.
  rewrite eqc_refl. simpl orb.
  rewrite (span_exact isspace w (h :: r) (ws_all_space _ Hw))
    by (simpl; rewrite Hs; reflexivity).
  rewrite Hi. reflexivity.
Qed.

(** After a comma and white space, a name that is followed by white space
    and then by a comma or a closing bracket, not by a colon. *)
Lemma no_match_comma_name (w1 : str) (h : char) (tl w2 y : str) :
  wf_ws w1 = true -> ident_start h = true -> forallb ident_char tl = true ->
  wf_ws w2 = true -> closes y = true ->
  no_match (comma :: w1 ++ (h :: tl) ++ w2 ++ y) = true.
Proof.
  intros Hw1 Hh Htl Hw2 Hy.
  destruct (closes_stops _ Hy) as (Ys & Yi & Yc).
  unfold no_match, match_key, match_trailing.
  rewrite eqc_refl, orb_true_r. simpl app.
  rewrite (span_exact isspace w1 (h :: tl ++ w2 ++ y) (ws_all_space _ Hw1))
    by (simpl; rewrite (ident_start_not_space _ Hh); reflexivity).
  rewrite Hh, (ident_start_not_close _ Hh).
  rewrite (span_exact ident_char tl (w2 ++ y) Htl (ws_stops_ident _ _ Hw2 Yi)).
  rewrite (span_exact isspace w2 y (ws_all_space _ Hw2) Ys).
  destruct y as [|c y]; [reflexivity|]. rewrite Yc. reflexivity.
Qed.

(** A match that does not start in a string body does not start there when
    the closing quote and any text follow. *)
Lemma no_match_before_quote (t r : str) :
  no_match t = true -> t <> [] -> no_match (t ++ dquote :: r) = true.
Proof.
  intros H Ht. destruct t as [|c t1]; [congruence|]. clear Ht.
  change ((c :: t1) ++ dquote :: r) with (c :: (t1 ++ dquote :: r)).
  unfold no_match, match_key, match_trailing in *.
  rewrite (span_stop isspace t1 dquote r eq_refl).
  destruct (span isspace t1) as [ws1 s2]. simpl fst. simpl snd.
  destruct s2 as [|d s3]; simpl app; cbv iota beta.
  - destruct (eqc c lbrace || eqc c comma), (eqc c comma); reflexivity.
  - rewrite (span_stop ident_char s3 dquote r eq_refl).
    destruct (span ident_char s3) as [name s4]. simpl fst. simpl snd.
    rewrite (span_stop isspace s4 dquote r eq_refl).
    destruct (span isspace s4) as [ws2 s5]. simpl fst. simpl snd.
    destruct (eqc c lbrace || eqc c comma), (eqc c comma), (ident_start d),
      (is_close d), s5 as [|e s6]; simpl app; cbv iota beta; try reflexivity;
      try discriminate;
      try (destruct (eqc e colon); [discriminate | reflexivity]);
      try (destruct (eqc e colon); discriminate).
Qed.

Lemma pattern_free_before_app (rest t1 t2 : str) :
  pattern_free_before rest (t1 ++ t2)
  = pattern_free_before (t2 ++ rest) t1 && pattern_free_before rest t2.
Proof.
  induction t1 as [|c t1 IH].
  - reflexivity.
  - cbn [app pattern_free_before]. rewrite IH, <- app_assoc, andb_assoc.
    reflexivity.
Qed.

Lemma pattern_free_before_plain (rest t : str) :
  forallb plain t = true -> pattern_free_before rest t = true.
Proof.
  induction t as [|c t IH]; intros H; [reflexivity|].
  cbn [forallb] in H. apply andb_true_iff in H. destruct H as [Hc Ht].
  cbn [pattern_free_before app]. rewrite (no_match_plain _ _ Hc), (IH Ht).
  reflexivity.
Qed.

Lemma pattern_free_before_quote (body r : str) :
  pattern_free body = true -> pattern_free_before (dquote :: r) body = true.
Proof.
  unfold pattern_free. induction body as [|c body IH]; intros H;
    [reflexivity|].
  cbn [pattern_free_before] in *. apply andb_true_iff in H.
  destruct H as [Hc Hb]. rewrite app_nil_r in Hc.
  rewrite (no_match_before_quote (c :: body) r Hc) by discriminate.
  rewrite (IH Hb). reflexivity.
Qed.

(** A quoted string with a quiet body is quiet in any context. *)
Lemma pattern_free_before_quoted (body rest : str) :
  pattern_free body = true -> pattern_free_before rest (quoted body) = true.
Proof.
  intros H. unfold quoted.
  change (dquote :: body ++ [dquote]) with ([dquote] ++ body ++ [dquote]).
  rewrite !pattern_free_before_app. simpl app.
  rewrite (pattern_free_before_quote body rest H).
  rewrite !pattern_free_before_plain by reflexivity. reflexivity.
Qed.

(** *** The substitutions on text without a match *)

Lemma sub_key_free (fuel : nat) (s : str) :
  pattern_free s = true -> sub_key fuel s = s.
Proof.
  unfold pattern_free. revert s.
  induction fuel as [|fuel IH]; intros s H; [reflexivity|].
  destruct s as [|c s]; [reflexivity|].
  cbn [pattern_free_before] in H. apply andb_true_iff in H.
  destruct H as [Hc Hs]. rewrite app_nil_r in Hc. unfold no_match in Hc.
  cbn [sub_key]. destruct (match_key (c :: s)); [discriminate|].
  rewrite (IH s Hs). reflexivity.
Qed.

Lemma sub_trailing_free (fuel : nat) (s : str) :
  pattern_free s = true -> sub_trailing fuel s = s.
Proof.
  unfold pattern_free. revert s.
  induction fuel as [|fuel IH]; intros s H; [reflexivity|].
  destruct s as [|c s]; [reflexivity|].
  cbn [pattern_free_before] in H. apply andb_true_iff in H.
  destruct H as [Hc Hs]. rewrite app_nil_r in Hc. unfold no_match in Hc.
  cbn [sub_trailing]. destruct (match_key (c :: s)); [discriminate|].
  destruct (match_trailing (c :: s)); [discriminate|].
  rewrite (IH s Hs). reflexivity.
Qed.

Lemma fix_json_free (s : str) : pattern_free s = true -> fix_json s = s.
Proof.
  intros H. unfold fix_json. rewrite (sub_key_free _ _ H).
  apply sub_trailing_free, H.
Qed.

(** *** Tokens *)

Lemma forallb_impl (p q : char -> bool) (s : str) :
  (forall c, p c = true -> q c = true) -> forallb p s = true -> forallb q s = true.
Proof.
  intros Hpq. induction s as [|c s IH]; simpl; [reflexivity|].
  intros H. apply andb_true_iff in H. destruct H as [Hc Hs].
  rewrite (Hpq _ Hc), (IH Hs). reflexivity.
Qed.

(** A token has no character at which a match starts; it begins with a
    character that is neither white space nor a closing bracket, and either
    that character does not start a name or the whole token is a name. *)
Lemma token_shape (tok : str) :
  wf_token tok = true ->
  forallb plain tok = true
  /\ exists h tl,
       tok = h :: tl /\ isspace h = false /\ is_close h = false
       /\ (ident_start h = false
           \/ (ident_start h = true /\ forallb ident_char tl = true)).
Proof.
  unfold wf_token. intros H. apply orb_true_iff in H. destruct H as [H|H].
  - apply existsb_exists in H. destruct H as (x & Hin & Hx).
    apply eqs_eq in Hx. subst x. simpl in Hin.
    repeat (destruct Hin as [<-|Hin]; [
      split; [reflexivity|]; eexists _, _; split; [reflexivity|];
      split; [reflexivity|]; split; [reflexivity|];
      first [left; reflexivity | right; split; reflexivity] |]).
    contradiction.
  - unfold is_number in H. apply andb_true_iff in H. destruct H as [Hc Hs].
    split; [exact (forallb_impl _ _ _ number_char_plain Hc)|].
    destruct tok as [|h tl]; [discriminate|]. exists h, tl.
    split; [reflexivity|].
    assert (Hh : h = 45%N \/ digit h = true).
    { unfold number_shape in Hs. destruct (N.eqb_spec h 45); [left; assumption|].
      right. unfold number_int in Hs.
      destruct (N.eqb_spec h 48); [subst; reflexivity|].
      destruct (digit h); [reflexivity | discriminate]. }
    destruct Hh as [-> | Hd].
    + repeat split; try reflexivity. left. reflexivity.
    + destruct (digit_head _ Hd) as (A & B & C). repeat split; auto.
Qed.

Lemma closes_items (more : items) (rest : str) :
  closes (print_items more ++ rbracket :: rest) = true.
Proof. destruct more; reflexivity. Qed.

(** The comma before an item of an array starts no match. *)
Lemma no_match_comma_value (w1 : str) (v : cst) (w2 y : str) :
  wf_ws w1 = true -> wf v = true -> wf_ws w2 = true -> closes y = true ->
  no_match (comma :: w1 ++ print v ++ w2 ++ y) = true.
Proof.
  intros Hw1 Hv Hw2 Hy. destruct v; cbn [print wf] in *.
  - destruct (token_shape _ Hv) as (_ & h & tl & -> & Hs & Hc & [Hi|[Hi Htl]]).
    + apply no_match_comma_then; assumption.
    + apply no_match_comma_name; assumption.
  - apply no_match_comma_then; auto.
  - apply no_match_comma_then; auto.
  - apply no_match_comma_then; auto.
  - apply no_match_comma_then; auto.
  - apply no_match_comma_then; auto.
Qed.

(** *** Valid JSON text with quiet strings has no match *)

Ltac flat := repeat (progress (cbn [app]; rewrite <- ?app_assoc)).

Lemma quiet_text :
  (forall v, wf v = true -> quiet_strings v = true ->
             forall rest, pattern_free_before rest (print v) = true)
  /\ (forall l, wf_items l = true -> quiet_items l = true ->
                forall rest,
                  pattern_free_before (rbracket :: rest) (print_items l) = true)
  /\ (forall m, wf_members m = true -> quiet_members m = true ->
                forall rest,
                  pattern_free_before (rbrace :: rest) (print_members m) = true).
Proof.
  apply cst_mutind.
  - (* literal *)
    intros tok Hw _ rest. cbn [print].
    apply pattern_free_before_plain. exact (proj1 (token_shape _ Hw)).
  - (* string *)
    intros body _ Hq rest. cbn [print quiet_strings] in *.
    apply pattern_free_before_quoted, Hq.
  - (* empty array *)
    intros ws Hw _ rest. cbn [print wf] in *.
    apply pattern_free_before_plain. cbn [forallb].
    rewrite forallb_app, (ws_all_plain _ Hw). reflexivity.
  - (* array *)
    intros w1 v IHv w2 more IHm Hw Hq rest. cbn [print wf quiet_strings] in *.
    apply andb_true_iff in Hq. destruct Hq as [Hqv Hqm].
    apply andb_true_iff in Hw. destruct Hw as [Hw Hwm].
    apply andb_true_iff in Hw. destruct Hw as [Hw Hw2].
    apply andb_true_iff in Hw. destruct Hw as [Hw1 Hwv].
    cbn [pattern_free_before app]. rewrite no_match_plain by reflexivity.
    rewrite !pattern_free_before_app.
    rewrite (pattern_free_before_plain _ w1 (ws_all_plain _ Hw1)).
    rewrite (IHv Hwv Hqv).
    rewrite (pattern_free_before_plain _ w2 (ws_all_plain _ Hw2)).
    change ([rbracket] ++ rest) with (rbracket :: rest).
    rewrite (IHm Hwm Hqm rest).
    reflexivity.
  - (* empty object *)
    intros ws Hw _ rest. cbn [print wf] in *.
    cbn [pattern_free_before].
    change ((lbrace :: ws ++ [rbrace]) ++ rest)
      with (lbrace :: (ws ++ [rbrace]) ++ rest).
    rewrite <- app_assoc. cbn [app].
    rewrite no_match_brace_then by (assumption || reflexivity).
    apply pattern_free_before_plain.
    rewrite forallb_app, (ws_all_plain _ Hw). reflexivity.
  - (* object *)
    intros w1 key w2 w3 v IHv w4 more IHm Hw Hq rest.
    cbn [print wf quiet_strings] in *.
    apply andb_true_iff in Hq. destruct Hq as [Hq Hqm].
    apply andb_true_iff in Hq. destruct Hq as [Hqk Hqv].
    apply andb_true_iff in Hw. destruct Hw as [Hw Hwm].
    apply andb_true_iff in Hw. destruct Hw as [Hw Hw4].
    apply andb_true_iff in Hw. destruct Hw as [Hw Hwv].
    apply andb_true_iff in Hw. destruct Hw as [Hw Hw3].
    apply andb_true_iff in Hw. destruct Hw as [Hw Hw2].
    apply andb_true_iff in Hw. destruct Hw as [Hw1 _].
    cbn [pattern_free_before].
    replace ((lbrace :: w1 ++ quoted key ++ w2 ++ colon :: w3 ++ print v ++ w4
                ++ print_members more ++ [rbrace]) ++ rest)
      with (lbrace :: w1 ++ dquote ::
              ((key ++ [dquote]) ++ w2 ++ colon :: w3 ++ print v ++ w4
                 ++ print_members more ++ [rbrace]) ++ rest)
      by (unfold quoted; flat; reflexivity).
    rewrite no_match_brace_then by (assumption || reflexivity).
    change (colon :: w3 ++ print v ++ w4 ++ print_members more ++ [rbrace])
      with ([colon] ++ w3 ++ print v ++ w4 ++ print_members more ++ [rbrace]).
    rewrite !pattern_free_before_app.
    rewrite (pattern_free_before_plain _ w1 (ws_all_plain _ Hw1)).
    rewrite (pattern_free_before_quoted _ _ Hqk).
    rewrite (pattern_free_before_plain _ w2 (ws_all_plain _ Hw2)).
    rewrite (pattern_free_before_plain _ w3 (ws_all_plain _ Hw3)).
    rewrite (IHv Hwv Hqv).
    rewrite (pattern_free_before_plain _ w4 (ws_all_plain _ Hw4)).
    change ([rbrace] ++ rest) with (rbrace :: rest).
    rewrite (IHm Hwm Hqm rest).
    reflexivity.
  - (* no more items *)
    intros _ _ rest. reflexivity.
  - (* one more item *)
    intros w1 v IHv w2 more IHm Hw Hq rest.
    cbn [print_items wf_items quiet_items] in *.
    apply andb_true_iff in Hq. destruct Hq as [Hqv Hqm].
    apply andb_true_iff in Hw. destruct Hw as [Hw Hwm].
    apply andb_true_iff in Hw. destruct Hw as [Hw Hw2].
    apply andb_true_iff in Hw. destruct Hw as [Hw1 Hwv].
    cbn [pattern_free_before].
    replace ((comma :: w1 ++ print v ++ w2 ++ print_items more)
               ++ rbracket :: rest)
      with (comma :: w1 ++ print v ++ w2 ++ print_items more ++ rbracket :: rest)
      by (flat; reflexivity).
    rewrite (no_match_comma_value w1 v w2 _ Hw1 Hwv Hw2 (closes_items more rest)).
    rewrite !pattern_free_before_app.
    rewrite (pattern_free_before_plain _ w1 (ws_all_plain _ Hw1)).
    rewrite (IHv Hwv Hqv).
    rewrite (pattern_free_before_plain _ w2 (ws_all_plain _ Hw2)).
    rewrite (IHm Hwm Hqm rest).
    reflexivity.
  - (* no more members *)
    intros _ _ rest. reflexivity.
  - (* one more member *)
    intros w1 key w2 w3 v IHv w4 more IHm Hw Hq rest.
    cbn [print_members wf_members quiet_members] in *.
    apply andb_true_iff in Hq. destruct Hq as [Hq Hqm].
    apply andb_true_iff in Hq. destruct Hq as [Hqk Hqv].
    apply andb_true_iff in Hw. destruct Hw as [Hw Hwm].
    apply andb_true_iff in Hw. destruct Hw as [Hw Hw4].
    apply andb_true_iff in Hw. destruct Hw as [Hw Hwv].
    apply andb_true_iff in Hw. destruct Hw as [Hw Hw3].
    apply andb_true_iff in Hw. destruct Hw as [Hw Hw2].
    apply andb_true_iff in Hw. destruct Hw as [Hw1 _].
    cbn [pattern_free_before].
    replace ((comma :: w1 ++ quoted key ++ w2 ++ colon :: w3 ++ print v ++ w4
                ++ print_members more) ++ rbrace :: rest)
      with (comma :: w1 ++ dquote ::
              ((key ++ [dquote]) ++ w2 ++ colon :: w3 ++ print v ++ w4
                 ++ print_members more) ++ rbrace :: rest)
      by (unfold quoted; flat; reflexivity).
    rewrite no_match_comma_then by (assumption || reflexivity).
    change (colon :: w3 ++ print v ++ w4 ++ print_members more)
      with ([colon] ++ w3 ++ print v ++ w4 ++ print_members more).
    rewrite !pattern_free_before_app.
    rewrite (pattern_free_before_plain _ w1 (ws_all_plain _ Hw1)).
    rewrite (pattern_free_before_quoted _ _ Hqk).
    rewrite (pattern_free_before_plain _ w2 (ws_all_plain _ Hw2)).
    rewrite (pattern_free_before_plain _ w3 (ws_all_plain _ Hw3)).
    rewrite (IHv Hwv Hqv).
    rewrite (pattern_free_before_plain _ w4 (ws_all_plain _ Hw4)).
    rewrite (IHm Hwm Hqm rest).
    reflexivity.
Qed.

(** C3, as amended.  Text in which neither pattern matches anywhere comes
    back from [fix_json] unchanged, and every valid JSON text whose string
    literals, keys and values, contain neither pattern is such a text: it is
    returned byte for byte, its quoted keys are not quoted again. *)
Theorem fix_json_keeps_json_with_quiet_strings :
  (forall s, pattern_free s = true -> fix_json s = s)
  /\ (forall d, wf_document d = true -> quiet_strings (value d) = true ->
        pattern_free (print_document d) = true
        /\ fix_json (print_document d) = print_document d).
Proof.
  split; [exact fix_json_free|].
  intros d Hw Hq.
  assert (Hfree : pattern_free (print_document d) = true).
  { unfold wf_document in Hw.
    apply andb_true_iff in Hw. destruct Hw as [Hw Hw2].
    apply andb_true_iff in Hw. destruct Hw as [Hw1 Hwv].
    unfold pattern_free, print_document.
    rewrite !pattern_free_before_app.
    rewrite (pattern_free_before_plain _ _ (ws_all_plain _ Hw1)).
    rewrite (proj1 quiet_text _ Hwv Hq).
    rewrite (pattern_free_before_plain _ _ (ws_all_plain _ Hw2)).
    reflexivity. }
  split; [exact Hfree | exact (fix_json_free _ Hfree)].
Qed.

End Repair_facts.

(** C3, as stated, fails: a valid JSON text whose string value holds a
    comma, a word and a colon is rewritten inside the string. *)
Lemma fix_json_rewrites_inside_string :
  JsonText.wf_document JsonText.note_document = true
  /\ JsonText.print_document JsonText.note_document
     = js "{'a': 'x, note: see map'}"
  /\ fix_json (JsonText.print_document JsonText.note_document)
     = js "{'a': 'x, 'note': see map'}"
  /\ fix_json (JsonText.print_document JsonText.note_document)
     <> JsonText.print_document JsonText.note_document.
Proof.
  repeat split; try (vm_compute; reflexivity).
  vm_compute. discriminate.
Qed.

Lemma fix_json_keeps_json_with_quiet_strings_witness :
  JsonText.wf_document JsonText.days_document = true
  /\ JsonText.quiet_strings (JsonText.value JsonText.days_document) = true
  /\ fix_json (JsonText.print_document JsonText.days_document)
     = JsonText.print_document JsonText.days_document
  /\ fix_json (js "{'days': [{'day': 1}]}") = js "{'days': [{'day': 1}]}".
Proof.
  destruct fix_json_keeps_json_with_quiet_strings as (H1 & H2).
  split; [reflexivity|]. split; [reflexivity|]. split.
  - exact (proj2 (H2 JsonText.days_document eq_refl eq_refl)).
  - exact (H1 (js "{'days': [{'day': 1}]}") eq_refl).
Defined.

(** The repair on the malformed text of the specification. *)
Example fix_json_repairs_bare_keys :
  fix_json (u "{days: [{day: 1,}]}") = js "{'days': [{'day': 1}]}".
Proof. vm_compute. reflexivity. Qed.

(** * Further properties of the code *)

(** ** The locator returns a piece of its input *)

Section Locator_pieces.

Import Locator.

Lemma infix_refl (s : str) : infix s s.
Proof. exists [], []. rewrite app_nil_r. reflexivity. Qed.

Lemma infix_trans (a b c : str) : infix a b -> infix b c -> infix a c.
Proof.
  intros (p1 & q1 & ->) (p2 & q2 & ->). exists (p2 ++ p1), (q1 ++ q2).
  rewrite <- !app_assoc. reflexivity.
Qed.

Lemma infix_skipn (n : nat) (s : str) : infix (skipn n s) s.
Proof.
  exists (firstn n s), []. rewrite app_nil_r. symmetry. apply firstn_skipn.
Qed.

Lemma infix_firstn (n : nat) (s : str) : infix (firstn n s) s.
Proof. exists [], (skipn n s). symmetry. apply firstn_skipn. Qed.

Lemma infix_lstrip (s : str) : infix (lstrip s) s.
Proof.
  induction s as [|c s IH]; simpl; [apply infix_refl|].
  destruct (isspace c); [|apply infix_refl].
  eapply infix_trans; [exact IH|]. exists [c], []. rewrite app_nil_r.
  reflexivity.
Qed.

Lemma infix_rev (a b : str) : infix a b -> infix (rev a) (rev b).
Proof.
  intros (p & q & ->). exists (rev q), (rev p).
  rewrite !rev_app_distr, <- app_assoc. reflexivity.
Qed.

Lemma infix_rstrip (s : str) : infix (rstrip s) s.
Proof.
  unfold rstrip. rewrite <- (rev_involutive s) at 2.
  apply infix_rev, infix_lstrip.
Qed.

Lemma infix_strip (s : str) : infix (strip s) s.
Proof.
  unfold strip. eapply infix_trans; [apply infix_rstrip | apply infix_lstrip].
Qed.

Lemma infix_strip_marker (cleaned marker : str) :
  infix (strip_marker cleaned marker) cleaned.
Proof.
  unfold strip_marker, slice_from, drop_last.
  set (c1 := if startswith cleaned marker then _ else cleaned).
  assert (H1 : infix c1 cleaned).
  { subst c1. destruct (startswith cleaned marker); [|apply infix_refl].
    eapply infix_trans; [apply infix_strip | apply infix_skipn]. }
  destruct (endswith c1 marker); [|exact H1].
  eapply infix_trans; [|exact H1].
  eapply infix_trans; [apply infix_strip | apply infix_firstn].
Qed.

Lemma infix_clean (raw : str) : infix (clean raw) raw.
Proof.
  unfold clean. generalize markers. intros ms.
  assert (H : forall s, infix s raw -> infix (fold_left strip_marker ms s) raw).
  { induction ms as [|m ms IH]; intros s Hs; [exact Hs|].
    simpl. apply IH. eapply infix_trans; [apply infix_strip_marker | exact Hs]. }
  apply H, infix_strip.
Qed.

(** X1. Whatever the reply is, the locator returns one contiguous piece of
    it: nothing is added, reordered or taken from two places. *)
Theorem locator_returns_a_piece (raw : str) :
  infix (extract_json_from_model_output raw) raw.
Proof.
  unfold extract_json_from_model_output. destruct raw as [|c raw].
  - apply infix_refl.
  - cbv zeta. set (r := c :: raw).
    destruct (start_index (clean r) =? -1)%Z; [apply infix_clean|].
    destruct (negb _).
    + eapply infix_trans; [|apply infix_clean]. unfold slice.
      eapply infix_trans; [apply infix_firstn | apply infix_skipn].
    + eapply infix_trans; [|apply infix_clean]. apply infix_skipn.
Qed.

End Locator_pieces.

(** ** The scan of the locator *)

Section Locator_scan.

Import Locator.

Lemma open_not_close (c : char) : is_open c = true -> is_close c = false.
Proof.
  unfold is_open, is_close, eqc, lbrace, rbrace, lbracket, rbracket.
  destruct (N.eqb_spec c 123); [subst; reflexivity|].
  destruct (N.eqb_spec c 91); [subst; reflexivity|]. discriminate.
Qed.

Lemma find_from_found (c : char) (s : str) (i : Z) :
  find_from c s i <> (-1)%Z -> (0 <= i)%Z ->
  (i <= find_from c s i)%Z
  /\ exists t, skipn (Z.to_nat (find_from c s i - i)) s = c :: t.
Proof.
  revert i. induction s as [|x s IH]; intros i H Hi; simpl in *.
  - congruence.
  - destruct (eqc x c) eqn:E.
    + apply eqc_eq in E. subst x. split; [lia|].
      replace (i - i)%Z with 0%Z by lia. simpl. eauto.
    + destruct (IH (i + 1)%Z H) as (Hle & t & Ht); [lia|].
      split; [lia|]. exists t.
      replace (Z.to_nat (find_from c s (i + 1) - i))
        with (S (Z.to_nat (find_from c s (i + 1) - (i + 1)))) by lia.
      exact Ht.
Qed.

(** At the start index there is an opening delimiter. *)
Lemma start_index_opens (cleaned : str) :
  start_index cleaned <> (-1)%Z ->
  (0 <= start_index cleaned)%Z
  /\ exists c t, slice_from cleaned (start_index cleaned) = c :: t
                 /\ is_open c = true.
Proof.
  unfold start_index, find, slice_from. intros H.
  destruct (Z.max_spec (find_from lbrace cleaned 0) (find_from lbracket cleaned 0))
    as [[Hlt E]|[Hle E]]; rewrite E in *.
  - destruct (find_from_found lbracket cleaned 0 H (Z.le_refl 0)) as (Hp & t & Ht).
    split; [exact Hp|]. exists lbracket, t.
    rewrite Z.sub_0_r in Ht. split; [exact Ht | reflexivity].
  - destruct (find_from_found lbrace cleaned 0 H (Z.le_refl 0)) as (Hp & t & Ht).
    split; [exact Hp|]. exists lbrace, t.
    rewrite Z.sub_0_r in Ht. split; [exact Ht | reflexivity].
Qed.

(** With a delimiter open, a scan that stops does so at a closing delimiter,
    where the depth first comes down to zero. *)
Lemma scan_stops (k : Z) (s : str) :
  forall (stack : list char) (i : Z),
    stack <> [] -> scan k stack i s <> (-1)%Z ->
    exists n c,
      scan k stack i s = (k + i + Z.of_nat n)%Z
      /\ nth_error s n = Some c /\ is_close c = true
      /\ opens (firstn (S n) s) + length stack = closes (firstn (S n) s)
      /\ forall m, m <= n ->
           closes (firstn m s) < opens (firstn m s) + length stack.
Proof.
  unfold opens, closes.
  induction s as [|c s IH]; intros stack i Hst H; simpl in H; [congruence|].
  destruct (is_open c) eqn:Ho.
  - destruct (IH (c :: stack) (i + 1)%Z) as (n & d & E & Hn & Hd & Hb & Hp);
      [discriminate | exact H |].
    exists (S n), d. simpl scan. rewrite Ho.
    split; [rewrite E; lia|]. split; [exact Hn|]. split; [exact Hd|].
    split.
    + cbn [firstn filter]. rewrite Ho, (open_not_close _ Ho).
      simpl length in *. lia.
    + intros [|m] Hm; [simpl; destruct stack; [congruence | simpl; lia]|].
      cbn [firstn filter]. rewrite Ho, (open_not_close _ Ho).
      specialize (Hp m ltac:(lia)). simpl length in *. lia.
  - destruct (is_close c) eqn:Hc.
    + destruct stack as [|x [|y rest]]; [congruence| |].
      * exists 0, c. simpl scan. rewrite Ho, Hc.
        split; [lia|]. split; [reflexivity|]. split; [reflexivity|]. split.
        -- cbn [firstn filter]. rewrite Ho, Hc. reflexivity.
        -- intros m Hm. replace m with 0 by lia. simpl. lia.
      * destruct (IH (y :: rest) (i + 1)%Z) as (n & d & E & Hn & Hd & Hb & Hp);
          [discriminate | exact H |].
        exists (S n), d. simpl scan. rewrite Ho, Hc.
        split; [rewrite E; lia|]. split; [exact Hn|]. split; [exact Hd|].
        split.
        -- cbn [firstn filter]. rewrite Ho, Hc. simpl length in *. lia.
        -- intros [|m] Hm; [simpl; lia|].
           cbn [firstn filter]. rewrite Ho, Hc.
           specialize (Hp m ltac:(lia)). simpl length in *. lia.
    + destruct (IH stack (i + 1)%Z Hst H) as (n & d & E & Hn & Hd & Hb & Hp).
      exists (S n), d. simpl scan. rewrite Ho, Hc.
      split; [rewrite E; lia|]. split; [exact Hn|]. split; [exact Hd|].
      split.
      * cbn [firstn filter]. rewrite Ho, Hc. exact Hb.
      * intros [|m] Hm; [simpl; destruct stack; [congruence | simpl; lia]|].
        cbn [firstn filter]. rewrite Ho, Hc. apply Hp. lia.
Qed.

(** The scan looks at the kind of a character only: which delimiter opens
    and which one closes plays no part. *)
Lemma scan_same_kind (k : Z) (s s' : str) :
  Forall2 same_kind s s' ->
  forall (stack stack' : list char) (i : Z),
    length stack = length stack' ->
    scan k stack i s = scan k stack' i s'.
Proof.
  induction 1 as [|c c' s s' [Ho Hc] _ IH]; intros stack stack' i Hl;
    [reflexivity|].
  simpl. rewrite <- Ho, <- Hc.
  destruct (is_open c).
  - apply IH. simpl. lia.
  - destruct (is_close c); [|apply IH; exact Hl].
    destruct stack as [|x [|y rest]], stack' as [|x' [|y' rest']];
      simpl in Hl; try discriminate; try reflexivity.
    + apply IH. reflexivity.
    + apply IH. simpl in *. lia.
Qed.

(** With a delimiter open, a scan that runs to the end has seen the depth
    stay above zero all the way. *)
Lemma scan_never_stops (k : Z) (s : str) :
  forall (stack : list char) (i : Z),
    stack <> [] -> scan k stack i s = (-1)%Z -> (0 <= k + i)%Z ->
    forall m, closes (firstn m s) < opens (firstn m s) + length stack.
Proof.
  unfold opens, closes.
  induction s as [|c s IH]; intros stack i Hst H Hk m.
  - rewrite firstn_nil. simpl. destruct stack; [congruence | simpl; lia].
  - destruct m as [|m]; [simpl; destruct stack; [congruence | simpl; lia]|].
    simpl in H. cbn [firstn filter].
    destruct (is_open c) eqn:Ho.
    + rewrite (open_not_close _ Ho).
      specialize (IH (c :: stack) (i + 1)%Z ltac:(discriminate) H ltac:(lia) m).
      simpl length in *. lia.
    + destruct (is_close c) eqn:Hc.
      * destruct stack as [|x [|y rest]]; [congruence | lia |].
        specialize (IH (y :: rest) (i + 1)%Z ltac:(discriminate) H ltac:(lia) m).
        simpl length in *. lia.
      * apply (IH stack (i + 1)%Z Hst H). lia.
Qed.

Lemma opens_cons_open (c : char) (s : str) :
  is_open c = true -> opens (c :: s) = S (opens s) /\ closes (c :: s) = closes s.
Proof.
  intros H. unfold opens, closes. simpl.
  rewrite H, (open_not_close _ H). split; reflexivity.
Qed.

Lemma has_open_start (cleaned : str) :
  existsb is_open cleaned = true -> start_index cleaned <> (-1)%Z.
Proof.
  intros H E. apply start_index_none in E.
  induction cleaned as [|c s IH]; simpl in *; [discriminate|].
  apply andb_true_iff in E. destruct E as [E1 E2].
  apply negb_true_iff in E1. rewrite E1 in H. simpl in H. exact (IH H E2).
Qed.

(** X2. When the cleaned reply holds a brace or a bracket that opens, the
    result of the locator begins with such a delimiter. *)
Theorem locator_result_starts_with_delimiter (raw : str) :
  existsb is_open (clean raw) = true ->
  exists c t, extract_json_from_model_output raw = c :: t /\ is_open c = true.
Proof.
  intros Hex. pose proof (has_open_start _ Hex) as Hs.
  destruct (start_index_opens _ Hs) as (Hpos & c & t & Ht & Hc).
  unfold extract_json_from_model_output.
  destruct raw as [|r0 raw]; [vm_compute in Hex; discriminate|].
  cbv zeta. set (r := r0 :: raw) in *.
  apply Z.eqb_neq in Hs. rewrite Hs.
  unfold slice, slice_from in *. rewrite Ht. simpl scan. rewrite Hc.
  destruct (scan (start_index (clean r)) [c] 1 t =? -1)%Z eqn:Hscan;
    simpl negb; cbv iota.
  - exists c, t. split; [reflexivity | exact Hc].
  - apply Z.eqb_neq in Hscan.
    destruct (scan_stops _ t [c] 1 ltac:(discriminate) Hscan)
      as (n & d & E & _).
    rewrite E.
    replace (Z.to_nat (start_index (clean r) + 1 + Z.of_nat n + 1
                       - start_index (clean r)))
      with (S (S n)) by lia.
    exists c, (firstn (S n) t). split; [reflexivity | exact Hc].
Qed.

(** X3. The result of the locator is the shortest balanced beginning of the
    text from the start index on: it has as many closing as opening
    delimiters and ends with a closing one, while each shorter beginning has
    more opening ones; when no beginning is balanced the result is all of
    that text, which then has more opening than closing delimiters. *)
Theorem locator_result_is_shortest_balanced (raw : str) :
  existsb is_open (clean raw) = true ->
  let tail := slice_from (clean raw) (start_index (clean raw)) in
  let out := extract_json_from_model_output raw in
  exists n,
    out = firstn n tail /\ 0 < n <= length tail
    /\ (forall m, 0 < m < n -> closes (firstn m tail) < opens (firstn m tail))
    /\ ((opens out = closes out
         /\ exists c, nth_error out (n - 1) = Some c /\ is_close c = true)
        \/ (out = tail /\ closes out < opens out)).
Proof.
  intros Hex. pose proof (has_open_start _ Hex) as Hs.
  destruct (start_index_opens _ Hs) as (Hpos & c & t & Ht & Hc).
  unfold extract_json_from_model_output.
  destruct raw as [|r0 raw]; [vm_compute in Hex; discriminate|].
  cbv zeta. set (r := r0 :: raw) in *.
  apply Z.eqb_neq in Hs. rewrite Hs.
  unfold slice, slice_from in *. rewrite Ht. simpl scan. rewrite Hc.
  destruct (scan (start_index (clean r)) [c] 1 t =? -1)%Z eqn:Hscan;
    simpl negb; cbv iota.
  - apply Z.eqb_eq in Hscan.
    pose proof (scan_never_stops _ t [c] 1 ltac:(discriminate) Hscan
                  ltac:(lia)) as Hp.
    exists (length (c :: t)). rewrite firstn_all.
    split; [reflexivity|]. split; [simpl; lia|]. split.
    + intros [|m] Hm; [lia|]. cbn [firstn].
      destruct (opens_cons_open c (firstn m t) Hc) as [-> ->].
      specialize (Hp m). simpl in Hp. lia.
    + right. split; [reflexivity|].
      destruct (opens_cons_open c t Hc) as [-> ->].
      specialize (Hp (length t)). rewrite firstn_all in Hp. simpl in Hp. lia.
  - apply Z.eqb_neq in Hscan.
    destruct (scan_stops _ t [c] 1 ltac:(discriminate) Hscan)
      as (n & d & E & Hn & Hd & Hb & Hp).
    rewrite E.
    replace (Z.to_nat (start_index (clean r) + 1 + Z.of_nat n + 1
                       - start_index (clean r)))
      with (S (S n)) by lia.
    exists (S (S n)). split; [reflexivity|].
    assert (Hlen : n < length t) by (apply nth_error_Some; congruence).
    split; [simpl; lia|]. split.
    + intros [|m] Hm; [lia|]. cbn [firstn].
      destruct (opens_cons_open c (firstn m t) Hc) as [-> ->].
      specialize (Hp m ltac:(lia)). simpl in Hp. lia.
    + left. change (firstn (S (S n)) (c :: t)) with (c :: firstn (S n) t).
      destruct (opens_cons_open c (firstn (S n) t) Hc) as [-> ->].
      split; [change (length [c]) with 1 in Hb; lia|].
      exists d. split; [|exact Hd].
      replace (S (S n) - 1) with (S n) by lia. cbn [nth_error].
      rewrite nth_error_firstn.
      destruct (Nat.ltb_spec n (S n)); [exact Hn | lia].
Qed.

(** X4. The scan does not check that a closing delimiter is of the kind of
    the one it closes: texts that agree on where delimiters open and close
    are cut at the same place. *)
Theorem locator_scan_ignores_delimiter_kind (k : Z) (s s' : str) :
  Forall2 same_kind s s' -> scan k [] 0 s = scan k [] 0 s'.
Proof. intros H. apply scan_same_kind; [exact H | reflexivity]. Qed.

End Locator_scan.

Lemma locator_result_starts_with_delimiter_witness :
  exists c t,
    Locator.extract_json_from_model_output Examples.fenced_reply = c :: t
    /\ Locator.is_open c = true.
Proof.
  apply locator_result_starts_with_delimiter. vm_compute. reflexivity.
Defined.

Lemma locator_result_is_shortest_balanced_witness :
  exists n,
    Locator.extract_json_from_model_output Examples.truncated_reply
    = firstn n (slice_from (Locator.clean Examples.truncated_reply)
                  (Locator.start_index (Locator.clean Examples.truncated_reply)))
    /\ 0 < n.
Proof.
  destruct (locator_result_is_shortest_balanced Examples.truncated_reply eq_refl)
    as (n & H1 & H2 & _).
  exists n. split; [exact H1 | lia].
Defined.

Lemma locator_scan_ignores_delimiter_kind_witness :
  Locator.scan 0 [] 0 (u "{[1]}") = Locator.scan 0 [] 0 (u "[{1]]").
Proof.
  apply locator_scan_ignores_delimiter_kind.
  repeat constructor.
Defined.


(** ** Percent-encoding *)

Section Url_facts.

Import Url.

Lemma bind_ok {A B : Type} (m : Py A) (k : A -> Py B) (b : B) :
  bind m k = Ok b -> exists a, m = Ok a /\ k a = Ok b.
Proof. destruct m as [a|e]; simpl; [eauto | discriminate]. Qed.

Lemma mapM_app {A B : Type} (f : A -> Py B) (l1 l2 : list A) :
  mapM f (l1 ++ l2) = (x <- mapM f l1 ;; y <- mapM f l2 ;; Ok (x ++ y)).
Proof.
  induction l1 as [|a l1 IH]; simpl.
  - destruct (mapM f l2); reflexivity.
  - destruct (f a); simpl; [|reflexivity]. rewrite IH.
    destruct (mapM f l1); simpl; [|reflexivity].
    destruct (mapM f l2); reflexivity.
Qed.

Lemma mapM_ext_in {A B : Type} (f g : A -> Py B) (l : list A) :
  (forall a, In a l -> f a = g a) -> mapM f l = mapM g l.
Proof.
  induction l as [|a l IH]; intros H; simpl; [reflexivity|].
  rewrite (H a (or_introl eq_refl)), IH; [reflexivity|].
  intros b Hb. apply H. right. exact Hb.
Qed.

(** [replace] with one-character texts works character by character. *)
Lemma replace_go_char (a b : char) (n : nat) (s : str) :
  length s <= n -> replace_go n [a] [b] s = subst_char a b s.
Proof.
  revert s. induction n as [|n IH]; intros s Hn.
  - destruct s; [reflexivity | simpl in Hn; lia].
  - destruct s as [|c s]; [reflexivity|]. simpl.
    rewrite andb_true_r. destruct (eqc c a); simpl; f_equal;
      apply IH; simpl in Hn; lia.
Qed.

Lemma replace_char (a b : char) (s : str) :
  replace s [a] [b] = subst_char a b s.
Proof. apply replace_go_char. lia. Qed.

Lemma contains_char (s : str) (a : char) :
  contains s [a] = existsb (fun c => eqc c a) s.
Proof.
  induction s as [|c s IH]; [reflexivity|].
  simpl. rewrite andb_true_r, IH. reflexivity.
Qed.

(** *** Bytes of the UTF-8 form *)

Lemma lor_lt_pow2 (a b n : N) :
  (a < 2 ^ n -> b < 2 ^ n -> N.lor a b < 2 ^ n)%N.
Proof.
  intros Ha Hb. destruct (N.eq_dec (N.lor a b) 0) as [E|E].
  - rewrite E. apply N.neq_0_lt_0. apply N.pow_nonzero. discriminate.
  - apply N.log2_lt_pow2; [lia|]. rewrite N.log2_lor.
    destruct (N.eq_dec a 0) as [->|Ha0], (N.eq_dec b 0) as [->|Hb0];
      simpl in *; try congruence.
    + rewrite N.max_r by apply N.le_0_l. apply N.log2_lt_pow2; [lia | exact Hb].
    + rewrite N.max_l by apply N.le_0_l. apply N.log2_lt_pow2; [lia | exact Ha].
    + apply N.max_lub_lt; apply N.log2_lt_pow2; try lia; assumption.
Qed.

Lemma land_lt (a b n : N) : (b < n -> N.land a b < n)%N.
Proof.
  intros H. eapply N.le_lt_trans; [apply N.land_le_r | exact H].
Qed.

Lemma shiftr_lt (a k n : N) : (a < n * 2 ^ k -> N.shiftr a k < n)%N.
Proof.
  intros H. rewrite N.shiftr_div_pow2.
  apply N.Div0.div_lt_upper_bound. lia.
Qed.

Lemma lor_high (a x : N) : N.testbit a 7 = true -> N.lor a x <> 32%N.
Proof.
  intros Ha E.
  assert (H : N.testbit (N.lor a x) 7 = true)
    by (rewrite N.lor_spec, Ha; reflexivity).
  rewrite E in H. vm_compute in H. discriminate.
Qed.

Lemma lor_byte (a x : N) : (a < 256 -> x < 256 -> N.lor a x < 256)%N.
Proof. apply (lor_lt_pow2 a x 8). Qed.

Ltac byte_bound :=
  apply lor_byte;
  [ reflexivity
  | first [ apply land_lt; reflexivity
          | apply shiftr_lt;
            match goal with
            | |- (_ < ?m)%N => let v := eval vm_compute in m in change m with v
            end; lia ] ].

Ltac all_bytes tac :=
  repeat (apply Forall_cons; [tac|]); apply Forall_nil.

Lemma Ok_inj {A : Type} (a b : A) : Ok a = Ok b -> a = b.
Proof. intros H. injection H as ->. reflexivity. Qed.

Lemma utf8_char_bytes (c : char) (bs : list N) :
  utf8_char c = Ok bs ->
  Forall (fun b => b < 256)%N bs
  /\ (c <> 32%N -> Forall (fun b => b <> 32%N) bs)
  /\ ((c <? 55296) || ((57343 <? c) && (c <? 1114112)))%N = true.
Proof.
  unfold utf8_char.
  destruct (N.ltb_spec c 128).
  { intros E. apply Ok_inj in E. subst bs. split; [|split].
    - all_bytes lia.
    - intros H0. all_bytes assumption.
    - destruct (N.ltb_spec c 55296); [reflexivity | lia]. }
  destruct (N.ltb_spec c 2048).
  { intros E. apply Ok_inj in E. subst bs. split; [|split].
    - all_bytes byte_bound.
    - intros _. all_bytes ltac:(apply lor_high; reflexivity).
    - destruct (N.ltb_spec c 55296); [reflexivity | lia]. }
  destruct (N.ltb_spec c 65536).
  { destruct (N.leb_spec 55296 c), (N.leb_spec c 57343); cbn [andb];
      try discriminate;
      (intros E; apply Ok_inj in E; subst bs; split;
       [ all_bytes byte_bound
       | split;
         [ intros _; all_bytes ltac:(apply lor_high; reflexivity)
         | destruct (N.ltb_spec c 55296), (N.ltb_spec 57343 c),
             (N.ltb_spec c 1114112); simpl; try reflexivity; lia ] ]). }
  destruct (N.ltb_spec c 1114112); [|discriminate].
  intros E. apply Ok_inj in E. subst bs. split; [|split].
  - all_bytes byte_bound.
  - intros _. all_bytes ltac:(apply lor_high; reflexivity).
  - destruct (N.ltb_spec c 55296), (N.ltb_spec 57343 c), (N.ltb_spec c 1114112);
      simpl; try reflexivity; lia.
Qed.

End Url_facts.

Section Quote_plus_facts.

Import Url.

Lemma utf8_chunks (q : N -> str) (s : str) :
  (bs <- utf8 s ;; Ok (concat (map q bs)))
  = (chunks <- mapM (fun c => bs <- utf8_char c ;; Ok (concat (map q bs))) s ;;
     Ok (concat chunks)).
Proof.
  unfold utf8. induction s as [|c s IH]; [reflexivity|].
  cbn [mapM]. destruct (utf8_char c) as [b|e]; [|reflexivity].
  cbn [bind] in *.
  destruct (mapM utf8_char s) as [bs|e]; cbn [bind] in *.
  - destruct (mapM _ s) as [chunks|e]; cbn [bind] in *; [|discriminate].
    apply Ok_inj in IH. cbn [concat]. rewrite map_app, concat_app, IH.
    reflexivity.
  - destruct (mapM _ s) as [chunks|e']; cbn [bind] in *; congruence.
Qed.

Lemma quote_chunks (safe : list N) (s : str) :
  quote s safe
  = (chunks <- mapM (fun c => bs <- utf8_char c ;;
                              Ok (concat (map (quoter safe) bs))) s ;;
     Ok (concat chunks)).
Proof.
  rewrite <- utf8_chunks. unfold quote. destruct s; reflexivity.
Qed.

(** Applying a function that works character by character after the
    chunks are joined, or to each chunk. *)
Lemma mapM_then_map {A : Type} (f : A -> Py str) (h : char -> char)
    (l : list A) :
  (q <- (chunks <- mapM f l ;; Ok (concat chunks)) ;; Ok (map h q))
  = (chunks <- mapM (fun a => x <- f a ;; Ok (map h x)) l ;; Ok (concat chunks)).
Proof.
  induction l as [|a l IH]; [reflexivity|].
  cbn [mapM]. destruct (f a) as [x|e]; [|reflexivity]. cbn [bind] in *.
  destruct (mapM f l) as [xs|e]; cbn [bind] in *.
  - destruct (mapM _ l) as [ys|e]; cbn [bind] in *; [|discriminate].
    apply Ok_inj in IH. cbn [concat]. rewrite map_app, IH. reflexivity.
  - destruct (mapM _ l) as [ys|e']; cbn [bind] in *; congruence.
Qed.

Lemma hex_digit_not_space (d : N) : hex_digit d <> 32%N.
Proof. unfold hex_digit. destruct (N.ltb_spec d 10); lia. Qed.

Lemma always_safe_not_space (b : N) : always_safe b = true -> b <> 32%N.
Proof. intros H ->. vm_compute in H. discriminate. Qed.

Lemma quoter_no_space (b : N) :
  Forall (fun c => c <> 32%N) (quoter [] b).
Proof.
  unfold quoter. cbn [existsb]. rewrite orb_false_r.
  destruct (always_safe b) eqn:E.
  - constructor; [exact (always_safe_not_space _ E) | constructor].
  - repeat constructor; try apply hex_digit_not_space. discriminate.
Qed.

Lemma subst_char_absent (a b : char) (s : str) :
  Forall (fun c => c <> a) s -> subst_char a b s = s.
Proof.
  unfold subst_char. induction 1 as [|c s Hc _ IH]; [reflexivity|].
  cbn [map]. rewrite IH.
  destruct (eqc c a) eqn:E; [apply eqc_eq in E; contradiction | reflexivity].
Qed.

Lemma Forall_concat_map {A : Type} (P : char -> Prop) (f : A -> str)
    (l : list A) :
  (forall a, In a l -> Forall P (f a)) -> Forall P (concat (map f l)).
Proof.
  induction l as [|a l IH]; intros H; simpl; [constructor|].
  apply Forall_app. split; [apply H; left; reflexivity|].
  apply IH. intros b Hb. apply H. right. exact Hb.
Qed.

(** One code point under the safe set that holds the space, with the
    spaces then turned into plus signs. *)
Lemma quote_plus_char_spaced (c : char) :
  (x <- (bs <- utf8_char c ;; Ok (concat (map (quoter [32%N]) bs))) ;;
   Ok (subst_char 32%N 43%N x))
  = quote_plus_char c.
Proof.
  unfold quote_plus_char. destruct (N.eqb_spec c 32) as [->|Hc];
    [reflexivity|].
  destruct (utf8_char c) as [bs|e] eqn:E; [|reflexivity]. cbn [bind].
  destruct (utf8_char_bytes _ _ E) as (_ & Hb & _). specialize (Hb Hc).
  assert (Hq : map (quoter [32%N]) bs = map (quoter []) bs).
  { apply map_ext_in. intros b Hin. rewrite Forall_forall in Hb.
    unfold quoter. cbn [existsb].
    destruct (N.eqb_spec b 32) as [->|_];
      [exfalso; exact (Hb _ Hin eq_refl) | reflexivity]. }
  rewrite Hq. f_equal. apply subst_char_absent.
  apply Forall_concat_map. intros b _. apply quoter_no_space.
Qed.

Lemma replace_char_bind (m : Py str) :
  (q <- m ;; Ok (replace q [32%N] [43%N]))
  = (q <- m ;; Ok (subst_char 32%N 43%N q)).
Proof.
  destruct m; [|reflexivity]. cbn [bind]. rewrite replace_char. reflexivity.
Qed.

(** [quote_plus] works code point by code point. *)
Lemma quote_plus_chars (s : str) :
  quote_plus s = (chunks <- mapM quote_plus_char s ;; Ok (concat chunks)).
Proof.
  unfold quote_plus. rewrite contains_char.
  destruct (existsb (fun c => eqc c 32%N) s) eqn:Hsp; cbn [negb].
  - rewrite quote_chunks, replace_char_bind.
    unfold subst_char. rewrite mapM_then_map.
    f_equal. apply mapM_ext_in. intros c _. apply quote_plus_char_spaced.
  - rewrite quote_chunks. f_equal. apply mapM_ext_in. intros c Hin.
    unfold quote_plus_char.
    destruct (N.eqb_spec c 32) as [->|_]; [|reflexivity].
    exfalso. rewrite <- not_true_iff_false in Hsp. apply Hsp.
    apply existsb_exists. exists 32%N. split; [exact Hin | reflexivity].
Qed.

End Quote_plus_facts.

Section Maps_link_facts.

Import Url.

Lemma hex_digit_safe (d : N) : (d < 16)%N -> always_safe (hex_digit d) = true.
Proof.
  intros H.
  assert (E : (d = 0 \/ d = 1 \/ d = 2 \/ d = 3 \/ d = 4 \/ d = 5 \/ d = 6
               \/ d = 7 \/ d = 8 \/ d = 9 \/ d = 10 \/ d = 11 \/ d = 12
               \/ d = 13 \/ d = 14 \/ d = 15)%N) by lia.
  repeat (destruct E as [->|E]; [reflexivity|]). subst d. reflexivity.
Qed.

Lemma mapM_total_in {A B : Type} (f : A -> Py B) (g : A -> B) (l : list A) :
  (forall a, In a l -> f a = Ok (g a)) -> mapM f l = Ok (map g l).
Proof.
  intros H. rewrite (mapM_ext_in f (fun a => Ok (g a)) l H).
  apply mapM_total. reflexivity.
Qed.

Lemma quote_plus_char_keeps (c : char) :
  always_safe c = true -> quote_plus_char c = Ok [c].
Proof.
  intros H. unfold quote_plus_char.
  destruct (N.eqb_spec c 32) as [->|_]; [vm_compute in H; discriminate|].
  assert (Hc : (c < 128)%N).
  { unfold always_safe in H.
    repeat (match type of H with
            | context [N.leb ?a ?b] => destruct (N.leb_spec a b)
            | context [N.eqb ?a ?b] => destruct (N.eqb_spec a b)
            end; simpl in H; try lia; try discriminate). }
  unfold utf8_char. destruct (N.ltb_spec c 128); [|lia]. cbn [bind map concat].
  unfold quoter. rewrite H. reflexivity.
Qed.

Lemma quoter_safe (b : N) :
  (b < 256)%N -> forallb url_safe (quoter [] b) = true.
Proof.
  intros Hb. unfold quoter. cbn [existsb]. rewrite orb_false_r.
  destruct (always_safe b) eqn:E; cbn [forallb]; unfold url_safe.
  - rewrite E. reflexivity.
  - rewrite !hex_digit_safe; [reflexivity | |].
    + apply land_lt. reflexivity.
    + apply shiftr_lt. exact Hb.
Qed.

Lemma forallb_concat (p : char -> bool) (l : list str) :
  Forall (fun x => forallb p x = true) l -> forallb p (concat l) = true.
Proof.
  induction 1 as [|x l Hx _ IH]; [reflexivity|].
  simpl. rewrite forallb_app, Hx, IH. reflexivity.
Qed.

Lemma quote_plus_char_safe (c : char) (x : str) :
  quote_plus_char c = Ok x -> forallb url_safe x = true.
Proof.
  unfold quote_plus_char. destruct (c =? 32)%N.
  - intros E. apply Ok_inj in E. subst x. reflexivity.
  - destruct (utf8_char c) as [bs|e] eqn:Eb; [|discriminate]. cbn [bind].
    intros E. apply Ok_inj in E. subst x.
    destruct (utf8_char_bytes _ _ Eb) as (Hb & _).
    apply forallb_concat. apply Forall_forall. intros y Hy.
    apply in_map_iff in Hy. destruct Hy as (b & <- & Hin).
    rewrite Forall_forall in Hb. apply quoter_safe, Hb, Hin.
Qed.

Lemma quote_plus_char_ok (c : char) :
  (exists x, quote_plus_char c = Ok x)
  <-> ((c <? 55296) || ((57343 <? c) && (c <? 1114112)))%N = true.
Proof.
  unfold quote_plus_char. split.
  - intros [x H]. destruct (N.eqb_spec c 32) as [->|_]; [reflexivity|].
    destruct (utf8_char c) as [bs|e] eqn:Eb; [|discriminate].
    exact (proj2 (proj2 (utf8_char_bytes _ _ Eb))).
  - intros H. destruct (c =? 32)%N; [eauto|].
    destruct (utf8_char_ok c H) as [bs ->]. cbn [bind]. eauto.
Qed.

(** X5. Percent-encoding goes code point by code point: the encoding of a
    text in two parts is the encoding of the first part followed by that of
    the second, and it fails where the first of them fails. *)
Theorem quote_plus_app (a b : str) :
  quote_plus (a ++ b) = (x <- quote_plus a ;; y <- quote_plus b ;; Ok (x ++ y)).
Proof.
  rewrite !quote_plus_chars, mapM_app.
  destruct (mapM quote_plus_char a) as [xs|e]; [|reflexivity]. cbn [bind].
  destruct (mapM quote_plus_char b) as [ys|e]; [|reflexivity]. cbn [bind].
  rewrite concat_app. reflexivity.
Qed.

(** X6. A generated link is the fixed search address followed by the encoded
    name, in which every character is a letter, a digit, one of [_.-~], a
    plus or a percent sign: no space and no character that would end or
    split the query. *)
Theorem maps_link_is_url_safe (place_name : json) (link : str) :
  generate_google_maps_link place_name = Ok link ->
  exists enc, link = maps_search ++ enc /\ forallb url_safe enc = true.
Proof.
  unfold generate_google_maps_link. destruct place_name; try discriminate.
  intros H. apply bind_ok in H. destruct H as (enc & He & H).
  apply Ok_inj in H. subst link. exists enc. split; [reflexivity|].
  rewrite quote_plus_chars in He. apply bind_ok in He.
  destruct He as (chunks & Hc & He). apply Ok_inj in He. subst enc.
  apply forallb_concat. apply mapM_ok_each in Hc.
  clear - Hc. induction Hc as [|c x s chunks Hx _ IH]; constructor.
  - exact (quote_plus_char_safe _ _ Hx).
  - exact IH.
Qed.

(** X7. A name made of letters, digits and [_.-~] only is put into the link
    as it is. *)
Theorem maps_link_keeps_safe_name (s : str) :
  forallb always_safe s = true ->
  generate_google_maps_link (JStr s) = Ok (maps_search ++ s).
Proof.
  intros H. unfold generate_google_maps_link.
  assert (E : quote_plus s = Ok s).
  { rewrite quote_plus_chars.
    rewrite (mapM_total_in quote_plus_char (fun c => [c])).
    - cbn [bind]. f_equal. clear H. induction s as [|c s IH]; [reflexivity|].
      simpl. f_equal. exact IH.
    - intros c Hin. apply quote_plus_char_keeps.
      rewrite forallb_forall in H. exact (H c Hin). }
  rewrite E. reflexivity.
Qed.

(** A call that returns was given a string that can be encoded. *)
Lemma maps_link_needs_encodable (place_name : json) (link : str) :
  generate_google_maps_link place_name = Ok link ->
  exists s, place_name = JStr s /\ encodable s = true.
Proof.
  intros H. unfold generate_google_maps_link in H.
  destruct place_name as [| | | | s | |]; try discriminate.
  exists s. split; [reflexivity|].
  apply bind_ok in H. destruct H as (enc & He & _).
  rewrite quote_plus_chars in He. apply bind_ok in He.
  destruct He as (chunks & Hc & _). apply mapM_ok_inputs in Hc.
  unfold encodable. apply forallb_forall. intros c Hin.
  rewrite Forall_forall in Hc. apply quote_plus_char_ok, Hc, Hin.
Qed.

(** X8. A link is generated exactly for a place name that is a string
    without surrogate code points; anything else, a missing string included,
    makes the call raise. *)
Theorem maps_link_generated_iff (place_name : json) :
  (exists link, generate_google_maps_link place_name = Ok link)
  <-> (exists s, place_name = JStr s /\ encodable s = true).
Proof.
  split.
  - intros [link H]. exact (maps_link_needs_encodable _ _ H).
  - intros (s & -> & H). destruct (quote_plus_ok _ H) as [enc He].
    exists (maps_search ++ enc). unfold generate_google_maps_link.
    rewrite He. reflexivity.
Qed.

End Maps_link_facts.

Lemma maps_link_is_url_safe_witness :
  exists enc,
    u "https://www.google.com/maps/search/?api=1&query=Caf%C3%A9+%26+bar"
    = Url.maps_search ++ enc
    /\ forallb url_safe enc = true.
Proof.
  apply (maps_link_is_url_safe (JStr (u "Caf" ++ [233%N] ++ u " & bar"))).
  vm_compute. reflexivity.
Defined.

Lemma maps_link_keeps_safe_name_witness :
  generate_google_maps_link (JStr (u "Louvre-Lens_2.0~"))
  = Ok (Url.maps_search ++ u "Louvre-Lens_2.0~").
Proof. apply maps_link_keeps_safe_name. vm_compute. reflexivity. Defined.

Lemma maps_link_generated_iff_witness :
  (exists link, generate_google_maps_link (JStr (u "Eiffel Tower")) = Ok link)
  /\ ~ (exists link, generate_google_maps_link (JStr [55357%N]) = Ok link)
  /\ ~ (exists link, generate_google_maps_link JNull = Ok link).
Proof.
  split; [|split].
  - apply maps_link_generated_iff. exists (u "Eiffel Tower").
    split; reflexivity.
  - intros H. apply maps_link_generated_iff in H.
    destruct H as (s & E & Hs). injection E as <-. vm_compute in Hs.
    discriminate.
  - intros H. apply maps_link_generated_iff in H.
    destruct H as (s & E & _). discriminate.
Defined.


(** ** More on the Result Normalizer *)

Section Normalizer_more.

Import Normalizer.

Local Arguments startswith : simpl never.
Local Arguments contains : simpl never.

Lemma mapM_ok_iff {A B : Type} (f : A -> Py B) (l : list A) :
  (exists l', mapM f l = Ok l') <-> Forall (fun a => exists b, f a = Ok b) l.
Proof.
  split; [intros [l' H]; exact (mapM_ok_inputs _ _ _ H) | apply mapM_all_ok].
Qed.

Lemma mapM_fixed {A : Type} (f : A -> Py A) (l l' : list A) :
  (forall a b, f a = Ok b -> f b = Ok b) -> mapM f l = Ok l' -> mapM f l' = Ok l'.
Proof.
  intros Hf H. apply mapM_ok_each in H.
  induction H as [|a b l l' Hab _ IH]; [reflexivity|].
  simpl. rewrite (Hf _ _ Hab), IH. reflexivity.
Qed.

(** *** Which activities pass *)

Lemma fix_activity_linked (d : dict) (link : str) :
  lookup k_map_link d = Some (JStr link) -> link <> [] ->
  startswith link Url.maps_prefix = true ->
  fix_activity (JObj d) = Ok (JObj d).
Proof.
  intros Hl Hne Hs. unfold fix_activity. simpl. rewrite Hl. simpl.
  destruct link; [congruence|]. simpl. rewrite Hs. reflexivity.
Qed.

Lemma fix_activity_fixed (a a' : json) :
  fix_activity a = Ok a' -> fix_activity a' = Ok a'.
Proof.
  intros H.
  destruct (fix_activity_ok _ _ H)
    as (d & -> & [(_ & t & enc & _ & _ & ->)|(_ & -> & link & Hl & Hne & Hs)]).
  - apply (fix_activity_linked _ (Url.maps_search ++ enc)).
    + apply lookup_assign_same.
    + apply maps_search_nonempty.
    + apply maps_search_prefix.
  - exact H.
Qed.

Lemma fix_activity_accepts (a : json) :
  (exists a', fix_activity a = Ok a') <-> Accept.activity a = true.
Proof.
  split.
  - intros [a' H].
    destruct (fix_activity_ok _ _ H)
      as (d & -> & [(Hn & t & enc & Ht & He & _)|(Hn & _ & link & Hl & Hne & Hs)]).
    + cbn [Accept.activity]. rewrite Hn, Ht.
      assert (Henc : encodable t = true).
      { assert (Hg : generate_google_maps_link (JStr t)
                     = Ok (Url.maps_search ++ enc)).
        { unfold generate_google_maps_link. rewrite He. reflexivity. }
        apply maps_link_needs_encodable in Hg. destruct Hg as (s & E & Hs).
        injection E as <-. exact Hs. }
      rewrite Henc, andb_true_r.
      unfold fix_activity, map_link_typed in *. simpl in H.
      destruct (lookup k_map_link d) as [v|]; [|reflexivity].
      destruct v as [| b | n | f | s | l | o]; simpl in *; try reflexivity;
        try (destruct b; [discriminate | reflexivity]);
        try (destruct (n =? 0)%Z; [reflexivity | discriminate]);
        try (destruct f; simpl in *; (reflexivity || discriminate));
        try (destruct l; simpl in *; (reflexivity || discriminate));
        try (destruct o; simpl in *; (reflexivity || discriminate)).
    + cbn [Accept.activity]. rewrite Hn. unfold map_link_typed. rewrite Hl.
      reflexivity.
  - destruct a as [| | | | | | d]; try discriminate. cbn [Accept.activity].
    intros H. apply andb_true_iff in H. destruct H as [Ht Hn].
    destruct (needs_link d) eqn:En.
    + destruct (lookup k_title d) as [[| | | | t | |]|] eqn:Et; try discriminate.
      exact (fix_activity_total d t Ht Et Hn).
    + unfold needs_link in En.
      destruct (lookup k_map_link d) as [v|] eqn:Ev; [|discriminate].
      apply orb_false_iff in En. destruct En as [E1 E2].
      apply negb_false_iff in E1, E2.
      destruct v; try discriminate.
      exists (JObj d). apply (fix_activity_linked d s Ev); [|exact E2].
      destruct s; [discriminate | discriminate].
Qed.

Lemma forallb_accepts {A : Type} (f : A -> Py A) (p : A -> bool) (l : list A) :
  (forall a, (exists b, f a = Ok b) <-> p a = true) ->
  (exists l', mapM f l = Ok l') <-> forallb p l = true.
Proof.
  intros H. rewrite mapM_ok_iff, forallb_forall, Forall_forall.
  split; intros Hl a Hin; apply H, Hl, Hin.
Qed.

(** *** Which days pass *)

Lemma with_activities_lookup (d : dict) :
  lookup k_activities (with_activities d)
  = Some (match lookup k_activities d with Some acts => acts | None => JArr [] end).
Proof.
  unfold with_activities. destruct (lookup k_activities d) eqn:E.
  - exact E.
  - apply lookup_assign_same.
Qed.

Lemma with_activities_again (d : dict) :
  with_activities (with_activities d) = with_activities d.
Proof.
  unfold with_activities at 1. rewrite with_activities_lookup. reflexivity.
Qed.

Lemma with_activities_other (d : dict) (k : str) :
  eqs k_activities k = false -> lookup k (with_activities d) = lookup k d.
Proof.
  intros H. unfold with_activities.
  destruct (lookup k_activities d); [reflexivity|].
  apply lookup_assign_other, H.
Qed.

(** The items over which the loop of a day runs, and what they become. *)
Lemma fix_day_steps (d : dict) (out : json) :
  fix_day (JObj d) = Ok out ->
  exists v acts items items',
    lookup k_day d = Some v
    /\ lookup k_activities (with_activities d) = Some acts
    /\ py_iter acts = Ok items
    /\ mapM fix_activity items = Ok items'
    /\ out = match acts with
             | JArr _ => JObj (assign k_activities (JArr items') (with_activities d))
             | _ => JObj (with_activities d)
             end.
Proof.
  rewrite fix_day_obj, lookup_day_with_activities.
  destruct (lookup k_day d) as [v|]; [|discriminate].
  rewrite with_activities_lookup.
  set (acts := match lookup k_activities d with Some a => a | None => JArr [] end).
  destruct (py_iter acts) as [items|] eqn:Hi; simpl; [|discriminate].
  destruct (mapM fix_activity items) as [items'|] eqn:Hm; simpl; [|discriminate].
  intros H. exists v, acts, items, items'.
  repeat (split; [reflexivity || assumption|]).
  destruct acts; apply Ok_inj in H; symmetry; exact H.
Qed.

Lemma no_text_passes (items : list json) (items' : list json) :
  mapM fix_activity items = Ok items' ->
  Forall (fun a => exists s, a = JStr s) items -> items = [].
Proof.
  intros Hm Hs. destruct items as [|a items]; [reflexivity|].
  apply mapM_ok_inputs in Hm. inversion Hm as [|? ? [b Hb] _]; subst.
  inversion Hs as [|? ? [s ->] _]; subst.
  exfalso. exact (fix_activity_not_text _ _ Hb).
Qed.

Lemma fix_day_accepts (day : json) :
  (exists day', fix_day day = Ok day') <-> Accept.day day = true.
Proof.
  split.
  - intros [day' H]. destruct (fix_day_only_obj _ _ H) as [d ->].
    destruct (fix_day_steps _ _ H) as (v & acts & items & items' & Hv & Ha & Hi & Hm & _).
    cbn [Accept.day]. rewrite Hv. rewrite with_activities_lookup in Ha.
    apply (f_equal (fun o => match o with Some x => x | None => JNull end)) in Ha.
    cbn beta iota in Ha.
    destruct (lookup k_activities d) as [a0|]; [|reflexivity]. subst a0.
    destruct acts as [| | | | s | l | o]; simpl in Hi; try discriminate;
      apply Ok_inj in Hi; subst items; cbn [Accept.activities].
    + assert (E : map (fun c => JStr [c]) s = []).
      { apply (no_text_passes _ _ Hm). apply Forall_forall. intros a Hin.
        apply in_map_iff in Hin. destruct Hin as (c & <- & _). eauto. }
      destruct s; [reflexivity | discriminate].
    + apply (forallb_accepts fix_activity); [apply fix_activity_accepts | eauto].
    + assert (E : map (fun kv : str * json => JStr (fst kv)) o = []).
      { apply (no_text_passes _ _ Hm). apply Forall_forall. intros a Hin.
        apply in_map_iff in Hin. destruct Hin as (c & <- & _). eauto. }
      destruct o; [reflexivity | discriminate].
  - destruct day as [| | | | | | d]; try discriminate. cbn [Accept.day].
    destruct (lookup k_day d) as [v|] eqn:Hv; [|discriminate].
    intros H. rewrite fix_day_obj, lookup_day_with_activities, Hv.
    rewrite with_activities_lookup.
    destruct (lookup k_activities d) as [acts|]; [|simpl; eauto].
    destruct acts as [| | | | s | l | o]; cbn [Accept.activities] in H;
      try discriminate.
    + destruct s; [simpl; eauto | discriminate].
    + apply (forallb_accepts fix_activity) in H; [|apply fix_activity_accepts].
      destruct H as [l' Hl']. simpl. rewrite Hl'. simpl. eauto.
    + destruct o; [simpl; eauto | discriminate].
Qed.

Lemma fix_day_fixed (day day' : json) :
  fix_day day = Ok day' -> fix_day day' = Ok day'.
Proof.
  intros H. destruct (fix_day_only_obj _ _ H) as [d ->].
  destruct (fix_day_steps _ _ H)
    as (v & acts & items & items' & Hv & Ha & Hi & Hm & ->).
  destruct acts as [| | | | s | l | o]; simpl in Hi; try discriminate.
  - rewrite fix_day_obj, with_activities_again, lookup_day_with_activities, Hv, Ha.
    rewrite fix_day_obj, lookup_day_with_activities, Hv, Ha in H.
    simpl in *. exact H.
  - apply Ok_inj in Hi. subst items.
    pose proof (mapM_fixed _ _ _ fix_activity_fixed Hm) as Hm'.
    rewrite fix_day_obj.
    assert (E : with_activities (assign k_activities (JArr items') (with_activities d))
                = assign k_activities (JArr items') (with_activities d)).
    { unfold with_activities at 1. rewrite lookup_assign_same. reflexivity. }
    rewrite E, lookup_assign_same.
    rewrite (lookup_assign_other k_day k_activities) by reflexivity.
    rewrite lookup_day_with_activities, Hv. simpl. rewrite Hm'. simpl.
    rewrite assign_assign. reflexivity.
  - rewrite fix_day_obj, with_activities_again, lookup_day_with_activities, Hv, Ha.
    rewrite fix_day_obj, lookup_day_with_activities, Hv, Ha in H.
    simpl in *. exact H.
Qed.

(** *** The whole reply *)

Lemma normalize_steps (data out : json) :
  normalize data = Ok out ->
  exists d l l',
    ((data = JArr l /\ d = [(k_days, JArr l)])
     \/ (data = JObj d /\ lookup k_days d = Some (JArr l)))
    /\ mapM fix_day l = Ok l'
    /\ out = JObj (assign k_days (JArr l') d).
Proof.
  intros H. destruct data as [| | | | s | l | d];
    try (match type of H with
         | normalize ?x = _ =>
           destruct (normalize_scalar x) as [e He];
           [discriminate | discriminate | rewrite He in H; discriminate]
         end).
  - rewrite normalize_arr in H.
    destruct (existsb (eq_str k_days) l); [discriminate|].
    rewrite normalize_obj in H. cbn [lookup] in H.
    rewrite eqs_refl in H.
    destruct (mapM fix_day l) as [l'|] eqn:Hm; simpl in H; [|discriminate].
    apply Ok_inj in H. exists [(k_days, JArr l)], l, l'.
    split; [left; split; reflexivity|]. split; [exact Hm|].
    symmetry. exact H.
  - rewrite normalize_obj in H.
    destruct (lookup k_days d) as [v|] eqn:Hv; [|discriminate].
    destruct v as [| | | | | l |]; try discriminate.
    destruct (mapM fix_day l) as [l'|] eqn:Hm; simpl in H; [|discriminate].
    apply Ok_inj in H. exists d, l, l'.
    split; [right; split; [reflexivity | exact Hv]|]. split; [exact Hm|].
    symmetry. exact H.
Qed.

(** X9. Normalizing is idempotent: a reply that came out of the normalizer
    goes through it again unchanged. *)
Theorem normalize_idempotent (data out : json) :
  normalize data = Ok out -> normalize out = Ok out.
Proof.
  intros H. destruct (normalize_steps _ _ H) as (d & l & l' & _ & Hm & ->).
  rewrite normalize_obj, lookup_assign_same.
  rewrite (mapM_fixed _ _ _ fix_day_fixed Hm). simpl.
  rewrite assign_assign. reflexivity.
Qed.

(** X10. The normalizer returns a result exactly for the replies described
    by [Accept.reply]: an array of days or an object whose [days] is one,
    each day an object with a [day], its activities (if any) a list of
    objects whose link is absent, false or a string, with a title that can
    be encoded wherever a link has to be made.  For every other reply the
    endpoint answers with the parse failure. *)
Theorem normalize_accepts (data : json) :
  ((exists out, normalize data = Ok out) <-> Accept.reply data = true)
  /\ (respond data = parse_failure <-> Accept.reply data = false).
Proof.
  assert (Hiff : (exists out, normalize data = Ok out) <-> Accept.reply data = true).
  { split.
    - intros [out H]. destruct (normalize_steps _ _ H)
        as (d & l & l' & [[-> ->]|[-> Hd]] & Hm & _); cbn [Accept.reply].
      + apply (forallb_accepts fix_day); [apply fix_day_accepts | eauto].
      + rewrite Hd.
        apply (forallb_accepts fix_day); [apply fix_day_accepts | eauto].
    - destruct data as [| | | | | l | d]; try discriminate; cbn [Accept.reply].
      + intros H. pose proof H as Hall.
        apply (forallb_accepts fix_day) in H; [|apply fix_day_accepts].
        destruct H as [l' Hl']. rewrite normalize_arr.
        destruct (existsb (eq_str k_days) l) eqn:Hex.
        * apply existsb_eq_str in Hex. rewrite forallb_forall in Hall.
          specialize (Hall _ Hex). discriminate.
        * rewrite normalize_wrapped, Hl'. simpl. eauto.
      + destruct (lookup k_days d) as [[| | | | | l |]|] eqn:Hd;
          try discriminate.
        intros H. apply (forallb_accepts fix_day) in H; [|apply fix_day_accepts].
        destruct H as [l' Hl']. rewrite normalize_obj, Hd, Hl'. simpl. eauto. }
  split; [exact Hiff|]. split.
  - intros Hr. destruct (Accept.reply data) eqn:Ha; [|reflexivity].
    destruct (proj2 Hiff eq_refl) as [out Ho].
    unfold respond in Hr. rewrite Ho in Hr. discriminate.
  - intros Hf.
    assert (Hn : forall out, normalize data <> Ok out).
    { intros out Ho. rewrite (proj1 Hiff (ex_intro _ out Ho)) in Hf.
      discriminate. }
    unfold respond. destruct (normalize data) as [out|e]; [|reflexivity].
    exfalso. exact (Hn out eq_refl).
Qed.

End Normalizer_more.

Lemma normalize_idempotent_witness :
  exists out,
    Normalizer.normalize Itineraries.two_days = Ok out
    /\ Normalizer.normalize out = Ok out.
Proof.
  eexists. split; [vm_compute; reflexivity|].
  apply (normalize_idempotent Itineraries.two_days). vm_compute. reflexivity.
Defined.

Lemma normalize_accepts_witness :
  (exists out, Normalizer.normalize Itineraries.two_days = Ok out)
  /\ Normalizer.respond Itineraries.days_is_text = Normalizer.parse_failure.
Proof.
  split.
  - apply (proj1 (normalize_accepts Itineraries.two_days)). reflexivity.
  - apply (proj2 (normalize_accepts Itineraries.days_is_text)). reflexivity.
Defined.


(** ** What the normalizer leaves alone *)

Section Normalizer_keeps.

Import Normalizer.

Lemma fields_kept_refl (k : str) (d : dict) : fields_kept k (JObj d) (JObj d).
Proof. exists d, d. repeat split. Qed.

Lemma fields_kept_assign (k : str) (v : json) (d : dict) :
  fields_kept k (JObj d) (JObj (assign k v d)).
Proof.
  exists d, (assign k v d). repeat split.
  intros k' H. apply lookup_assign_other, H.
Qed.

Lemma Ok_inj_some {A : Type} (a b : A) : Some a = Some b -> a = b.
Proof. intros H. injection H as ->. reflexivity. Qed.

Lemma fix_activity_keeps (a a' : json) :
  fix_activity a = Ok a' -> fields_kept k_map_link a a'.
Proof.
  intros H.
  destruct (fix_activity_ok _ _ H)
    as (d & -> & [(_ & t & enc & _ & _ & ->)|(_ & -> & _)]).
  - apply fields_kept_assign.
  - apply fields_kept_refl.
Qed.

Lemma activities_of_acts (d : dict) (l : list json) :
  lookup k_activities (with_activities d) = Some (JArr l) ->
  activities_of (JObj d) = l.
Proof.
  rewrite with_activities_lookup. cbn [activities_of].
  destruct (lookup k_activities d) as [acts|]; intros H; apply (f_equal
    (fun o => match o with Some (JArr x) => x | _ => [] end)) in H;
    cbn beta iota in H.
  - destruct acts; try exact H; subst l; reflexivity.
  - exact H.
Qed.

Lemma fix_day_keeps (day day' : json) :
  fix_day day = Ok day' ->
  fields_kept k_activities day day'
  /\ Forall2 (fields_kept k_map_link) (activities_of day) (activities_of day').
Proof.
  intros H. destruct (fix_day_only_obj _ _ H) as [d ->].
  destruct (fix_day_steps _ _ H)
    as (v & acts & items & items' & Hv & Ha & Hi & Hm & ->).
  assert (Hw : forall k', eqs k_activities k' = false ->
                          lookup k' (with_activities d) = lookup k' d)
    by (intros k' Hk; apply with_activities_other, Hk).
  assert (Hcase : (exists l, acts = JArr l) \/ (forall l, acts <> JArr l))
    by (destruct acts; eauto; right; discriminate).
  destruct Hcase as [[l ->]|Hx].
  - simpl in Hi. apply Ok_inj in Hi. subst items. split.
    + exists d, (assign k_activities (JArr items') (with_activities d)).
      repeat split. intros k' Hk.
      rewrite (lookup_assign_other k' k_activities) by exact Hk. apply Hw, Hk.
    + rewrite (activities_of_acts d l Ha). cbn [activities_of].
      rewrite lookup_assign_same.
      apply mapM_ok_each in Hm. clear - Hm.
      induction Hm as [|a b l l' Hab _ IH]; constructor.
      * exact (fix_activity_keeps _ _ Hab).
      * exact IH.
  - assert (Hout : match acts with
                   | JArr _ => JObj (assign k_activities (JArr items')
                                       (with_activities d))
                   | _ => JObj (with_activities d)
                   end = JObj (with_activities d)).
    { destruct acts; try reflexivity. exfalso. exact (Hx _ eq_refl). }
    rewrite Hout. split.
    + exists d, (with_activities d). repeat split. exact Hw.
    + cbn [activities_of]. rewrite Ha. rewrite with_activities_lookup in Ha.
      destruct (lookup k_activities d) as [a0|].
      * apply Ok_inj_some in Ha. subst a0.
        destruct acts; try constructor. exfalso. exact (Hx _ eq_refl).
      * apply Ok_inj_some in Ha. subst acts. exfalso. exact (Hx _ eq_refl).
Qed.

Lemma days_of_steps (data : json) (d : dict) (l : list json) :
  (data = JArr l /\ d = [(k_days, JArr l)])
  \/ (data = JObj d /\ lookup k_days d = Some (JArr l)) ->
  days_of data = l.
Proof.
  intros [[-> _]|[-> H]]; cbn [days_of]; [reflexivity|]. rewrite H. reflexivity.
Qed.

(** X11. The normalizer keeps the days and their activities in number and
    order, and changes no field of a day but [activities] and no field of an
    activity but [map_link]; for an object, no top-level field but [days]. *)
Theorem normalize_keeps_other_fields (data out : json) :
  normalize data = Ok out ->
  Forall2 (fun day day' =>
             fields_kept k_activities day day'
             /\ Forall2 (fields_kept k_map_link)
                  (activities_of day) (activities_of day'))
          (days_of data) (days_of out)
  /\ (forall d, data = JObj d -> fields_kept k_days data out).
Proof.
  intros H. destruct (normalize_steps _ _ H) as (d & l & l' & Hd & Hm & ->).
  rewrite (days_of_steps _ _ _ Hd). cbn [days_of]. rewrite lookup_assign_same.
  split.
  - apply mapM_ok_each in Hm. clear - Hm.
    induction Hm as [|a b l l' Hab _ IH]; constructor.
    + exact (fix_day_keeps _ _ Hab).
    + exact IH.
  - intros d0 ->. destruct Hd as [[E _]|[E _]]; [discriminate|].
    injection E as <-. apply fields_kept_assign.
Qed.

End Normalizer_keeps.

Lemma normalize_keeps_other_fields_witness :
  exists out,
    Normalizer.normalize Itineraries.two_days = Ok out
    /\ length (days_of out) = 2
    /\ fields_kept Normalizer.k_days Itineraries.two_days out.
Proof.
  eexists. split; [vm_compute; reflexivity|].
  destruct (normalize_keeps_other_fields Itineraries.two_days _ eq_refl)
    as [H1 H2].
  split; [reflexivity|]. exact (H2 _ eq_refl).
Defined.

(** ** The map links of a normalized reply *)

Section Normalizer_links.

Import Normalizer.

Local Arguments startswith : simpl never.
Local Arguments contains : simpl never.

(** The activities that a day holds after the loop are the results of the
    loop body on the activities it held before, one for one. *)
Lemma fix_day_activities (day day' : json) :
  fix_day day = Ok day' ->
  Forall2 (fun a a' => fix_activity a = Ok a')
          (activities_of day) (activities_of day').
Proof.
  intros H. destruct (fix_day_only_obj _ _ H) as [d ->].
  destruct (fix_day_steps _ _ H)
    as (v & acts & items & items' & Hv & Ha & Hi & Hm & ->).
  assert (Hcase : (exists l, acts = JArr l) \/ (forall l, acts <> JArr l))
    by (destruct acts; eauto; right; discriminate).
  destruct Hcase as [[l ->]|Hx].
  - simpl in Hi. apply Ok_inj in Hi. subst items.
    rewrite (activities_of_acts d l Ha). cbn [activities_of].
    rewrite lookup_assign_same. exact (mapM_ok_each _ _ _ Hm).
  - assert (Hout : match acts with
                   | JArr _ => JObj (assign k_activities (JArr items')
                                       (with_activities d))
                   | _ => JObj (with_activities d)
                   end = JObj (with_activities d)).
    { destruct acts; try reflexivity. exfalso. exact (Hx _ eq_refl). }
    rewrite Hout. cbn [activities_of]. rewrite Ha.
    rewrite with_activities_lookup in Ha.
    destruct (lookup k_activities d) as [a0|].
    + apply Ok_inj_some in Ha. subst a0.
      destruct acts; try constructor. exfalso. exact (Hx _ eq_refl).
    + apply Ok_inj_some in Ha. subst acts. exfalso. exact (Hx _ eq_refl).
Qed.

(** C2. After a successful normalization the reply holds, under [days], one
    day for each day it was given, in the same order, each the result of the
    day loop on the given day, with its activities the results of the
    activity step on the given activities, one for one and in order; every
    activity of every day then has a non-empty map link that starts with the
    canonical prefix.  In the activity step, an activity whose link is
    missing, empty or does not start with the prefix gets the search link
    built from its percent-encoded title, any other activity is left as it
    is; the step succeeds on every activity whose title is an encodable
    string and whose link, if there is one, is a string or counts as false;
    the activity titled Eiffel Tower without a link gets the link ending in
    query=Eiffel+Tower. *)
Theorem normalized_activities_have_map_links :
  (forall data out, normalize data = Ok out ->
     exists days days',
       (data = JArr days
        \/ exists d, data = JObj d /\ lookup k_days d = Some (JArr days))
       /\ getitem out k_days = Ok (JArr days')
       /\ Forall day_well_linked days'
       /\ Forall2 (fun day day' =>
                     fix_day day = Ok day'
                     /\ Forall2 (fun a a' => fix_activity a = Ok a')
                          (activities_of day) (activities_of day'))
                  days days')
  /\ (forall activity out, fix_activity activity = Ok out ->
        well_linked out
        /\ exists d, activity = JObj d
           /\ if needs_link d
              then exists title enc,
                     lookup k_title d = Some (JStr title)
                     /\ Url.quote_plus title = Ok enc
                     /\ out = JObj (assign k_map_link
                                      (JStr (Url.maps_search ++ enc)) d)
              else out = activity)
  /\ (forall d title,
        map_link_typed d = true ->
        lookup k_title d = Some (JStr title) -> encodable title = true ->
        exists out, fix_activity (JObj d) = Ok out)
  /\ fix_activity Itineraries.eiffel = Ok Itineraries.eiffel_linked.
Proof.
  split; [|split; [|split]]; [| |exact fix_activity_total|].
  - intros data out H.
    destruct (normalize_ok _ _ H) as (l & l' & Hsrc & Hm & Hout).
    exists l, l'. split; [exact Hsrc|]. split; [exact Hout|]. split.
    + eapply mapM_ok_results; [|exact Hm].
      intros a b Hab. apply (fix_day_ok _ _ Hab).
    + apply mapM_ok_each in Hm. clear - Hm.
      induction Hm as [|a b l l' Hab _ IH]; constructor.
      * split; [exact Hab | exact (fix_day_activities _ _ Hab)].
      * exact IH.
  - intros activity out H. split; [exact (fix_activity_well_linked _ _ H)|].
    destruct (fix_activity_ok _ _ H) as (d & -> & [(Hn & Hs)|(Hn & -> & _)]);
      exists d; (split; [reflexivity|]); rewrite Hn.
    + exact Hs.
    + reflexivity.
  - vm_compute. reflexivity.
Qed.

End Normalizer_links.

Lemma normalized_activities_have_map_links_witness :
  Normalizer.normalize Itineraries.two_days = Ok Normalized.two_days_linked
  /\ Forall2 (fun day day' =>
                Normalizer.fix_day day = Ok day'
                /\ Forall2 (fun a a' => Normalizer.fix_activity a = Ok a')
                     (activities_of day) (activities_of day'))
             (days_of Itineraries.two_days)
             (days_of Normalized.two_days_linked)
  /\ Forall day_well_linked (days_of Normalized.two_days_linked)
  /\ activities_of (nth 0 (days_of Normalized.two_days_linked) JNull)
     = [Itineraries.eiffel_linked; Itineraries.louvre]
  /\ well_linked Itineraries.eiffel_linked
  /\ exists linked,
       Normalizer.fix_activity
         (JObj [(Normalizer.k_title, JStr (u "Louvre"));
                (Normalizer.k_map_link, JNull)]) = Ok linked.
Proof.
  destruct normalized_activities_have_map_links as (H1 & H2 & H3 & H4).
  assert (E : Normalizer.normalize Itineraries.two_days
              = Ok Normalized.two_days_linked) by (vm_compute; reflexivity).
  destruct (H1 _ _ E) as (days & days' & Hsrc & Hget & Hwl & HF).
  assert (Ed : days_of Itineraries.two_days = days).
  { destruct Hsrc as [Hs|(d & Hs & Hl)]; [discriminate Hs|].
    injection Hs as <-.
    exact (f_equal (fun o => match o with Some (JArr l) => l | _ => [] end) Hl). }
  assert (Ed' : days_of Normalized.two_days_linked = days').
  { exact (f_equal (fun r => match r with Ok (JArr l) => l | _ => [] end) Hget). }
  rewrite Ed, Ed'.
  split; [exact E|]. split; [exact HF|]. split; [exact Hwl|].
  split; [rewrite <- Ed'; reflexivity|]. split.
  - exact (proj1 (H2 Itineraries.eiffel Itineraries.eiffel_linked H4)).
  - exact (H3 [(Normalizer.k_title, JStr (u "Louvre"));
               (Normalizer.k_map_link, JNull)]
              (u "Louvre") eq_refl eq_refl eq_refl).
Defined.

(** ** More on the repair *)

Section Repair_more.

Import Locator Re.

Lemma span_fst_all (p : char -> bool) (s : str) :
  forallb p (fst (span p s)) = true.
Proof.
  induction s as [|c s IH]; [reflexivity|]. simpl.
  destruct (p c) eqn:E; [|reflexivity].
  destruct (span p s). simpl in *. rewrite E, IH. reflexivity.
Qed.

(** A match of the bare-key pattern cuts the text into its groups and the
    rest. *)
Lemma match_key_parts (s g1 g2 g3 rest : str) :
  match_key s = Some (g1, g2, g3, rest) ->
  s = g1 ++ g2 ++ g3 ++ rest.
Proof.
  unfold match_key. destruct s as [|c s1]; [discriminate|].
  destruct (eqc c lbrace || eqc c comma) eqn:Ec; [|discriminate].
  pose proof (span_app isspace s1) as A1.
  destruct (span isspace s1) as [ws1 s2]. simpl in A1.
  destruct s2 as [|d s3]; [discriminate|].
  destruct (ident_start d) eqn:Ed; [|discriminate].
  pose proof (span_app ident_char s3) as A2.
  destruct (span ident_char s3) as [name s4]. simpl in A2.
  pose proof (span_app isspace s4) as A3.
  destruct (span isspace s4) as [ws2 s5]. simpl in A3.
  destruct s5 as [|e s6]; [discriminate|].
  destruct (eqc e colon) eqn:Ee; [|discriminate].
  intros H. injection H as <- <- <- <-.
  subst s1 s3 s4. cbn [app]. rewrite <- !app_assoc. reflexivity.
Qed.

(** A match of the trailing-comma pattern is a comma, white space and the
    closing delimiter it returns. *)
Lemma match_trailing_parts (s : str) (g1 : char) (rest : str) :
  match_trailing s = Some (g1, rest) ->
  exists ws, s = comma :: ws ++ g1 :: rest
             /\ forallb isspace ws = true /\ is_close g1 = true.
Proof.
  unfold match_trailing. destruct s as [|c s1]; [discriminate|].
  destruct (eqc c comma) eqn:Ec; [|discriminate].
  apply eqc_eq in Ec. subst c.
  pose proof (span_app isspace s1) as A1.
  pose proof (span_fst_all isspace s1) as B1.
  destruct (span isspace s1) as [ws1 s2]. simpl in A1, B1.
  destruct s2 as [|d s3]; [discriminate|].
  destruct (is_close d) eqn:Ed; [|discriminate].
  intros H. injection H as <- <-. exists ws1. subst s1. repeat split; assumption.
Qed.

Lemma filter_kept_space (w : str) : forallb isspace w = true -> filter kept w = [].
Proof.
  induction w as [|c w IH]; [reflexivity|]. simpl. intros H.
  apply andb_true_iff in H. destruct H as [Hc Hw].
  unfold kept at 1. rewrite Hc, orb_true_r. simpl. exact (IH Hw).
Qed.

Lemma sub_key_kept (n : nat) (s : str) :
  filter kept (sub_key n s) = filter kept s.
Proof.
  revert s. induction n as [|n IH]; intros s; [reflexivity|].
  destruct s as [|c s']; [reflexivity|]. cbn [sub_key].
  destruct (match_key (c :: s')) as [[[[g1 g2] g3] rest]|] eqn:E.
  - rewrite (match_key_parts _ _ _ _ _ E).
    rewrite !filter_app, IH. cbn [filter].
    replace (kept dquote) with false by reflexivity. reflexivity.
  - cbn [filter]. rewrite IH. reflexivity.
Qed.

Lemma sub_trailing_kept (n : nat) (s : str) :
  filter kept (sub_trailing n s) = filter kept s.
Proof.
  revert s. induction n as [|n IH]; intros s; [reflexivity|].
  destruct s as [|c s']; [reflexivity|]. cbn [sub_trailing].
  destruct (match_trailing (c :: s')) as [[g1 rest]|] eqn:E.
  - destruct (match_trailing_parts _ _ _ E) as (ws & -> & Hws & _).
    cbn [filter]. replace (kept comma) with false by reflexivity.
    rewrite filter_app, (filter_kept_space _ Hws). cbn [app filter].
    rewrite IH. reflexivity.
  - cbn [filter]. rewrite IH. reflexivity.
Qed.

(** X12. The repair only adds or drops double quotes, commas and white
    space: with these characters left out, the text is the same before and
    after. *)
Theorem fix_json_touches_only_quotes_commas_space (json_str : str) :
  filter kept (fix_json json_str) = filter kept json_str.
Proof.
  unfold fix_json. rewrite sub_trailing_kept, sub_key_kept. reflexivity.
Qed.

(** *** What the two rewrites do where they match *)

Lemma space_not_ident (c : char) : isspace c = true -> ident_char c = false.
Proof.
  intros H. unfold isspace, ident_char, ident_start in *.
  repeat (match goal with
          | H : context [N.eqb ?a ?b] |- _ => destruct (N.eqb_spec a b)
          | H : context [N.leb ?a ?b] |- _ => destruct (N.leb_spec a b)
          | |- context [N.eqb ?a ?b] => destruct (N.eqb_spec a b)
          | |- context [N.leb ?a ?b] => destruct (N.leb_spec a b)
          end; try subst; simpl in *; try discriminate; try lia);
    try reflexivity.
Qed.

Lemma stops_ident_space (w s : str) :
  forallb isspace w = true -> JsonText.stops ident_char s = true ->
  JsonText.stops ident_char (w ++ s) = true.
Proof.
  intros Hw Hs. destruct w as [|c w]; [exact Hs|]. simpl in *.
  apply andb_true_iff in Hw. destruct Hw as [Hc _].
  rewrite (space_not_ident _ Hc). reflexivity.
Qed.

Lemma match_key_bare (c : char) (ws1 name ws2 rest : str) :
  eqc c lbrace || eqc c comma = true ->
  forallb isspace ws1 = true -> identifier name = true ->
  forallb isspace ws2 = true ->
  match_key (c :: ws1 ++ name ++ ws2 ++ colon :: rest)
  = Some (c :: ws1, name, ws2 ++ [colon], rest).
Proof.
  intros Hc H1 Hn H2. destruct name as [|h t]; [discriminate|].
  cbn [identifier] in Hn. apply andb_true_iff in Hn. destruct Hn as [Hh Ht].
  unfold match_key. rewrite Hc. cbn [app].
  rewrite (span_exact isspace ws1 (h :: t ++ ws2 ++ colon :: rest) H1)
    by (simpl; rewrite (ident_start_not_space _ Hh); reflexivity).
  rewrite Hh.
  rewrite (span_exact ident_char t (ws2 ++ colon :: rest) Ht)
    by (apply stops_ident_space; [exact H2 | reflexivity]).
  rewrite (span_exact isspace ws2 (colon :: rest) H2) by reflexivity.
  rewrite eqc_refl. reflexivity.
Qed.

(** X13. The first rewrite puts double quotes around a bare key: where an
    opening brace or a comma is followed by white space, an identifier,
    white space and a colon, the identifier comes out quoted, the rest of
    that stretch as it was, and the rewrite goes on after the colon. *)
Theorem sub_key_quotes_bare_key (c : char) (ws1 name ws2 rest : str) :
  eqc c lbrace || eqc c comma = true ->
  forallb isspace ws1 = true -> identifier name = true ->
  forallb isspace ws2 = true ->
  let s := c :: ws1 ++ name ++ ws2 ++ colon :: rest in
  sub_key (length s) s
  = c :: ws1 ++ dquote :: name ++ dquote :: ws2 ++ colon
      :: sub_key (length rest) rest.
Proof.
  intros Hc H1 Hn H2 s. subst s. cbn [length sub_key].
  rewrite (match_key_bare c ws1 name ws2 rest Hc H1 Hn H2).
  cbn [app]. rewrite <- !app_assoc. cbn [app].
  rewrite (sub_key_fuel _ (length rest) rest);
    [reflexivity | rewrite !length_app; simpl; lia | apply Nat.le_refl].
Qed.

(** X14. The second rewrite drops a comma that only white space separates
    from a closing brace or bracket, together with that white space, and
    goes on after the closing delimiter. *)
Theorem sub_trailing_drops_comma (ws : str) (c : char) (rest : str) :
  forallb isspace ws = true -> is_close c = true ->
  let s := comma :: ws ++ c :: rest in
  sub_trailing (length s) s = c :: sub_trailing (length rest) rest.
Proof.
  intros Hw Hc s. subst s. cbn [length sub_trailing].
  assert (E : match_trailing (comma :: ws ++ c :: rest) = Some (c, rest)).
  { unfold match_trailing. rewrite eqc_refl.
    rewrite (span_exact isspace ws (c :: rest) Hw).
    - rewrite Hc. reflexivity.
    - simpl. unfold is_close, isspace, eqc, rbrace, rbracket in *.
      destruct (N.eqb_spec c 125); [subst; reflexivity|].
      destruct (N.eqb_spec c 93); [subst; reflexivity | discriminate]. }
  rewrite E.
  rewrite (sub_trailing_fuel _ (length rest) rest);
    [reflexivity | rewrite length_app; simpl; lia | apply Nat.le_refl].
Qed.

End Repair_more.

Lemma sub_key_quotes_bare_key_witness :
  Re.sub_key 9 (u "{ day : 1") = js "{ 'day' : 1".
Proof.
  pose proof (sub_key_quotes_bare_key 123%N (u " ") (u "day") (u " ") (u " 1")
                eq_refl eq_refl eq_refl eq_refl) as H.
  vm_compute in H |- *. exact H.
Defined.

Lemma sub_trailing_drops_comma_witness :
  Re.sub_trailing 5 (u ", ]ab") = u "]ab".
Proof.
  pose proof (sub_trailing_drops_comma (u " ") 93%N (u "ab") eq_refl eq_refl)
    as H.
  vm_compute in H |- *. exact H.
Defined.

(** ** White space and code fences around the reply *)

Section Locator_frames.

Import Locator.

Lemma lstrip_blank_app (w s : str) :
  blank w = true -> lstrip (w ++ s) = lstrip s.
Proof.
  unfold blank. induction w as [|c w IH]; simpl; [reflexivity|].
  intros H. apply andb_true_iff in H. destruct H as [Hc Hw].
  rewrite Hc. exact (IH Hw).
Qed.

Lemma lstrip_stops_app (s t : str) :
  s <> [] -> JsonText.stops isspace s = true -> lstrip (s ++ t) = s ++ t.
Proof.
  destruct s as [|c s]; [congruence|]. simpl. intros _ H.
  apply negb_true_iff in H. rewrite H. reflexivity.
Qed.

Lemma blank_rev (w : str) : blank w = true -> blank (rev w) = true.
Proof.
  unfold blank. rewrite !forallb_forall. intros H x Hx.
  apply H, in_rev. exact Hx.
Qed.

Lemma rstrip_app_blank (s w : str) :
  blank w = true -> rstrip (s ++ w) = rstrip s.
Proof.
  intros H. unfold rstrip.
  rewrite rev_app_distr, (lstrip_blank_app _ _ (blank_rev _ H)). reflexivity.
Qed.

Lemma rstrip_tight (s : str) : s <> [] -> tight s = true -> rstrip s = s.
Proof.
  intros Hs H. apply andb_true_iff in H. destruct H as [_ H]. unfold rstrip.
  rewrite <- (app_nil_r (rev s)), lstrip_stops_app, app_nil_r, rev_involutive;
    [reflexivity | | exact H].
  intros E. apply Hs. rewrite <- (rev_involutive s), E. reflexivity.
Qed.

(** [strip] takes the white space off a text that has none at its ends. *)
Lemma strip_frame (w1 s w2 : str) :
  blank w1 = true -> blank w2 = true -> s <> [] -> tight s = true ->
  strip (w1 ++ s ++ w2) = s.
Proof.
  intros H1 H2 Hs Ht. unfold strip.
  rewrite (lstrip_blank_app _ _ H1), lstrip_stops_app;
    [| exact Hs | apply andb_true_iff in Ht; apply Ht].
  rewrite (rstrip_app_blank _ _ H2). exact (rstrip_tight _ Hs Ht).
Qed.

Lemma strip_left (w1 s : str) :
  blank w1 = true -> s <> [] -> tight s = true -> strip (w1 ++ s) = s.
Proof.
  intros H1 Hs Ht. rewrite <- (app_nil_r s) at 1.
  exact (strip_frame w1 s [] H1 eq_refl Hs Ht).
Qed.

Lemma strip_right (s w2 : str) :
  blank w2 = true -> s <> [] -> tight s = true -> strip (s ++ w2) = s.
Proof. intros H2 Hs Ht. exact (strip_frame [] s w2 eq_refl H2 Hs Ht). Qed.

Lemma strip_tight (s : str) : s <> [] -> tight s = true -> strip s = s.
Proof.
  intros Hs Ht. rewrite <- (app_nil_r s) at 1.
  exact (strip_right s [] eq_refl Hs Ht).
Qed.

Lemma strip_marker_skip (cleaned marker : str) :
  startswith cleaned marker = false -> endswith cleaned marker = false ->
  strip_marker cleaned marker = cleaned.
Proof. intros H1 H2. unfold strip_marker. rewrite H1, H2. reflexivity. Qed.

Lemma no_backquote_rev (s : str) :
  no_backquote s = true -> no_backquote (rev s) = true.
Proof.
  unfold no_backquote. rewrite !forallb_forall. intros H x Hx.
  apply H, in_rev. exact Hx.
Qed.

Lemma no_backquote_start (s m : str) :
  no_backquote s = true -> In backquote m -> startswith s m = false.
Proof.
  intros Hs Hm. destruct (startswith s m) eqn:E; [|reflexivity].
  apply startswith_app in E. unfold no_backquote in Hs.
  rewrite forallb_forall in Hs.
  assert (Hin : In backquote s) by (rewrite E; apply in_or_app; left; exact Hm).
  specialize (Hs _ Hin). discriminate.
Qed.

Lemma no_backquote_marker (s m : str) :
  no_backquote s = true -> In backquote m -> strip_marker s m = s.
Proof.
  intros Hs Hm. apply strip_marker_skip.
  - exact (no_backquote_start _ _ Hs Hm).
  - unfold endswith. apply no_backquote_start.
    + exact (no_backquote_rev _ Hs).
    + apply in_rev in Hm. exact Hm.
Qed.

Lemma drop_last_app (x t : str) : drop_last (x ++ t) (length t) = x.
Proof.
  unfold drop_last.
  rewrite length_app, Nat.add_sub, firstn_app, Nat.sub_diag, firstn_all.
  simpl. apply app_nil_r.
Qed.

(** The closing fence comes off a text that does not begin with a
    backquote. *)
Lemma strip_marker_closing (core w2 : str) :
  blank w2 = true -> core <> [] -> tight core = true ->
  no_backquote core = true ->
  strip_marker (core ++ w2 ++ u "```") (u "```") = core.
Proof.
  intros H2 Hc Ht Hb. unfold strip_marker.
  assert (E1 : startswith (core ++ w2 ++ u "```") (u "```") = false).
  { destruct core as [|h t]; [congruence|]. simpl in Hb.
    apply andb_true_iff in Hb. destruct Hb as [Hh _].
    apply negb_true_iff in Hh. change (u "```") with [backquote; backquote; backquote].
    cbn [app startswith]. rewrite Hh. reflexivity. }
  rewrite E1.
  assert (E2 : endswith (core ++ w2 ++ u "```") (u "```") = true).
  { unfold endswith. rewrite !rev_app_distr, <- app_assoc.
    apply startswith_prefix. }
  rewrite E2, app_assoc, drop_last_app.
  exact (strip_right core w2 H2 Hc Ht).
Qed.

Lemma tight_before_fence (core w2 : str) :
  core <> [] -> tight core = true -> tight (core ++ w2 ++ u "```") = true.
Proof.
  intros Hc Ht. apply andb_true_iff in Ht. destruct Ht as [Ht _].
  unfold tight. apply andb_true_iff. split.
  - destruct core; [congruence | exact Ht].
  - rewrite !rev_app_distr. reflexivity.
Qed.

Lemma fence_core_nonempty (core w2 : str) : core <> [] -> core ++ w2 ++ u "```" <> [].
Proof. destruct core; [congruence | discriminate]. Qed.

Lemma clean_framed (core raw : str) :
  framed core raw -> core <> [] -> tight core = true ->
  no_backquote core = true -> clean raw = core.
Proof.
  intros Hf Hc Ht Hb. unfold clean, markers. cbn [fold_left].
  destruct Hf as [w1 w2 H1 H2 | w1 w2 H1 H2 | w1 w2 Hw H1 H2].
  - rewrite (strip_frame w1 core w2 H1 H2 Hc Ht).
    rewrite !no_backquote_marker; [reflexivity | | | |]; try exact Hb;
      try (rewrite no_backquote_marker; [exact Hb | exact Hb |]);
      simpl; auto.
  - rewrite strip_tight;
      [| discriminate
       | apply andb_true_iff; split;
         [reflexivity | rewrite !rev_app_distr; reflexivity]].
    assert (E : strip_marker (u "```json" ++ w1 ++ core ++ w2 ++ u "```")
                  (u "```json") = core ++ w2 ++ u "```").
    { unfold strip_marker. rewrite startswith_prefix.
      unfold slice_from. rewrite Nat2Z.id.
      change (skipn (length (u "```json"))
                (u "```json" ++ w1 ++ core ++ w2 ++ u "```"))
        with (w1 ++ core ++ w2 ++ u "```").
      rewrite (strip_left w1 _ H1 (fence_core_nonempty _ _ Hc)
                 (tight_before_fence _ _ Hc Ht)).
      assert (E2 : endswith (core ++ w2 ++ u "```") (u "```json") = false).
      { unfold endswith. rewrite !rev_app_distr. reflexivity. }
      rewrite E2. reflexivity. }
    rewrite E. exact (strip_marker_closing core w2 H2 Hc Ht Hb).
  - rewrite strip_tight;
      [| discriminate
       | apply andb_true_iff; split;
         [reflexivity | rewrite !rev_app_distr; reflexivity]].
    assert (E : strip_marker (u "```" ++ w1 ++ core ++ w2 ++ u "```")
                  (u "```json") = u "```" ++ w1 ++ core ++ w2 ++ u "```").
    { apply strip_marker_skip.
      - destruct w1 as [|s0 w1]; [congruence|]. simpl in H1.
        apply andb_true_iff in H1. destruct H1 as [H0 _].
        assert (Hj : eqc s0 106%N = false).
        { destruct (eqc s0 106%N) eqn:Ej; [|reflexivity].
          apply eqc_eq in Ej. subst s0. discriminate. }
        change (u "```json") with [backquote; backquote; backquote; 106%N; 115%N; 111%N; 110%N].
        change (u "```") with [backquote; backquote; backquote].
        cbn [app startswith]. rewrite !eqc_refl, Hj. reflexivity.
      - unfold endswith. rewrite !rev_app_distr. reflexivity. }
    rewrite E.
    assert (E' : strip_marker (u "```" ++ w1 ++ core ++ w2 ++ u "```") (u "```")
                 = core).
    { unfold strip_marker at 1. rewrite startswith_prefix.
      unfold slice_from. rewrite Nat2Z.id.
      change (skipn (length (u "```")) (u "```" ++ w1 ++ core ++ w2 ++ u "```"))
        with (w1 ++ core ++ w2 ++ u "```").
      rewrite (strip_left w1 _ H1 (fence_core_nonempty _ _ Hc)
                 (tight_before_fence _ _ Hc Ht)).
      assert (E1 : endswith (core ++ w2 ++ u "```") (u "```") = true).
      { unfold endswith. rewrite !rev_app_distr, <- app_assoc.
        apply startswith_prefix. }
      rewrite E1, app_assoc, drop_last_app.
      exact (strip_right core w2 H2 Hc Ht). }
    exact E'.
Qed.

Lemma framed_nonempty (core raw : str) : framed core raw -> core <> [] -> raw <> [].
Proof.
  intros [w1 w2 _ _ | w1 w2 _ _ | w1 w2 _ _ _] Hc; try discriminate.
  destruct w1; [destruct core; [congruence | discriminate] | discriminate].
Qed.

Lemma extract_via_clean (a b : str) :
  a <> [] -> b <> [] -> clean a = clean b ->
  extract_json_from_model_output a = extract_json_from_model_output b.
Proof.
  intros Ha Hb E. destruct a; [congruence|]. destruct b; [congruence|].
  unfold extract_json_from_model_output. rewrite E. reflexivity.
Qed.

(** X15. White space and a code fence around the reply are invisible to the
    locator: when the text proper is not empty, has no white space at its
    ends and holds no backquote, the cleaned reply is that text, and the
    locator returns what it returns for the text alone. *)
Theorem locator_ignores_frame (core raw : str) :
  framed core raw -> core <> [] -> tight core = true ->
  no_backquote core = true ->
  clean raw = core
  /\ extract_json_from_model_output raw = extract_json_from_model_output core.
Proof.
  intros Hf Hc Ht Hb. pose proof (clean_framed _ _ Hf Hc Ht Hb) as E.
  split; [exact E|].
  apply extract_via_clean; [exact (framed_nonempty _ _ Hf Hc) | exact Hc |].
  rewrite E. symmetry. apply clean_framed; try assumption.
  rewrite <- (app_nil_r core) at 2. exact (framed_bare core [] [] eq_refl eq_refl).
Qed.

End Locator_frames.

Lemma locator_ignores_frame_witness :
  Locator.clean (u "```json" ++ nl ++ js "{'days': 3}" ++ nl ++ u "```")
  = js "{'days': 3}"
  /\ Locator.extract_json_from_model_output
       (u "```json" ++ nl ++ js "{'days': 3}" ++ nl ++ u "```")
     = Locator.extract_json_from_model_output (js "{'days': 3}").
Proof.
  apply (locator_ignores_frame (js "{'days': 3}")).
  - exact (framed_json _ nl nl eq_refl eq_refl).
  - discriminate.
  - reflexivity.
  - reflexivity.
Defined.

(** ** The text that is handed to the parser *)

Section Selection_more.

Import Locator Re Selection.

Lemma dotstar_rbrace_absent (s : str) :
  forallb (fun x => negb (eqc x rbrace)) s = true -> dotstar_rbrace s = None.
Proof.
  induction s as [|c s IH]; simpl; [reflexivity|]. intros H.
  apply andb_true_iff in H. destruct H as [Hc Hs].
  rewrite (IH Hs). apply negb_true_iff in Hc. rewrite Hc. reflexivity.
Qed.

(** The greedy [.*] runs to the last closing brace. *)
Lemma dotstar_rbrace_last (body post : str) :
  forallb (fun x => negb (eqc x rbrace)) post = true ->
  dotstar_rbrace (body ++ rbrace :: post) = Some (body ++ [rbrace]).
Proof.
  intros H. induction body as [|c body IH]; simpl.
  - rewrite (dotstar_rbrace_absent _ H). reflexivity.
  - rewrite IH. reflexivity.
Qed.

(** The search starts at the first opening brace. *)
Lemma search_object_first (pre body post : str) :
  forallb (fun x => negb (eqc x lbrace)) pre = true ->
  forallb (fun x => negb (eqc x rbrace)) post = true ->
  search_object (pre ++ lbrace :: body ++ rbrace :: post)
  = Some (lbrace :: body ++ [rbrace]).
Proof.
  intros Hpre Hpost. induction pre as [|c pre IH]; simpl.
  - rewrite (dotstar_rbrace_last _ _ Hpost). reflexivity.
  - simpl in Hpre. apply andb_true_iff in Hpre. destruct Hpre as [Hc Hpre].
    apply negb_true_iff in Hc. rewrite Hc. exact (IH Hpre).
Qed.

Lemma search_object_found (a b c : str) :
  search_object (a ++ lbrace :: b ++ rbrace :: c) <> None.
Proof.
  intros E. pose proof (search_object_none _ a _ E eq_refl) as H.
  apply dotstar_rbrace_none in H. rewrite forallb_app in H.
  apply andb_true_iff in H. destruct H as [_ H]. simpl in H. discriminate.
Qed.

Lemma candidate_kept (raw : str) :
  starts_with_brace (extract_json_from_model_output raw) = true ->
  candidate_text raw = extract_json_from_model_output raw.
Proof.
  intros H. unfold candidate_text. cbv zeta. rewrite H. simpl.
  rewrite H. reflexivity.
Qed.

Lemma candidate_replaced (raw body : str) :
  starts_with_brace (extract_json_from_model_output raw) = false ->
  search_object raw = Some (lbrace :: body ++ [rbrace]) ->
  candidate_text raw = lbrace :: body ++ [rbrace].
Proof.
  intros H Hm. unfold candidate_text. cbv zeta. rewrite H, Hm. simpl.
  rewrite starts_with_brace_cons. reflexivity.
Qed.

(** X16. Whenever the reply holds an opening brace with a closing brace
    somewhere after it, the text handed to the parser begins with an opening
    brace once stripped: the first or the second step has given one. *)
Theorem candidate_text_starts_with_brace (a b c : str) :
  starts_with_brace (candidate_text (a ++ lbrace :: b ++ rbrace :: c)) = true.
Proof.
  set (raw := a ++ lbrace :: b ++ rbrace :: c).
  destruct (starts_with_brace (extract_json_from_model_output raw)) eqn:E.
  - rewrite (candidate_kept raw E). exact E.
  - destruct (search_object raw) as [m|] eqn:Em.
    + destruct (search_object_some _ _ Em) as (pre & body & post & _ & -> & _).
      rewrite (candidate_replaced raw body E Em).
      apply starts_with_brace_cons.
    + exfalso. exact (search_object_found a b c Em).
Qed.

(** The result of the locator begins with the delimiter at the start
    index. *)
Lemma extract_head (raw : str) (c : char) (t : str) :
  raw <> [] -> start_index (clean raw) <> (-1)%Z ->
  slice_from (clean raw) (start_index (clean raw)) = c :: t ->
  is_open c = true ->
  exists t', extract_json_from_model_output raw = c :: t'.
Proof.
  intros Hraw Hs Ht Hc. unfold extract_json_from_model_output.
  destruct raw as [|r0 raw]; [congruence|].
  cbv zeta. set (r := r0 :: raw) in *.
  apply Z.eqb_neq in Hs. rewrite Hs.
  unfold slice, slice_from in *. rewrite Ht. simpl scan. rewrite Hc.
  destruct (scan (start_index (clean r)) [c] 1 t =? -1)%Z eqn:Hscan;
    simpl negb; cbv iota.
  - exists t. reflexivity.
  - apply Z.eqb_neq in Hscan.
    assert (Hlow : (start_index (clean r) + 1
                    <= scan (start_index (clean r)) [c] 1 t)%Z).
    { destruct (scan_stops _ t [c] 1 ltac:(discriminate) Hscan)
        as (n & d & E & _). lia. }
    remember (scan (start_index (clean r)) [c] 1 t) as e.
    replace (Z.to_nat (e + 1 - start_index (clean r)))
      with (S (Z.to_nat (e - start_index (clean r)))) by lia.
    cbn [firstn]. eauto.
Qed.

Lemma find_lbracket_in (s : str) :
  In lbracket s -> find s lbracket <> (-1)%Z.
Proof.
  intros Hin E. pose proof (find_absent _ _ 0%Z (Z.le_refl 0) E) as H.
  rewrite forallb_forall in H. specialize (H _ Hin). discriminate.
Qed.

(** The choice of the locator and of the first search for a reply that is
    one object between a prefix without an opening brace and a suffix without
    a closing brace: the object, provided that the scan from its first brace
    ends at its last one when it holds no opening bracket. *)
Lemma candidate_whole (raw pre body post : str) :
  raw = pre ++ lbrace :: body ++ rbrace :: post ->
  forallb (fun x => negb (eqc x lbrace)) pre = true ->
  forallb (fun x => negb (eqc x rbrace)) post = true ->
  clean raw = lbrace :: body ++ [rbrace] ->
  (find (lbrace :: body ++ [rbrace]) lbracket = (-1)%Z ->
   scan 0 [] 0 (lbrace :: body ++ [rbrace]) = (Z.of_nat (length body) + 1)%Z) ->
  candidate_text raw = lbrace :: body ++ [rbrace].
Proof.
  intros Hraw Hpre Hpost Hclean Hscan.
  assert (Hne : raw <> []) by (rewrite Hraw; destruct pre; discriminate).
  assert (Hm : search_object raw = Some (lbrace :: body ++ [rbrace])).
  { rewrite Hraw. exact (search_object_first _ _ _ Hpre Hpost). }
  set (obj := lbrace :: body ++ [rbrace]) in *.
  assert (Hb : find obj lbrace = 0%Z) by reflexivity.
  destruct (Z.eq_dec (find obj lbracket) (-1)) as [E|E].
  - assert (Hx : extract_json_from_model_output raw = obj).
    { unfold extract_json_from_model_output.
      destruct raw as [|r0 raw']; [congruence|]. cbv zeta.
      rewrite Hclean. unfold start_index. rewrite Hb, E.
      change (Z.max 0 (-1)) with 0%Z.
      change (0 =? -1)%Z with false. cbv iota.
      change (slice_from obj 0) with obj. rewrite (Hscan E).
      replace (Z.of_nat (length body) + 1 =? -1)%Z with false
        by (symmetry; apply Z.eqb_neq; lia).
      cbn [negb]. unfold slice.
      change (skipn (Z.to_nat 0) obj) with obj.
      apply firstn_all2. unfold obj. cbn [length]. rewrite length_app.
      simpl. lia. }
    rewrite candidate_kept; rewrite Hx; [reflexivity|].
    apply starts_with_brace_cons.
  - apply candidate_replaced; [|exact Hm].
    destruct (find_from_found lbracket obj 0 E (Z.le_refl 0)) as (_ & t & Ht).
    fold (find obj lbracket) in Ht. rewrite Z.sub_0_r in Ht.
    assert (Hj : (1 <= find obj lbracket)%Z).
    { unfold find, obj. cbn [find_from].
      change (eqc lbrace lbracket) with false. cbv iota.
      destruct (find_from_lower lbracket (body ++ [rbrace]) (0 + 1)) as [H|H];
        [lia | | exact H].
      exfalso. apply E. unfold find, obj. cbn [find_from].
      change (eqc lbrace lbracket) with false. cbv iota. exact H. }
    assert (Hs : start_index (clean raw) = find obj lbracket).
    { rewrite Hclean. unfold start_index. rewrite Hb. lia. }
    destruct (extract_head raw lbracket t Hne) as [t' Hx].
    + rewrite Hs. exact E.
    + rewrite Hs, Hclean. exact Ht.
    + reflexivity.
    + rewrite Hx. unfold starts_with_brace.
      destruct (strip_keeps_head lbracket t' eq_refl) as [s' ->]. reflexivity.
Qed.

Lemma blank_no_char (c : char) (w : str) :
  isspace c = false -> blank w = true ->
  forallb (fun x => negb (eqc x c)) w = true.
Proof.
  intros Hc. unfold blank. apply forallb_impl. intros x Hx.
  destruct (eqc x c) eqn:E; [|reflexivity].
  apply eqc_eq in E. subst x. congruence.
Qed.

(** Around a framed text there is no brace. *)
Lemma framed_split (core raw : str) :
  framed core raw ->
  exists pre post,
    raw = pre ++ core ++ post
    /\ forallb (fun x => negb (eqc x lbrace)) pre = true
    /\ forallb (fun x => negb (eqc x rbrace)) post = true.
Proof.
  intros [w1 w2 H1 H2 | w1 w2 H1 H2 | w1 w2 _ H1 H2].
  - exists w1, w2. split; [reflexivity|]. split.
    + exact (blank_no_char lbrace w1 eq_refl H1).
    + exact (blank_no_char rbrace w2 eq_refl H2).
  - exists (u "```json" ++ w1), (w2 ++ u "```").
    split; [rewrite <- !app_assoc; reflexivity|]. rewrite !forallb_app.
    rewrite (blank_no_char lbrace w1 eq_refl H1),
      (blank_no_char rbrace w2 eq_refl H2). split; reflexivity.
  - exists (u "```" ++ w1), (w2 ++ u "```").
    split; [rewrite <- !app_assoc; reflexivity|]. rewrite !forallb_app.
    rewrite (blank_no_char lbrace w1 eq_refl H1),
      (blank_no_char rbrace w2 eq_refl H2). split; reflexivity.
Qed.

Lemma object_tight (body : str) : tight (lbrace :: body ++ [rbrace]) = true.
Proof.
  unfold tight. apply andb_true_iff. split; [reflexivity|].
  cbn [rev]. rewrite rev_app_distr. reflexivity.
Qed.

Lemma candidate_framed (body raw : str) :
  framed (lbrace :: body ++ [rbrace]) raw ->
  no_backquote body = true ->
  (find (lbrace :: body ++ [rbrace]) lbracket = (-1)%Z ->
   scan 0 [] 0 (lbrace :: body ++ [rbrace]) = (Z.of_nat (length body) + 1)%Z) ->
  candidate_text raw = lbrace :: body ++ [rbrace].
Proof.
  intros Hf Hb Hscan.
  destruct (framed_split _ _ Hf) as (pre & post & Hraw & Hpre & Hpost).
  apply (candidate_whole raw pre body post); try assumption.
  - rewrite Hraw. cbn [app]. rewrite <- app_assoc. reflexivity.
  - apply clean_framed; [exact Hf | discriminate | apply object_tight |].
    unfold no_backquote in *. cbn [forallb]. rewrite forallb_app, Hb.
    reflexivity.
Qed.

(** X17. A reply that is one object with an opening bracket inside, between
    white space and possibly in a code fence, is handed to the parser whole,
    whatever else the object holds: the locator starts at the bracket, so the
    first search takes over and finds the object. *)
Theorem candidate_text_recovers_object (body raw : str) :
  framed (lbrace :: body ++ [rbrace]) raw ->
  In lbracket body -> no_backquote body = true ->
  candidate_text raw = lbrace :: body ++ [rbrace]
  /\ exists t, extract_json_from_model_output raw = lbracket :: t.
Proof.
  intros Hf Hin Hb.
  assert (Hfind : find (lbrace :: body ++ [rbrace]) lbracket <> (-1)%Z).
  { apply find_lbracket_in. right. apply in_or_app. left. exact Hin. }
  split.
  - apply candidate_framed; [exact Hf | exact Hb |]. intros E. contradiction.
  - set (obj := lbrace :: body ++ [rbrace]) in *.
    assert (Hclean : clean raw = obj).
    { apply clean_framed; [exact Hf | discriminate | apply object_tight |].
      unfold no_backquote in *. unfold obj. cbn [forallb].
      rewrite forallb_app, Hb. reflexivity. }
    destruct (find_from_found lbracket obj 0 Hfind (Z.le_refl 0))
      as (Hpos & t & Ht).
    fold (find obj lbracket) in Ht, Hpos. rewrite Z.sub_0_r in Ht.
    assert (Hs : start_index (clean raw) = find obj lbracket).
    { rewrite Hclean. unfold start_index.
      replace (find obj lbrace) with 0%Z by reflexivity. lia. }
    apply (extract_head raw lbracket t).
    + apply (framed_nonempty _ _ Hf). discriminate.
    + rewrite Hs. exact Hfind.
    + rewrite Hs, Hclean. exact Ht.
    + reflexivity.
Qed.

End Selection_more.

Lemma candidate_text_recovers_object_witness :
  Selection.candidate_text
    (u "```json" ++ nl ++ js "{'days': [{'day': 1}]}" ++ nl ++ u "```")
  = js "{'days': [{'day': 1}]}"
  /\ exists t,
       Locator.extract_json_from_model_output
         (u "```json" ++ nl ++ js "{'days': [{'day': 1}]}" ++ nl ++ u "```")
       = Locator.lbracket :: t.
Proof.
  apply (candidate_text_recovers_object (js "'days': [{'day': 1}]")).
  - exact (framed_json _ nl nl eq_refl eq_refl).
  - vm_compute. tauto.
  - reflexivity.
Defined.

(** ** The locator on the text of a JSON value *)

Section Locator_json.

Import Locator Re Selection JsonText JsonShape.

Lemma passes_nil : passes [].
Proof. intros k stack i rest _. simpl. rewrite Z.add_0_r. reflexivity. Qed.

Lemma passes_app (a b : str) : passes a -> passes b -> passes (a ++ b).
Proof.
  intros Ha Hb k stack i rest Hs.
  rewrite <- app_assoc, (Ha k stack i _ Hs), (Hb k stack _ rest Hs).
  rewrite length_app, Nat2Z.inj_add, Z.add_assoc. reflexivity.
Qed.

Lemma passes_char (c : char) :
  is_open c || is_close c = false -> passes [c].
Proof.
  intros H k stack i rest _. apply orb_false_iff in H. destruct H as [Ho Hc].
  cbn [app scan length]. rewrite Ho, Hc. reflexivity.
Qed.

Lemma passes_cons (c : char) (s : str) :
  is_open c || is_close c = false -> passes s -> passes (c :: s).
Proof. intros Hc Hs. exact (passes_app [c] s (passes_char c Hc) Hs). Qed.

Lemma passes_inert (w : str) : inert w = true -> passes w.
Proof.
  induction w as [|c w IH]; [intros _; exact passes_nil|].
  unfold inert. cbn [forallb]. intros H.
  apply andb_true_iff in H. destruct H as [Hc Hw].
  apply negb_true_iff in Hc. exact (passes_cons c w Hc (IH Hw)).
Qed.

Lemma close_not_open (c : char) : is_close c = true -> is_open c = false.
Proof.
  intros H. destruct (is_open c) eqn:E; [|reflexivity].
  rewrite (open_not_close c E) in H. discriminate.
Qed.

(** A pair of delimiters around a text the scan passes over. *)
Lemma passes_nest (o c : char) (s : str) :
  is_open o = true -> is_close c = true -> passes s ->
  passes (o :: s ++ [c]).
Proof.
  intros Ho Hc Hs k stack i rest Hst.
  cbn [app scan]. rewrite Ho, <- app_assoc.
  rewrite (Hs k (o :: stack) (i + 1)%Z ([c] ++ rest)) by discriminate.
  cbn [app scan]. rewrite (close_not_open c Hc), Hc.
  destruct stack as [|x st]; [congruence|].
  f_equal. cbn [length]. rewrite length_app. cbn [length]. lia.
Qed.

Lemma passes_quoted (body : str) : inert body = true -> passes (quoted body).
Proof.
  intros H. unfold quoted. apply passes_cons; [reflexivity|].
  apply passes_app; [exact (passes_inert _ H) | exact (passes_char dquote eq_refl)].
Qed.

Lemma array_inner (w1 : str) (v : cst) (w2 : str) (more : items) :
  print (CArr w1 v w2 more)
  = lbracket :: (w1 ++ print v ++ w2 ++ print_items more) ++ [rbracket].
Proof. cbn [print]. rewrite <- !app_assoc. reflexivity. Qed.

Lemma object_inner (w1 key w2 w3 : str) (v : cst) (w4 : str) (more : members) :
  print (CObj w1 key w2 w3 v w4 more)
  = lbrace :: (w1 ++ quoted key ++ w2 ++ colon :: w3 ++ print v ++ w4
               ++ print_members more) ++ [rbrace].
Proof.
  cbn [print]. rewrite <- !app_assoc. cbn [app]. rewrite <- !app_assoc.
  reflexivity.
Qed.

Ltac flat_parts H :=
  repeat (let H' := fresh "F" in
          apply andb_true_iff in H; destruct H as [H H']).

Lemma passes_entry (w1 : str) (v : cst) (w2 tail : str) :
  inert w1 = true -> passes (print v) -> inert w2 = true -> passes tail ->
  passes (w1 ++ print v ++ w2 ++ tail).
Proof.
  intros H1 Hv H2 Ht.
  repeat apply passes_app; auto using passes_inert.
Qed.

Lemma passes_member (w1 key w2 w3 : str) (v : cst) (w4 tail : str) :
  inert w1 = true -> inert key = true -> inert w2 = true ->
  inert w3 = true -> passes (print v) -> inert w4 = true -> passes tail ->
  passes (w1 ++ quoted key ++ w2 ++ colon :: w3 ++ print v ++ w4 ++ tail).
Proof.
  intros H1 Hk H2 H3 Hv H4 Ht.
  apply passes_app; [exact (passes_inert _ H1)|].
  apply passes_app; [exact (passes_quoted _ Hk)|].
  apply passes_app; [exact (passes_inert _ H2)|].
  apply passes_cons; [reflexivity|].
  exact (passes_entry w3 v w4 tail H3 Hv H4 Ht).
Qed.

(** The scan passes over the text of every flat value. *)
Lemma print_passes :
  (forall v, flat v = true -> passes (print v))
  /\ (forall l, flat_items l = true -> passes (print_items l))
  /\ (forall m, flat_members m = true -> passes (print_members m)).
Proof.
  apply cst_mutind.
  - intros tok H. exact (passes_inert _ H).
  - intros body H. exact (passes_quoted _ H).
  - intros ws H. cbn [print]. apply passes_nest; try reflexivity.
    exact (passes_inert _ H).
  - intros w1 v IHv w2 more IHm H. cbn [flat] in H. flat_parts H.
    rewrite array_inner. apply passes_nest; try reflexivity.
    apply passes_entry; auto.
  - intros ws H. cbn [print]. apply passes_nest; try reflexivity.
    exact (passes_inert _ H).
  - intros w1 key w2 w3 v IHv w4 more IHm H. cbn [flat] in H. flat_parts H.
    rewrite object_inner. apply passes_nest; try reflexivity.
    apply passes_member; auto.
  - intros _. exact passes_nil.
  - intros w1 v IHv w2 more IHm H. cbn [flat_items] in H. flat_parts H.
    cbn [print_items]. apply passes_cons; [reflexivity|].
    apply passes_entry; auto.
  - intros _. exact passes_nil.
  - intros w1 key w2 w3 v IHv w4 more IHm H. cbn [flat_members] in H.
    flat_parts H. cbn [print_members]. apply passes_cons; [reflexivity|].
    apply passes_member; auto.
Qed.

(** The text of a flat object or array is a pair of delimiters around a
    text that the scan passes over. *)
Lemma container_inner (v : cst) :
  flat v = true -> is_object v || is_array v = true ->
  exists o c inner,
    print v = o :: inner ++ [c] /\ passes inner
    /\ ((is_object v = true /\ o = lbrace /\ c = rbrace)
        \/ (is_array v = true /\ o = lbracket /\ c = rbracket)).
Proof.
  intros Hf Hc. destruct v as [tok|body|ws|w1 v w2 more|ws|w1 key w2 w3 v w4 more];
    try discriminate.
  - exists lbracket, rbracket, ws. split; [reflexivity|].
    split; [exact (passes_inert _ Hf) | right; auto].
  - exists lbracket, rbracket, (w1 ++ print v ++ w2 ++ print_items more).
    split; [apply array_inner|]. split; [|right; auto].
    cbn [flat] in Hf. flat_parts Hf.
    apply passes_entry; auto; now apply print_passes.
  - exists lbrace, rbrace, ws. split; [reflexivity|].
    split; [exact (passes_inert _ Hf) | left; auto].
  - exists lbrace, rbrace,
      (w1 ++ quoted key ++ w2 ++ colon :: w3 ++ print v ++ w4
       ++ print_members more).
    split; [apply object_inner|]. split; [|left; auto].
    cbn [flat] in Hf. flat_parts Hf.
    apply passes_member; auto; now apply print_passes.
Qed.

(** From an opening delimiter the scan ends at the delimiter that closes
    it. *)
Lemma scan_nest (k : Z) (o c : char) (inner rest : str) :
  is_open o = true -> is_close c = true -> passes inner ->
  scan k [] 0 (o :: inner ++ c :: rest) = (k + (Z.of_nat (length inner) + 1))%Z.
Proof.
  intros Ho Hc Hp. cbn [scan]. rewrite Ho.
  rewrite (Hp k [o] (0 + 1)%Z (c :: rest)) by discriminate.
  cbn [scan]. rewrite (close_not_open c Hc), Hc. lia.
Qed.

Lemma no_backquote_inner (o c : char) (inner : str) :
  no_backquote (o :: inner ++ [c]) = true -> no_backquote inner = true.
Proof.
  unfold no_backquote. cbn [forallb]. rewrite forallb_app. intros H.
  apply andb_true_iff in H. destruct H as [_ H].
  apply andb_true_iff in H. apply H.
Qed.

(** X18. A reply that is the text of one JSON object, between white space
    and possibly in a code fence, is handed to the parser exactly as it is,
    provided that no string, key or token in it holds a brace, a bracket or
    a backquote. *)
Theorem candidate_text_returns_flat_object (v : cst) (raw : str) :
  is_object v = true -> flat v = true -> no_backquote (print v) = true ->
  framed (print v) raw -> candidate_text raw = print v.
Proof.
  intros Ho Hf Hb Hfr.
  destruct (container_inner v Hf) as (o & c & inner & Hp & Hpass & Hkind);
    [rewrite Ho; reflexivity|].
  destruct Hkind as [(_ & -> & ->) | (Ha & _)];
    [|destruct v; discriminate].
  rewrite Hp in *. apply candidate_framed.
  - exact Hfr.
  - exact (no_backquote_inner _ _ _ Hb).
  - intros _. rewrite (scan_nest 0 lbrace rbrace inner [] eq_refl eq_refl Hpass).
    lia.
Qed.

Lemma find_none (c : char) (s : str) (i : Z) :
  ~ In c s -> find_from c s i = (-1)%Z.
Proof.
  revert i. induction s as [|x s IH]; intros i H; simpl; [reflexivity|].
  destruct (eqc x c) eqn:E.
  - apply eqc_eq in E. subst x. exfalso. apply H. left. reflexivity.
  - apply IH. intros Hin. apply H. right. exact Hin.
Qed.

Lemma open_not_space (c : char) : is_open c = true -> isspace c = false.
Proof.
  unfold is_open, eqc, lbrace, lbracket.
  destruct (N.eqb_spec c 123); [subst; reflexivity|].
  destruct (N.eqb_spec c 91); [subst; reflexivity | discriminate].
Qed.

Lemma close_not_space (c : char) : is_close c = true -> isspace c = false.
Proof.
  unfold is_close, eqc, rbrace, rbracket.
  destruct (N.eqb_spec c 125); [subst; reflexivity|].
  destruct (N.eqb_spec c 93); [subst; reflexivity | discriminate].
Qed.

Lemma nest_tight (o c : char) (inner : str) :
  is_open o = true -> is_close c = true -> tight (o :: inner ++ [c]) = true.
Proof.
  intros Ho Hc. unfold tight. apply andb_true_iff. split.
  - cbn [JsonText.stops]. rewrite (open_not_space o Ho). reflexivity.
  - cbn [rev]. rewrite rev_app_distr. cbn [rev app JsonText.stops].
    rewrite (close_not_space c Hc). reflexivity.
Qed.

(** With the start index at its head, the text of a container is returned
    whole. *)
Lemma extract_nest (raw : str) (o c : char) (inner : str) :
  raw <> [] -> clean raw = o :: inner ++ [c] ->
  start_index (o :: inner ++ [c]) = 0%Z ->
  is_open o = true -> is_close c = true -> passes inner ->
  extract_json_from_model_output raw = o :: inner ++ [c].
Proof.
  intros Hraw Hclean Hstart Ho Hc Hp.
  unfold extract_json_from_model_output.
  destruct raw as [|r0 raw']; [congruence|]. cbv zeta.
  rewrite Hclean, Hstart. change (0 =? -1)%Z with false. cbv iota.
  change (slice_from (o :: inner ++ [c]) 0) with (o :: inner ++ [c]).
  rewrite (scan_nest 0 o c inner [] Ho Hc Hp).
  replace (0 + (Z.of_nat (length inner) + 1) =? -1)%Z with false
    by (symmetry; apply Z.eqb_neq; lia).
  cbn [negb]. unfold slice.
  change (skipn (Z.to_nat 0) (o :: inner ++ [c])) with (o :: inner ++ [c]).
  apply firstn_all2. cbn [length]. rewrite length_app. cbn [length]. lia.
Qed.

(** With an opening delimiter of the other kind further on, the result
    begins there. *)
Lemma extract_starts_later (raw : str) (o d : char) (rest : str) :
  raw <> [] -> clean raw = o :: rest ->
  (o = lbrace /\ d = lbracket) \/ (o = lbracket /\ d = lbrace) ->
  In d rest ->
  exists t', extract_json_from_model_output raw = d :: t'.
Proof.
  intros Hraw Hclean Hkind Hin.
  assert (Hod : eqc o d = false) by (destruct Hkind as [[-> ->]|[-> ->]]; reflexivity).
  assert (Hfind : find (o :: rest) d <> (-1)%Z).
  { intros E. pose proof (find_absent _ _ 0%Z (Z.le_refl 0) E) as H.
    rewrite forallb_forall in H.
    specialize (H d (or_intror Hin)). rewrite eqc_refl in H. discriminate. }
  destruct (find_from_found d (o :: rest) 0 Hfind (Z.le_refl 0)) as (_ & t & Ht).
  fold (find (o :: rest) d) in Ht. rewrite Z.sub_0_r in Ht.
  assert (Hj : (1 <= find (o :: rest) d)%Z).
  { unfold find in *. cbn [find_from] in *. rewrite Hod in *.
    destruct (find_from_lower d rest (0 + 1)) as [H|H]; [lia | | exact H].
    contradiction. }
  assert (Ho : find (o :: rest) o = 0%Z).
  { unfold find. cbn [find_from]. rewrite eqc_refl. reflexivity. }
  assert (Hs : start_index (clean raw) = find (o :: rest) d).
  { rewrite Hclean. unfold start_index.
    destruct Hkind as [[-> ->]|[-> ->]]; rewrite Ho; lia. }
  apply (extract_head raw d t Hraw).
  - rewrite Hs. exact Hfind.
  - rewrite Hs, Hclean. exact Ht.
  - destruct Hkind as [[_ ->]|[_ ->]]; reflexivity.
Qed.

(** X19. The locator returns the text of a JSON object or array whole, from
    a reply that frames it, exactly when the text holds no opening delimiter
    of the other kind: an object with an array inside, or an array with an
    object inside, comes back cut. *)
Theorem locator_returns_value_iff (v : cst) (raw : str) :
  is_object v || is_array v = true -> flat v = true ->
  no_backquote (print v) = true -> framed (print v) raw ->
  extract_json_from_model_output raw = print v
  <-> ~ In (other_opener v) (print v).
Proof.
  intros Hc Hf Hb Hfr.
  destruct (container_inner v Hf Hc) as (o & c & inner & Hp & Hpass & Hkind).
  assert (Ho : is_open o = true)
    by (destruct Hkind as [(_ & -> & _)|(_ & -> & _)]; reflexivity).
  assert (Hcl : is_close c = true)
    by (destruct Hkind as [(_ & _ & ->)|(_ & _ & ->)]; reflexivity).
  assert (Hother : (o = lbrace /\ other_opener v = lbracket)
                   \/ (o = lbracket /\ other_opener v = lbrace)).
  { unfold other_opener. destruct Hkind as [(E & -> & _)|(E & -> & _)].
    - rewrite E. left. auto.
    - right. split; [reflexivity|]. destruct v; try discriminate; reflexivity. }
  rewrite Hp in *.
  assert (Hne : raw <> []) by (apply (framed_nonempty _ _ Hfr); discriminate).
  assert (Hclean : clean raw = o :: inner ++ [c]).
  { apply clean_framed;
      [exact Hfr | discriminate | exact (nest_tight o c inner Ho Hcl) | exact Hb]. }
  split.
  - intros Hx Hin.
    assert (Hin' : In (other_opener v) (inner ++ [c])).
    { destruct Hin as [E|Hin]; [|exact Hin]. exfalso.
      destruct Hother as [[-> E']|[-> E']]; rewrite E' in E; discriminate. }
    destruct (extract_starts_later raw o _ _ Hne Hclean Hother Hin') as [t' Ht'].
    rewrite Hx in Ht'. injection Ht' as E _.
    destruct Hother as [[-> E']|[-> E']]; rewrite E' in E; discriminate.
  - intros Hnot. apply extract_nest; try assumption.
    unfold start_index, find.
    destruct Hother as [[-> E']|[-> E']]; rewrite E' in Hnot; cbn [find_from].
    + rewrite eqc_refl. change (eqc lbrace lbracket) with false. cbv iota.
      rewrite find_none; [reflexivity|].
      intros Hin. apply Hnot. right. exact Hin.
    + rewrite eqc_refl. change (eqc lbracket lbrace) with false. cbv iota.
      rewrite find_none; [reflexivity|].
      intros Hin. apply Hnot. right. exact Hin.
Qed.

End Locator_json.

Lemma candidate_text_returns_flat_object_witness :
  Selection.candidate_text (JsonText.print_document JsonText.days_document)
  = JsonText.print (JsonText.value JsonText.days_document).
Proof.
  apply candidate_text_returns_flat_object.
  - reflexivity.
  - reflexivity.
  - reflexivity.
  - exact (framed_bare _ (u " ") nl eq_refl eq_refl).
Defined.

Lemma locator_returns_value_iff_witness :
  Locator.extract_json_from_model_output
    (JsonText.print_document JsonText.days_document)
  = JsonText.print (JsonText.value JsonText.days_document)
  <-> ~ In Locator.lbracket (JsonText.print (JsonText.value JsonText.days_document)).
Proof.
  apply (locator_returns_value_iff (JsonText.value JsonText.days_document)).
  - reflexivity.
  - reflexivity.
  - reflexivity.
  - exact (framed_bare _ (u " ") nl eq_refl eq_refl).
Defined.

(** ** More on the prompt *)

Section Prompt_more.

Import Prompt.

(** Two lists in ascending order of distinct ordinals that hold the same
    parts are the same list. *)
Lemma sorted_perm_unique (l1 l2 : list part) :
  StronglySorted by_part_id l1 -> StronglySorted by_part_id l2 ->
  NoDup (map part_id l1) -> Permutation l1 l2 -> l1 = l2.
Proof.
  revert l2. induction l1 as [|a l1 IH]; intros l2 H1 H2 Hnd Hp.
  - apply Permutation_nil in Hp. symmetry. exact Hp.
  - destruct l2 as [|b l2].
    + apply Permutation_sym, Permutation_nil in Hp. discriminate.
    + inversion H1 as [|? ? H1' Ha]; subst.
      inversion H2 as [|? ? H2' Hb]; subst.
      inversion Hnd as [|? ? Hnotin Hnd']; subst.
      assert (E : a = b).
      { assert (Hina : In a (b :: l2))
          by (apply (Permutation_in _ Hp); left; reflexivity).
        assert (Hinb : In b (a :: l1))
          by (apply (Permutation_in _ (Permutation_sym Hp)); left; reflexivity).
        destruct Hina as [E|Hina]; [symmetry; exact E|].
        destruct Hinb as [E|Hinb]; [exact E|].
        rewrite Forall_forall in Ha, Hb.
        pose proof (Ha _ Hinb) as Hab. pose proof (Hb _ Hina) as Hba.
        unfold by_part_id in Hab, Hba. exfalso. apply Hnotin.
        replace (part_id a) with (part_id b) by lia.
        apply in_map. exact Hinb. }
      subst b. f_equal. apply IH; try assumption.
      exact (Permutation_cons_inv Hp).
Qed.

Variable format : str -> list (str * str) -> Py str.

(** X20. With distinct ordinals, the order in which the parts are stored
    does not matter: collections that hold the same parts give the same
    sorted parts and the same master prompt. *)
Theorem master_prompt_ignores_storage_order
    (col col' : list part) (user : ItineraryRequest) :
  Permutation col col' -> NoDup (map part_id col) ->
  get_prompt_parts col = get_prompt_parts col'
  /\ build_master_prompt format col user = build_master_prompt format col' user.
Proof.
  intros Hp Hnd.
  assert (E : get_prompt_parts col = get_prompt_parts col').
  { apply sorted_perm_unique; try apply get_prompt_parts_sorted.
    - apply (Permutation_NoDup (l := map part_id col)); [|exact Hnd].
      apply Permutation_map, get_prompt_parts_perm.
    - eapply perm_trans; [apply Permutation_sym, get_prompt_parts_perm|].
      eapply perm_trans; [exact Hp | apply get_prompt_parts_perm]. }
  split; [exact E|]. unfold build_master_prompt. rewrite E. reflexivity.
Qed.

Lemma lstrip_nil_blank (s : str) : lstrip s = [] <-> blank s = true.
Proof.
  unfold blank. induction s as [|c s IH]; simpl; [tauto|].
  destruct (isspace c); simpl; [exact IH|]. split; discriminate.
Qed.

Lemma lstrip_head (s : str) (c : char) (r : str) :
  lstrip s = c :: r -> isspace c = false.
Proof.
  induction s as [|x s IH]; simpl; [discriminate|].
  destruct (isspace x) eqn:E; [exact IH|]. intros H. injection H as -> _.
  exact E.
Qed.

(** [strip] leaves nothing exactly of a text that is white space only. *)
Lemma strip_nil_blank (s : str) : strip s = [] <-> blank s = true.
Proof.
  rewrite <- lstrip_nil_blank. unfold strip. split.
  - intros H. destruct (lstrip s) as [|c r] eqn:E; [reflexivity|].
    pose proof (lstrip_head _ _ _ E) as Hc.
    destruct (strip_keeps_head c r Hc) as [s' Hs'].
    unfold strip in Hs'. simpl lstrip in Hs'. rewrite Hc in Hs'.
    rewrite Hs' in H. discriminate.
  - intros ->. reflexivity.
Qed.

(** X21. The text for [{specific_location}] is the stripped
    [specific_places], unless that is missing or white space only: then it
    is the text that [{categories}] gets, the categories joined by a comma
    and a space, or nothing when there are none. *)
Theorem specific_location_falls_back_to_categories (user : ItineraryRequest) :
  value_of (u "specific_location") (replacements user)
  = Some (if blank (or_empty (specific_places user))
          then join_or_empty (categories user)
          else strip (or_empty (specific_places user)))
  /\ value_of (u "categories") (replacements user)
     = Some (join_or_empty (categories user))
  /\ build_location_fallback (specific_places user) (categories user)
     = if blank (or_empty (specific_places user))
       then join_or_empty (categories user)
       else strip (or_empty (specific_places user)).
Proof.
  assert (E : build_location_fallback (specific_places user) (categories user)
              = if blank (or_empty (specific_places user))
                then join_or_empty (categories user)
                else strip (or_empty (specific_places user))).
  { unfold build_location_fallback. cbv zeta.
    destruct (blank (or_empty (specific_places user))) eqn:Hb.
    - apply strip_nil_blank in Hb. rewrite Hb. reflexivity.
    - destruct (strip (or_empty (specific_places user))) eqn:Hs;
        [|reflexivity].
      apply strip_nil_blank in Hs. congruence. }
  split; [|split; [reflexivity | exact E]].
  rewrite <- E. reflexivity.
Qed.

End Prompt_more.

Lemma master_prompt_ignores_storage_order_witness :
  Prompt.get_prompt_parts Examples.parts_312
  = Prompt.get_prompt_parts (rev Examples.parts_312)
  /\ Prompt.build_master_prompt Prompt.format_plain Examples.parts_312
       Examples.null_request
     = Prompt.build_master_prompt Prompt.format_plain (rev Examples.parts_312)
         Examples.null_request.
Proof.
  apply master_prompt_ignores_storage_order.
  - apply Permutation_rev.
  - repeat constructor; simpl; intuition discriminate.
Defined.
